(** * The Kubernetes watch-api client ([src/renderer/api/kube-watch-api.ts])

    A shallow embedding of [KubeWatchApi]: the subscription registry
    ([subscribeApi], [apis], [isActive]), the stream parser
    ([processBuffer] and the read loop of [connect]), the event dispatcher
    ([getMessage]), the per-target reconnection ([onServerStreamEnd]), the
    store helper ([subscribeStores]) and the connection manager ([connect],
    [disconnect]) as a labelled transition system whose labels are the
    points at which the asynchronous code is resumed. *)

Set Warnings "-register-all".
From Stdlib Require Import ZArith Lia Bool Ascii String List.
From stdpp Require Import base option list gmap strings.

Local Open Scope string_scope.

(** ** JavaScript values obtained from [JSON.parse] *)

Module Json.

(** A JSON value. A number keeps its lexeme: nothing in the client
    computes with numbers. An object keeps its members in source order. *)
Inductive json : Type :=
| JNull
| JBool (b : bool)
| JNum (lexeme : string)
| JStr (s : string)
| JArr (items : list json)
| JObj (members : list (string * json)).

(** A JavaScript value as the client sees it: [None] is [undefined]. *)
Definition jsval : Type := option json.

(** Errors that the embedded code can throw or receive. *)
Inductive js_error : Type :=
| SyntaxError
| TypeError
| JsError (message : string).

(** The value of a member; with a repeated key the last one wins, as in
    [JSON.parse]. *)
Fixpoint member (k : string) (kvs : list (string * json)) : jsval :=
  match kvs with
  | [] => None
  | (k', v) :: rest =>
      match member k rest with
      | Some later => Some later
      | None => if String.eqb k k' then Some v else None
      end
  end.

(** [v.k] for the property names the client reads ([type], [object],
    [kind], [apiVersion], [metadata], [namespace], [resourceVersion],
    [selfLink], [url]): reading a property of [null] or [undefined]
    throws a [TypeError]; a primitive or an array has none of them. *)
Definition prop (v : jsval) (k : string) : js_error + jsval :=
  match v with
  | None | Some JNull => inl TypeError
  | Some (JObj kvs) => inr (member k kvs)
  | Some _ => inr None
  end.

(** [o.k = v] on an object: an existing key keeps its place, a new one is
    added last. *)
Definition set_member (k : string) (v : json) (kvs : list (string * json))
  : list (string * json) :=
  match member k kvs with
  | Some _ => map (fun kv => (fst kv, if String.eqb k (fst kv) then v else snd kv)) kvs
  | None => kvs ++ [(k, v)]
  end.

(** *** A reader for JSON texts

    [json_of_text] follows the grammar of ECMA-404 on texts of ASCII
    characters: white space, the three literals, numbers, strings with the
    two-character escapes, arrays and objects. A [\u] escape is outside the
    fragment (the reader rejects it). [None] is the [SyntaxError] of
    [JSON.parse]. The recursion is on a fuel that the length of the text
    bounds. *)

(** The double quote, character 34. *)
Definition quote : ascii := "034"%char.

Definition is_ws (c : ascii) : bool :=
  (c =? " ")%char || (c =? "009")%char || (c =? "010")%char || (c =? "013")%char.

Definition is_digit (c : ascii) : bool :=
  let n := nat_of_ascii c in (48 <=? n)%nat && (n <=? 57)%nat.

Fixpoint skip_ws (s : string) : string :=
  match s with
  | String c r => if is_ws c then skip_ws r else s
  | EmptyString => s
  end.

Fixpoint take_digits (s : string) : string * string :=
  match s with
  | String c r =>
      if is_digit c then let '(d, r') := take_digits r in (String c d, r')
      else (EmptyString, s)
  | EmptyString => (EmptyString, s)
  end.

(** A number: an optional minus, an integer part without a leading zero,
    an optional fraction and an optional exponent; the result is its lexeme
    and the rest of the text. *)
Definition read_number (s : string) : option (string * string) :=
  let '(sign, s1) := match s with
                     | String "-" r => ("-", r)
                     | _ => (EmptyString, s)
                     end in
  let '(int, s2) := take_digits s1 in
  match int with
  | EmptyString => None
  | String "0" (String _ _) => None
  | _ =>
      let frac := match s2 with
                  | String "." r =>
                      let '(d, r') := take_digits r in
                      match d with
                      | EmptyString => None
                      | _ => Some ("." ++ d, r')
                      end
                  | _ => Some (EmptyString, s2)
                  end in
      match frac with
      | None => None
      | Some (fr, s3) =>
          let exp := match s3 with
                     | String e r =>
                         if (e =? "e")%char || (e =? "E")%char then
                           let '(sg, r1) := match r with
                                            | String "+" r' => ("+", r')
                                            | String "-" r' => ("-", r')
                                            | _ => (EmptyString, r)
                                            end in
                           let '(d, r2) := take_digits r1 in
                           match d with
                           | EmptyString => None
                           | _ => Some (String e (sg ++ d), r2)
                           end
                         else Some (EmptyString, s3)
                     | EmptyString => Some (EmptyString, s3)
                     end in
          match exp with
          | None => None
          | Some (ex, s4) => Some (sign ++ int ++ fr ++ ex, s4)
          end
      end
  end.

(** The characters of a string literal after its opening quote. *)
Fixpoint read_string (s : string) : option (string * string) :=
  match s with
  | EmptyString => None
  | String "034" r => Some (EmptyString, r)
  | String "\" (String e r) =>
      let decoded :=
        if (e =? quote)%char then Some quote
        else if (e =? "\")%char then Some "\"%char
        else if (e =? "/")%char then Some "/"%char
        else if (e =? "b")%char then Some "008"%char
        else if (e =? "f")%char then Some "012"%char
        else if (e =? "n")%char then Some "010"%char
        else if (e =? "r")%char then Some "013"%char
        else if (e =? "t")%char then Some "009"%char
        else None in
      match decoded, read_string r with
      | Some c, Some (body, r') => Some (String c body, r')
      | _, _ => None
      end
  | String "\" EmptyString => None
  | String c r =>
      if (nat_of_ascii c <? 32)%nat then None
      else match read_string r with
           | Some (body, r') => Some (String c body, r')
           | None => None
           end
  end.

Definition read_literal (lit : string) (v : json) (s : string)
  : option (json * string) :=
  if String.prefix lit s
  then Some (v, String.substring (String.length lit)
                  (String.length s - String.length lit) s)
  else None.

Fixpoint read_value (fuel : nat) (s : string) : option (json * string) :=
  match fuel with
  | O => None
  | S fuel =>
      match skip_ws s with
      | String "{" r =>
          match skip_ws r with
          | String "}" r' => Some (JObj [], skip_ws r')
          | r' => match read_members fuel r' with
                  | Some (kvs, r'') => Some (JObj kvs, skip_ws r'')
                  | None => None
                  end
          end
      | String "[" r =>
          match skip_ws r with
          | String "]" r' => Some (JArr [], skip_ws r')
          | r' => match read_items fuel r' with
                  | Some (xs, r'') => Some (JArr xs, skip_ws r'')
                  | None => None
                  end
          end
      | String "034" r =>
          match read_string r with
          | Some (str, r') => Some (JStr str, skip_ws r')
          | None => None
          end
      | String "n" _ as s' => option_map (fun p => (fst p, skip_ws (snd p))) (read_literal "null" JNull s')
      | String "t" _ as s' => option_map (fun p => (fst p, skip_ws (snd p))) (read_literal "true" (JBool true) s')
      | String "f" _ as s' => option_map (fun p => (fst p, skip_ws (snd p))) (read_literal "false" (JBool false) s')
      | s' => option_map (fun p => (JNum (fst p), skip_ws (snd p))) (read_number s')
      end
  end
with read_items (fuel : nat) (s : string) : option (list json * string) :=
  match fuel with
  | O => None
  | S fuel =>
      match read_value fuel s with
      | Some (v, String "," r) =>
          match read_items fuel r with
          | Some (vs, r') => Some (v :: vs, r')
          | None => None
          end
      | Some (v, String "]" r) => Some ([v], r)
      | _ => None
      end
  end
with read_members (fuel : nat) (s : string)
  : option (list (string * json) * string) :=
  match fuel with
  | O => None
  | S fuel =>
      match skip_ws s with
      | String "034" r =>
          match read_string r with
          | Some (k, r1) =>
              match skip_ws r1 with
              | String ":" r2 =>
                  match read_value fuel r2 with
                  | Some (v, String "," r3) =>
                      match read_members fuel r3 with
                      | Some (kvs, r4) => Some ((k, v) :: kvs, r4)
                      | None => None
                      end
                  | Some (v, String "}" r3) => Some ([(k, v)], r3)
                  | _ => None
                  end
              | _ => None
              end
          | None => None
          end
      | _ => None
      end
  end.

(** [JSON.parse(text)] on the fragment: one value, then the end of the text. *)
Definition json_of_text (text : string) : option json :=
  match read_value (2 * String.length text + 2) text with
  | Some (v, EmptyString) => Some v
  | _ => None
  end.

End Json.
Export Json.

(** ** Strings and lines *)

Definition newline : ascii := "010"%char.
Definition nl : string := String newline EmptyString.

(** [s.split("\n")]: the pieces of [s] between line separators; a text
    without separator is one piece, and a text that ends in a separator has
    an empty last piece. *)
Fixpoint split_lines (s : string) : list string :=
  match s with
  | EmptyString => [EmptyString]
  | String c r =>
      if Ascii.eqb c newline then EmptyString :: split_lines r
      else match split_lines r with
           | piece :: pieces => String c piece :: pieces
           | [] => [String c EmptyString]
           end
  end.

(** A text without line separator. *)
Fixpoint no_newline (s : string) : bool :=
  match s with
  | EmptyString => true
  | String c r => negb (Ascii.eqb c newline) && no_newline r
  end.

(** The text of a stream of complete lines: each line, then a separator. *)
Fixpoint stream_of (lines : list string) : string :=
  match lines with
  | [] => EmptyString
  | l :: more => l ++ nl ++ stream_of more
  end.

(** The chunks of a body, put end to end. *)
Fixpoint concat_chunks (chunks : list string) : string :=
  match chunks with
  | [] => EmptyString
  | c :: more => c ++ concat_chunks more
  end.

(** A chunk that starts with the line separator is the separator alone. *)
Definition separator_alone (chunk : string) : bool :=
  match chunk with
  | String c rest =>
      if Ascii.eqb c newline then
        match rest with EmptyString => true | String _ _ => false end
      else true
  | EmptyString => true
  end.

(** The proper prefixes of a text, the empty one first. *)
Fixpoint proper_prefixes (s : string) : list string :=
  match s with
  | EmptyString => []
  | String c r => EmptyString :: map (String c) (proper_prefixes r)
  end.

(** ** A state and error monad for the synchronous code

    A computation runs on a state, may throw, and keeps the changes it made
    to the state before it threw. *)

Definition M (St A : Type) : Type := St -> (js_error + A) * St.

Definition ret {St A} (a : A) : M St A := fun st => (inr a, st).
Definition throw {St A} (e : js_error) : M St A := fun st => (inl e, st).
Definition bind {St A B} (m : M St A) (k : A -> M St B) : M St B :=
  fun st => match m st with
            | (inr a, st') => k a st'
            | (inl e, st') => (inl e, st')
            end.
Definition lift {St A} (r : js_error + A) : M St A := fun st => (r, st).
Definition modify {St} (f : St -> St) : M St unit := fun st => (inr tt, f st).

(** [try { body } catch (error) { handler }] *)
Definition try_catch {St A} (body : M St A) (handler : js_error -> M St A) : M St A :=
  fun st => match body st with
            | (inr a, st') => (inr a, st')
            | (inl e, st') => handler e st'
            end.

(** [try { body } finally { finalizer }]: the finalizer runs on every way
    out of the body; the body's completion stands unless the finalizer
    throws. *)
Definition try_finally {St A} (body : M St A) (finalizer : M St unit) : M St A :=
  fun st => match body st with
            | (r, st') =>
                match finalizer st' with
                | (inr _, st'') => (r, st'')
                | (inl e, st'') => (inl e, st'')
                end
            end.

#[global] Instance M_ret {St} : MRet (M St) := fun A => @ret St A.
#[global] Instance M_bind {St} : MBind (M St) := fun A B k m => bind m k.

(** ** The event dispatcher *)

Section Dispatcher.
Context {Api Store : Type} `{Countable Api}.

(** The collaborators of the dispatcher that live outside the client: the
    registry of kind handlers ([apiManager]) and the construction of a
    self link ([createKubeApiURL]). *)
Record ApiManager : Type := {
  getApiByKind : jsval -> jsval -> option Api;
  getStore : Api -> option Store;
  createKubeApiURL : Api -> jsval -> string
}.

(** [IKubeWatchMessage]: every field is optional. *)
Record IKubeWatchMessage : Type := {
  msg_data : jsval;
  msg_error : jsval;
  msg_api : option Api;
  msg_store : option Store
}.

Definition empty_message : IKubeWatchMessage :=
  {| msg_data := None; msg_error := None; msg_api := None; msg_store := None |}.

(** [IKubeWatchReconnectOptions] *)
Record IKubeWatchReconnectOptions : Type := {
  reconnectAttempts : Z;
  timeout : N
}.

(** What the dispatcher reads and writes: the resumption table kept by the
    kind handlers, the messages handed to the [onMessage] listeners (oldest
    first) and the calls of [onServerStreamEnd] it has started. *)
Record Dispatcher : Type := {
  resourceVersions : gmap (Api * string) jsval;
  emitted : list IKubeWatchMessage;
  streamEnds : list (json * IKubeWatchReconnectOptions)
}.

Definition dispatcher_init : Dispatcher :=
  {| resourceVersions := ∅; emitted := []; streamEnds := [] |}.

(** Modelled from the spec: the key of the resumption table is (kind
    handler, namespace-or-empty); [KubeApi.setResourceVersion] is not among
    the sources. A namespace that is absent, or is not a string, is filed
    under the empty namespace. *)
Definition namespace_key (namespace : jsval) : string :=
  match namespace with
  | Some (JStr ns) => ns
  | _ => EmptyString
  end.

(** Modelled from the spec: [api.setResourceVersion(namespace, version)]
    records the version as the last one seen for (handler, namespace). *)
Definition setResourceVersion (api : Api) (namespace newVersion : jsval)
  (d : Dispatcher) : Dispatcher :=
  {| resourceVersions := <[(api, namespace_key namespace) := newVersion]> (resourceVersions d);
     emitted := emitted d;
     streamEnds := streamEnds d |}.

(** Modelled from the spec: [ensureObjectSelfLink(api, object)] of
    [kube-api] is not among the sources; it normalizes the object's self
    link if absent, and changes nothing else. The object is changed in
    place: the result is the object after the call. *)
Definition ensureObjectSelfLink (am : ApiManager) (api : Api) (object : jsval) : jsval :=
  match object with
  | Some (JObj kvs) =>
      match member "metadata" kvs with
      | Some (JObj md) =>
          match member "selfLink" md with
          | Some _ => object
          | None =>
              Some (JObj (set_member "metadata"
                            (JObj (set_member "selfLink"
                                     (JStr (createKubeApiURL am api object)) md)) kvs))
          end
      | _ => object
      end
  | _ => object
  end.

(** [v === s] for a string literal [s]. *)
Definition is_string (v : jsval) (s : string) : bool :=
  match v with
  | Some (JStr s') => String.eqb s' s
  | _ => false
  end.

(** Modelled from the spec: [this.onMessage.emit(message)]; the
    [EventEmitter] of [utils] is not among the sources. The listeners
    receive the message, in dispatch order; they are outside the client and
    are taken not to throw. *)
Definition emit (message : IKubeWatchMessage) : M Dispatcher unit :=
  modify (fun d => {| resourceVersions := resourceVersions d;
                      emitted := emitted d ++ [message];
                      streamEnds := streamEnds d |}).

(** The synchronous effect of calling the asynchronous
    [onServerStreamEnd(event, opts)]: the call is started and runs later. *)
Definition start_onServerStreamEnd (event : json) (opts : IKubeWatchReconnectOptions)
  : M Dispatcher unit :=
  modify (fun d => {| resourceVersions := resourceVersions d;
                      emitted := emitted d;
                      streamEnds := streamEnds d ++ [(event, opts)] |}).

(** [getMessage(event)] *)
Definition getMessage (am : ApiManager) (event : json) : M Dispatcher IKubeWatchMessage :=
  type ← lift (prop (Some event) "type");
  if is_string type "ADDED" || is_string type "DELETED" || is_string type "MODIFIED" then
    object ← lift (prop (Some event) "object");
    kind ← lift (prop object "kind");
    apiVersion ← lift (prop object "apiVersion");
    match getApiByKind am kind apiVersion with
    | Some api =>
        let object' := ensureObjectSelfLink am api object in
        let data :=
          match event, object' with
          | JObj kvs, Some o => JObj (set_member "object" o kvs)
          | _, _ => event
          end in
        metadata ← lift (prop object' "metadata");
        namespace ← lift (prop metadata "namespace");
        resourceVersion ← lift (prop metadata "resourceVersion");
        modify (setResourceVersion api namespace resourceVersion);;
        modify (setResourceVersion api (Some (JStr EmptyString)) resourceVersion);;
        mret {| msg_data := Some data; msg_error := None;
                msg_api := Some api; msg_store := getStore am api |}
    | None =>
        mret {| msg_data := Some event; msg_error := None;
                msg_api := None; msg_store := None |}
    end
  else if is_string type "ERROR" then
    mret {| msg_data := None; msg_error := Some event;
            msg_api := None; msg_store := None |}
  else if is_string type "STREAM_END" then
    start_onServerStreamEnd event {| reconnectAttempts := 5; timeout := 1000 |};;
    mret empty_message
  else mret empty_message.

(** [JSON.parse] is a parameter of the stream parser; [None] is its
    [SyntaxError]. *)
Variable JSON_parse : string -> option json.

Definition parse_line (text : string) : M Dispatcher json :=
  match JSON_parse text with
  | Some v => mret v
  | None => throw SyntaxError
  end.

(** The body of the [try] in [processBuffer], for one line. *)
Definition process_line (am : ApiManager) (text : string) : M Dispatcher unit :=
  kubeEvent ← parse_line text;
  message ← getMessage am kubeEvent;
  emit message.

(** [processBuffer(events)]: the unprocessed chunk it returns, and the
    dispatcher after it. It never throws. *)
Fixpoint processBuffer (am : ApiManager) (events : list string) (d : Dispatcher)
  : string * Dispatcher :=
  match events with
  | [] => (EmptyString, d)
  | text :: rest =>
      match process_line am text d with
      | (inr _, d') => processBuffer am rest d'
      | (inl _, d') => (text, d')
      end
  end.

(** One turn of the read loop of [connect] for a chunk [value]:
    [jsonBuffer = this.processBuffer((jsonBuffer + value).split("\n"))]. *)
Definition read_turn (am : ApiManager) (jsonBuffer value : string) (d : Dispatcher)
  : string * Dispatcher :=
  processBuffer am (split_lines (jsonBuffer ++ value)) d.

(** The read loop on the chunks of a whole response body. *)
Fixpoint read_loop (am : ApiManager) (chunks : list string) (jsonBuffer : string)
  (d : Dispatcher) : string * Dispatcher :=
  match chunks with
  | [] => (jsonBuffer, d)
  | value :: more =>
      let '(jsonBuffer', d') := read_turn am jsonBuffer value d in
      read_loop am more jsonBuffer' d'
  end.

(** *** Vocabulary for the properties of the dispatcher *)

(** The dispatcher after the whole lines [lines], each handled by the body
    of the [try] of [processBuffer]. *)
Definition dispatch_lines (am : ApiManager) (lines : list string) (d : Dispatcher)
  : Dispatcher :=
  fold_left (fun d text => snd (process_line am text d)) lines d.

(** A line that parses and for which [getMessage] does not throw. *)
Definition accepted (am : ApiManager) (text : string) : bool :=
  match JSON_parse text with
  | Some event =>
      match fst (getMessage am event dispatcher_init) with
      | inr _ => true
      | inl _ => false
      end
  | None => false
  end.

(** No proper prefix of the line parses. *)
Definition prefix_free (text : string) : bool :=
  forallb (fun p => match JSON_parse p with Some _ => false | None => true end)
          (proper_prefixes text).

(** A complete line of a well-behaved stream: no separator inside, it
    is dispatched without a throw, and nothing shorter parses. *)
Definition well_formed_line (am : ApiManager) (text : string) : bool :=
  no_newline text && accepted am text && prefix_free text.

(** [v.k], with [undefined] where the code would have thrown. *)
Definition field (v : jsval) (k : string) : jsval :=
  match prop v k with
  | inr x => x
  | inl _ => None
  end.

(** What a dispatched message says about the resumption table: for a
    message with a handler, the handler, the namespace and the resource
    version of the object it carries. *)
Definition message_version (m : IKubeWatchMessage) : option (Api * string * jsval) :=
  match msg_api m with
  | Some api =>
      let metadata := field (field (msg_data m) "object") "metadata" in
      Some (api, namespace_key (field metadata "namespace"),
            field metadata "resourceVersion")
  | None => None
  end.

(** The resource version of the most recent message of [messages] (oldest
    first) for the handler [api] and the namespace [ns]; under the empty
    namespace, of the most recent message for [api] in any namespace. *)
Definition last_version (api : Api) (ns : string) (messages : list IKubeWatchMessage)
  : option jsval :=
  fold_left (fun acc m =>
               match message_version m with
               | Some (a, n, v) =>
                   if decide (a = api /\ (ns = EmptyString \/ n = ns)) then Some v else acc
               | None => acc
               end)
            messages None.

(** What the resumption table says after a run, given what it said before
    and the messages dispatched in between: every entry is the version of
    the last of these messages for it, or is as before when there is
    none. *)
Definition table_follows (d d' : Dispatcher) : Prop :=
  exists new : list IKubeWatchMessage,
    emitted d' = (emitted d ++ new)%list /\
    forall (api : Api) (ns : string),
      resourceVersions d' !! (api, ns)
      = match last_version api ns new with
        | Some v => Some v
        | None => resourceVersions d !! (api, ns)
        end.

(** The type of an event is none of those with a case in the [switch],
    save [STREAM_END]. *)
Definition no_case_but_stream_end (event : json) : bool :=
  let type := field (Some event) "type" in
  negb (is_string type "ADDED" || is_string type "DELETED"
        || is_string type "MODIFIED" || is_string type "ERROR").

End Dispatcher.

(** ** Logging *)

(** [isProduction] and [isDebugging] of [common/vars]. *)
Record Vars : Type := { isProduction : bool; isDebugging : bool }.

(** The [message] of an [IKubeWatchLog]: a text or an [Error]. *)
Inductive LogMessage : Type :=
| LogText (text : string)
| LogError (error : js_error).

Inductive ConsoleLevel : Type := ConsoleError | ConsoleInfo.

(** The calls of [this.log] (oldest first) and the lines they wrote on the
    console. *)
Record Logger : Type := {
  log_calls : list LogMessage;
  console : list (ConsoleLevel * LogMessage)
}.

Definition logger_init : Logger := {| log_calls := []; console := [] |}.

(** [log({ message, meta })]: silent in production unless debugging; an
    [Error] goes to [console.error], a text to [console.info]. The [meta]
    object and the time only decorate the line. *)
Definition log (vars : Vars) (message : LogMessage) (lg : Logger) : Logger :=
  {| log_calls := log_calls lg ++ [message];
     console :=
       if isProduction vars && negb (isDebugging vars) then console lg
       else
         let isError := match message with LogError _ => true | LogText _ => false end in
         console lg ++ [(if isError then ConsoleError else ConsoleInfo, message)] |}.

(** ** The subscription registry *)

Section Registry.
Context {Api : Type} `{EqDecision Api}.

(** [observable.map<KubeApi, number>]: a JavaScript [Map], which keeps its
    keys in insertion order; the keys are object references. *)
Definition Subscribers : Type := list (Api * Z).

Fixpoint map_get (api : Api) (m : Subscribers) : option Z :=
  match m with
  | [] => None
  | (k, v) :: rest => if decide (k = api) then Some v else map_get api rest
  end.

(** [m.set(api, v)]: an existing key keeps its place. *)
Fixpoint map_set (api : Api) (v : Z) (m : Subscribers) : Subscribers :=
  match m with
  | [] => [(api, v)]
  | (k, v') :: rest =>
      if decide (k = api) then (k, v) :: rest else (k, v') :: map_set api v rest
  end.

Fixpoint map_delete (api : Api) (m : Subscribers) : Subscribers :=
  match m with
  | [] => []
  | (k, v) :: rest =>
      if decide (k = api) then map_delete api rest else (k, v) :: map_delete api rest
  end.

(** [this.subscribers.get(api) || 0] *)
Definition getSubscribersCount (api : Api) (m : Subscribers) : Z :=
  match map_get api m with
  | Some count => if (count =? 0)%Z then 0%Z else count
  | None => 0%Z
  end.

(** The disposer that [subscribeApi] returns: it runs on the registry as it
    is when the disposer is called. *)
Definition subscribeApi_disposer (apis : list Api) (m : Subscribers) : Subscribers :=
  fold_left (fun m api =>
               let count := (getSubscribersCount api m - 1)%Z in
               if (count <=? 0)%Z then map_delete api m else map_set api count m)
            apis m.

(** [subscribeApi(api)]: [api] is one target or a list of targets, here a
    list. The result is the registry after the call and the disposer. *)
Definition subscribeApi (apis : list Api) (m : Subscribers)
  : Subscribers * (Subscribers -> Subscribers) :=
  (fold_left (fun m api => map_set api (getSubscribersCount api m + 1)%Z m) apis m,
   subscribeApi_disposer apis).

(** How many times a target is listed in one call of [subscribeApi]. *)
Fixpoint times_listed (api : Api) (apis : list Api) : Z :=
  match apis with
  | [] => 0%Z
  | a :: rest => ((if decide (a = api) then 1 else 0) + times_listed api rest)%Z
  end.

(** One turn of the [forEach] of the disposer. *)
Definition dispose_one (m : Subscribers) (api : Api) : Subscribers :=
  let count := (getSubscribersCount api m - 1)%Z in
  if (count <=? 0)%Z then map_delete api m else map_set api count m.


(** What the client needs of a [KubeApi]. *)
Record KubeApiOps : Type := {
  kind : Api -> string;
  isNamespaced : Api -> bool;
  getWatchUrl : Api -> option string -> string
}.

(** The observable fields behind [apis]: the subscribers, the cluster
    getter (its [isAllowedResource]; [None] while it is not set up) and the
    watched namespaces. *)
Record Watcher : Type := {
  subscribers : Subscribers;
  getCluster : option (string -> bool);
  getNamespaces : list string
}.

(** [get apis()] *)
Definition apis (ops : KubeApiOps) (w : Watcher) : list string :=
  flat_map (fun '(api, _) =>
              match getCluster w with
              | Some isAllowedResource =>
                  if negb (isAllowedResource (kind ops api)) then []
                  else if isNamespaced ops api
                       then map (fun namespace => getWatchUrl ops api (Some namespace))
                                (getNamespaces w)
                       else [getWatchUrl ops api None]
              | None => []
              end)
           (subscribers w).

(** [get isActive()] *)
Definition isActive (ops : KubeApiOps) (w : Watcher) : bool :=
  (0 <? length (apis ops w))%nat.

End Registry.

(** ** Reconnection after the end of one target's stream *)

Section StreamEnd.
Context {Api : Type} `{EqDecision Api}.

(** What one invocation of [onServerStreamEnd] meets: the handler that
    [apiManager.getApi(apiBase)] finds, the completion of
    [api.refreshResourceVersion] and the time it takes (ms), the registry
    when the failure is handled, and by how long the timer of the retry
    fires after its delay (ms). *)
Record StreamEndEnv : Type := {
  se_api : option Api;
  se_refresh : js_error + unit;
  se_duration : N;
  se_watcher : @Watcher Api;
  se_late : N
}.

(** What the invocations for one event did: the times (ms) at which
    [refreshResourceVersion] and [connect] were called, oldest first, and
    the log. *)
Record StreamEndRun : Type := {
  refreshes : list N;
  connects : list N;
  se_logger : Logger
}.

Definition stream_end_init : StreamEndRun :=
  {| refreshes := []; connects := []; se_logger := logger_init |}.

Definition error_text (e : js_error) : string :=
  match e with
  | SyntaxError => "SyntaxError"
  | TypeError => "TypeError"
  | JsError message => "Error: " ++ message
  end.

(** [onServerStreamEnd(event, opts)] invoked at time [now], and the
    invocations that its timer starts; [n] counts the invocations and
    [env n] is what the [n]-th one meets. [opts] is one object shared by
    all of them: it is passed on as the code left it. [None]: out of
    fuel. *)
Fixpoint onServerStreamEnd (fuel : nat) (vars : Vars) (ops : @KubeApiOps Api)
  (env : nat -> StreamEndEnv) (n : nat) (now : N) (opts : IKubeWatchReconnectOptions)
  (run : StreamEndRun) : option ((js_error + unit) * StreamEndRun) :=
  match fuel with
  | O => None
  | S fuel =>
      let e := env n in
      match se_api e with
      | None => Some (inr tt, run)
      | Some api =>
          let run := {| refreshes := refreshes run ++ [now];
                        connects := connects run;
                        se_logger := se_logger run |} in
          let settled := (now + se_duration e)%N in
          match se_refresh e with
          | inr _ =>
              Some (inr tt, {| refreshes := refreshes run;
                               connects := connects run ++ [settled];
                               se_logger := se_logger run |})
          | inl error =>
              let run := {| refreshes := refreshes run;
                            connects := connects run;
                            se_logger :=
                              log vars (LogError (JsError
                                ("Failed to connect on single stream end: "
                                 ++ error_text error))) (se_logger run) |} in
              if isActive ops (se_watcher e) && (0 <? reconnectAttempts opts)%Z then
                let opts := {| reconnectAttempts := reconnectAttempts opts - 1;
                               timeout := timeout opts |} in
                onServerStreamEnd fuel vars ops env (S n)
                  (settled + timeout opts + se_late e)%N opts run
              else Some (inr tt, run)
          end
      end
  end.

(** The options that [getMessage] passes for a [STREAM_END] event. *)
Definition stream_end_options : IKubeWatchReconnectOptions :=
  {| reconnectAttempts := 5; timeout := 1000 |}.

(** Times (ms) of which the first is not before [start] and each next one
    is at least [gap] after the one before. *)
Fixpoint spaced_from (gap start : N) (times : list N) : Prop :=
  match times with
  | [] => True
  | t :: later => (start <= t)%N /\ spaced_from gap (t + gap)%N later
  end.

(** From its [n]-th invocation to its [k]-th, the handler is found, the
    refresh fails and the registry is active. *)
Definition keeps_failing (ops : @KubeApiOps Api) (env : nat -> StreamEndEnv)
  (n k : nat) : Prop :=
  forall j, n <= j -> j <= k ->
    is_Some (se_api (env j)) /\
    (exists error, se_refresh (env j) = inl error) /\
    isActive ops (se_watcher (env j)) = true.

End StreamEnd.

(** ** Subscribing stores *)

Section Stores.
Context {Store : Type} `{EqDecision Store}.

(** [IKubeWatchSubscribeStoreOptions], after the defaults. *)
Record StoreOptions : Type := { preload : bool; waitUntilLoaded : bool }.

Definition default_options : StoreOptions :=
  {| preload := true; waitUntilLoaded := true |}.

(** Where the asynchronous part of one [subscribeStores] call stands:
    waiting for [Promise.all(loading)], waiting inside [subscribe()] for the
    disposers of the stores, or with nothing left to run. *)
Inductive StoresPhase : Type :=
| AwaitLoading
| AwaitSubscribe (unsubscribeList : list Store)
| StoresSettled.

(** The variables of one call ([isDisposed], [disposers], [loading]), its
    phase, the store subscriptions in force (one entry for each
    [store.subscribe()] not yet disposed) and the log. A disposer is
    named by the store whose subscription it ends; a [loadAll] by its
    store. [loaded] tells that [Promise.all(loading)] has settled. *)
Record StoresState : Type := {
  isDisposed : bool;
  disposers : list Store;
  loading : list Store;
  loaded : bool;
  phase : StoresPhase;
  subscribed : list Store;
  st_logger : Logger
}.

Fixpoint remove_one (s : Store) (l : list Store) : list Store :=
  match l with
  | [] => []
  | x :: rest => if decide (x = s) then rest else x :: remove_one s rest
  end.

(** [unsubscribe()] *)
Definition unsubscribe (st : StoresState) : StoresState :=
  {| isDisposed := true;
     disposers := [];
     loading := loading st; loaded := loaded st;
     phase := phase st;
     subscribed := fold_left (fun l dispose => remove_one dispose l)
                             (disposers st) (subscribed st);
     st_logger := st_logger st |}.

(** [subscribe()] up to its [await]: every [store.subscribe()] is called.
    The stores are outside the client: their [subscribe()] is taken to give
    a disposer, and a disposer to end the one subscription it was given
    for. *)
Definition subscribe_begin (stores : list Store) (st : StoresState) : StoresState :=
  if isDisposed st then
    {| isDisposed := isDisposed st; disposers := disposers st;
       loading := loading st; loaded := loaded st;
       phase := StoresSettled; subscribed := subscribed st; st_logger := st_logger st |}
  else
    {| isDisposed := isDisposed st; disposers := disposers st;
       loading := loading st; loaded := loaded st;
       phase := AwaitSubscribe stores;
       subscribed := subscribed st ++ stores; st_logger := st_logger st |}.

(** [subscribe()] after its [await]. *)
Definition subscribe_resume (unsubscribeList : list Store) (st : StoresState)
  : StoresState :=
  let st' := {| isDisposed := isDisposed st;
                disposers := disposers st ++ unsubscribeList;
                loading := loading st; loaded := loaded st;
                phase := StoresSettled;
                subscribed := subscribed st; st_logger := st_logger st |} in
  if isDisposed st' then unsubscribe st' else st'.

(** [Promise.all]: the first failure, or all the results. *)
Fixpoint Promise_all {A} (results : list (js_error + A)) : js_error + list A :=
  match results with
  | [] => inr []
  | inl e :: _ => inl e
  | inr a :: rest =>
      match Promise_all rest with
      | inl e => inl e
      | inr l => inr (a :: l)
      end
  end.

(** [subscribeStores(stores, options)] up to its [return unsubscribe]. With
    [waitUntilLoaded] the two callbacks wait for [Promise.all(loading)];
    without it [subscribe()] is called at once and nothing waits for the
    preloads. *)
Definition subscribeStores (stores : list Store) (options : StoreOptions) : StoresState :=
  let st := {| isDisposed := false; disposers := [];
               loading := if preload options then stores else [];
               loaded := false;
               phase := if waitUntilLoaded options then AwaitLoading else StoresSettled;
               subscribed := []; st_logger := logger_init |} in
  if waitUntilLoaded options then st else subscribe_begin stores st.

(** What can happen after the call: the preloads have settled (one
    completion for each [loadAll]), [subscribe()] is resumed, or the caller
    invokes the returned [unsubscribe]. *)
Inductive StoresLabel : Type :=
| LoadingSettled (results : list (js_error + unit))
| SubscribeResumed
| Unsubscribe.

(** [new Error("Loading stores has failed")] *)
Definition loading_failed : LogMessage :=
  LogError (JsError "Loading stores has failed").

Definition set_loaded (st : StoresState) : StoresState :=
  {| isDisposed := isDisposed st; disposers := disposers st;
     loading := loading st; loaded := true;
     phase := phase st; subscribed := subscribed st; st_logger := st_logger st |}.

Definition stores_step (vars : Vars) (stores : list Store) (st : StoresState)
  (l : StoresLabel) : option StoresState :=
  match l with
  | LoadingSettled results =>
      if loaded st then None
      else if decide (length results = length (loading st)) then
        match phase st with
        | AwaitLoading =>
            match Promise_all results with
            | inr _ => Some (subscribe_begin stores (set_loaded st))
            | inl error =>
                Some {| isDisposed := isDisposed st; disposers := disposers st;
                        loading := loading st; loaded := true;
                        phase := StoresSettled;
                        subscribed := subscribed st;
                        st_logger := log vars loading_failed (st_logger st) |}
            end
        | _ => Some (set_loaded st)
        end
      else None
  | SubscribeResumed =>
      match phase st with
      | AwaitSubscribe unsubscribeList => Some (subscribe_resume unsubscribeList st)
      | _ => None
      end
  | Unsubscribe => Some (unsubscribe st)
  end.

Fixpoint stores_run (vars : Vars) (stores : list Store) (st : StoresState)
  (ls : list StoresLabel) : option StoresState :=
  match ls with
  | [] => Some st
  | l :: more =>
      match stores_step vars stores st l with
      | Some st' => stores_run vars stores st' more
      | None => None
      end
  end.

(** The disposers that the [await] in [subscribe()] has yet to deliver. *)
Definition pending (p : StoresPhase) : list Store :=
  match p with
  | AwaitSubscribe unsubscribeList => unsubscribeList
  | _ => []
  end.

(** The subscriptions in force are those whose disposers the call holds
    or is about to receive; after [unsubscribe()] it holds none. *)
Definition stores_inv (st : StoresState) : Prop :=
  subscribed st = (disposers st ++ pending (phase st))%list /\
  (isDisposed st = true -> disposers st = []).

(** With [waitUntilLoaded]: until the preloads settle nothing is
    subscribed; if they fail the failure goes to the log and nothing is
    subscribed afterwards either. *)
Definition waiting (st : StoresState) : Prop :=
  loaded st = false /\ phase st = AwaitLoading /\ subscribed st = [] /\ disposers st = [].

Definition given_up (st : StoresState) : Prop :=
  loaded st = true /\ phase st = StoresSettled /\ subscribed st = [] /\
  disposers st = [] /\ In loading_failed (log_calls (st_logger st)).

End Stores.

(** ** The connection manager *)

Section Connection.
Context {Api Store : Type} `{Countable Api}.

(** Where one call of [connect] stands: waiting for [fetch] or for
    [reader.read()], with its local [requestId] and [jsonBuffer], or
    settled with the completion of its promise. *)
Inductive CallState : Type :=
| AwaitFetch (requestId : Z)
| AwaitRead (requestId : Z) (jsonBuffer : string)
| Settled (completion : js_error + unit).

(** The fields of the client ([requestId], [reader], [isConnected]), what
    the dispatcher reads and writes, the log, and the calls of [connect]
    made so far, in call order. A reader is named by the call that made
    it. Three records of what happened: the readers cancelled, the requests
    aborted, and for every message handed to the listeners the call whose
    response body it came from. *)
Record Conn : Type := {
  requestId : Z;
  reader : option nat;
  isConnected : bool;
  dispatcher : @Dispatcher Api Store _ _;
  logger : Logger;
  calls : list CallState;
  cancelled : list nat;
  aborted : list nat;
  dispatched : list (nat * @IKubeWatchMessage Api Store)
}.

Definition conn_init : Conn :=
  {| requestId := 0; reader := None; isConnected := false;
     dispatcher := dispatcher_init; logger := logger_init;
     calls := []; cancelled := []; aborted := []; dispatched := [] |}.

Definition set_isConnected (b : bool) : M Conn unit :=
  modify (fun c => {| requestId := requestId c; reader := reader c; isConnected := b;
                      dispatcher := dispatcher c; logger := logger c; calls := calls c;
                      cancelled := cancelled c; aborted := aborted c;
                      dispatched := dispatched c |}).

Definition set_reader (r : option nat) : M Conn unit :=
  modify (fun c => {| requestId := requestId c; reader := r; isConnected := isConnected c;
                      dispatcher := dispatcher c; logger := logger c; calls := calls c;
                      cancelled := cancelled c; aborted := aborted c;
                      dispatched := dispatched c |}).

(** [this.reader?.cancel()] *)
Definition cancel_reader : M Conn unit :=
  modify (fun c => {| requestId := requestId c; reader := reader c;
                      isConnected := isConnected c;
                      dispatcher := dispatcher c; logger := logger c; calls := calls c;
                      cancelled := match reader c with
                                   | Some r => cancelled c ++ [r]
                                   | None => cancelled c
                                   end;
                      aborted := aborted c; dispatched := dispatched c |}).

(** [abortController.abort()] of call [i]. *)
Definition abort (i : nat) : M Conn unit :=
  modify (fun c => {| requestId := requestId c; reader := reader c;
                      isConnected := isConnected c;
                      dispatcher := dispatcher c; logger := logger c; calls := calls c;
                      cancelled := cancelled c; aborted := aborted c ++ [i];
                      dispatched := dispatched c |}).

(** [++this.requestId] *)
Definition next_requestId : M Conn Z :=
  fun c => (inr (requestId c + 1)%Z,
            {| requestId := requestId c + 1; reader := reader c;
               isConnected := isConnected c;
               dispatcher := dispatcher c; logger := logger c; calls := calls c;
               cancelled := cancelled c; aborted := aborted c;
               dispatched := dispatched c |}).

Definition this_requestId : M Conn Z := fun c => (inr (requestId c), c).

Definition this_log (vars : Vars) (message : LogMessage) : M Conn unit :=
  modify (fun c => {| requestId := requestId c; reader := reader c;
                      isConnected := isConnected c;
                      dispatcher := dispatcher c; logger := log vars message (logger c);
                      calls := calls c;
                      cancelled := cancelled c; aborted := aborted c;
                      dispatched := dispatched c |}).

Definition set_call (i : nat) (s : CallState) (c : Conn) : Conn :=
  {| requestId := requestId c; reader := reader c; isConnected := isConnected c;
     dispatcher := dispatcher c; logger := logger c;
     calls := if decide (i < length (calls c)) then <[i := s]> (calls c)
              else calls c ++ [s];
     cancelled := cancelled c; aborted := aborted c; dispatched := dispatched c |}.

(** [this.processBuffer(events)] run by call [i]: the messages it hands to
    the listeners are recorded as coming from [i]. *)
Definition this_processBuffer (am : @ApiManager Api Store)
  (JSON_parse : string -> option json) (i : nat) (events : list string)
  : M Conn string :=
  fun c =>
    let '(rest, d) := processBuffer JSON_parse am events (dispatcher c) in
    (inr rest,
     {| requestId := requestId c; reader := reader c; isConnected := isConnected c;
        dispatcher := d; logger := logger c; calls := calls c;
        cancelled := cancelled c; aborted := aborted c;
        dispatched := dispatched c
                      ++ map (fun m => (i, m))
                             (drop (length (emitted (dispatcher c))) (emitted d)) |}).

(** [disconnect()] *)
Definition disconnect : M Conn unit :=
  cancel_reader;;
  set_reader None;;
  set_isConnected false.

(** *** Vocabulary for the properties of the connection manager *)

(** A call that is past its [fetch]. *)
Definition not_fetching (s : CallState) : Prop := forall rid, s <> AwaitFetch rid.

(** In every state that the client reaches, a message recorded for a call
    was read by that call after its [fetch]. *)
Definition dispatched_after_fetch (c : Conn) : Prop :=
  forall k (m : IKubeWatchMessage), In (k, m) (dispatched c) ->
    exists s, calls c !! k = Some s /\ not_fetching s.

Variable vars : Vars.
Variable am : @ApiManager Api Store.
Variable JSON_parse : string -> option json.

(** The [catch] and the [finally] of [connect]. *)
Definition connect_catch (error : js_error) : M Conn unit :=
  this_log vars (LogError error).

Definition connect_finally : M Conn unit := set_isConnected false.

(** A part of the [try] block of call [i], from one [await] to the next:
    it ends at an [await] ([Some] of the state to wait in), leaves the
    block ([None]) or throws. Leaving or throwing goes through the
    [catch] and the [finally], and settles the promise of the call. *)
Definition in_try (i : nat) (part : M Conn (option CallState)) (c : Conn) : Conn :=
  match part c with
  | (inr (Some waiting), c') => set_call i waiting c'
  | (completion, c') =>
      let '(settled, c'') :=
        try_finally
          (try_catch (lift (sum_map id (fun _ => tt) completion))
                     (fun error => connect_catch error))
          connect_finally c' in
      set_call i (Settled settled) c''
  end.

(** [connect(apis)] up to its first [await]; [onLine] is
    [navigator.onLine]. The call is number [length (calls c)]. *)
Definition connect (onLine : bool) (apis : list string) (c : Conn) : Conn :=
  let i := length (calls c) in
  let '(_, c1) := disconnect c in
  if negb onLine || (length apis =? 0)%nat then
    let '(_, c2) := set_isConnected false c1 in
    set_call i (Settled (inr tt)) c2
  else
    let '(_, c2) := this_log vars (LogText "Connecting") c1 in
    in_try i (requestId ← next_requestId; mret (Some (AwaitFetch requestId))) c2.

(** After [await fetch(...)] has given a response; [has_body] tells whether
    [request.body] is a stream or [null]. *)
Definition connect_fetched (i : nat) (requestId : Z) (has_body : bool)
  : M Conn (option CallState) :=
  current ← this_requestId;
  if negb (current =? requestId)%Z then
    abort i;;
    mret None
  else
    (if has_body then mret tt else throw TypeError);;
    set_isConnected true;;
    set_reader (Some i);;
    mret (Some (AwaitRead requestId EmptyString)).

(** After [await reader.read()] has given [{ done: false, value }]. *)
Definition connect_read (i : nat) (requestId : Z) (jsonBuffer value : string)
  : M Conn (option CallState) :=
  let events := split_lines (jsonBuffer ++ value) in
  jsonBuffer ← this_processBuffer am JSON_parse i events;
  mret (Some (AwaitRead requestId jsonBuffer)).

(** The points at which the client runs: a call of [connect] or of
    [disconnect], and the settling of what a call of [connect] waits
    for. *)
Inductive Label : Type :=
| CallConnect (onLine : bool) (apis : list string)
| CallDisconnect
| FetchResolved (i : nat) (has_body : bool)
| FetchRejected (i : nat) (error : js_error)
| ReadValue (i : nat) (value : string)
| ReadDone (i : nat)
| ReadRejected (i : nat) (error : js_error).

Definition step (c : Conn) (l : Label) : option Conn :=
  match l with
  | CallConnect onLine apis => Some (connect onLine apis c)
  | CallDisconnect => Some (snd (disconnect c))
  | FetchResolved i has_body =>
      match calls c !! i with
      | Some (AwaitFetch requestId) =>
          Some (in_try i (connect_fetched i requestId has_body) c)
      | _ => None
      end
  | FetchRejected i error =>
      match calls c !! i with
      | Some (AwaitFetch _) => Some (in_try i (throw error) c)
      | _ => None
      end
  | ReadValue i value =>
      match calls c !! i with
      | Some (AwaitRead requestId jsonBuffer) =>
          Some (in_try i (connect_read i requestId jsonBuffer value) c)
      | _ => None
      end
  | ReadDone i =>
      match calls c !! i with
      | Some (AwaitRead _ _) => Some (in_try i (mret None) c)
      | _ => None
      end
  | ReadRejected i error =>
      match calls c !! i with
      | Some (AwaitRead _ _) => Some (in_try i (throw error) c)
      | _ => None
      end
  end.

Fixpoint run (c : Conn) (ls : list Label) : option Conn :=
  match ls with
  | [] => Some c
  | l :: more =>
      match step c l with
      | Some c' => run c' more
      | None => None
      end
  end.

End Connection.

(** ** A sample instance, on which the definitions are evaluated

    Handlers and stores are named by strings; the only registered kind is
    [Pod]. The lines are those of the wire contract. *)

Definition sample_manager : @ApiManager string string :=
  {| getApiByKind := fun kind _ => if is_string kind "Pod" then Some "pods" else None;
     getStore := fun api => Some ("store:" ++ api);
     createKubeApiURL := fun api _ => "/api/v1/" ++ api |}.

(** A JSON text written with single quotes for its double quotes. *)
Fixpoint js (s : string) : string :=
  match s with
  | EmptyString => EmptyString
  | String c r => String (if (c =? "'")%char then quote else c) (js r)
  end.

Definition pod_added : string :=
  js "{'type':'ADDED','object':{'kind':'Pod','apiVersion':'v1','metadata':{'namespace':'default','resourceVersion':'10'}}}".

Definition stream_end : string :=
  js "{'type':'STREAM_END','url':'/api/v1/pods'}".

Definition error_event : string := js "{'type':'ERROR'}".

Definition sample_vars : Vars := {| isProduction := false; isDebugging := false |}.

(** A refresh that always fails, for a target that stays registered. *)
Definition failing_env : nat -> @StreamEndEnv string := fun _ =>
  {| se_api := Some "pods";
     se_refresh := inl (JsError "503");
     se_duration := 20;
     se_watcher := {| subscribers := [("pods", 1%Z)];
                      getCluster := Some (fun _ => true);
                      getNamespaces := ["default"] |};
     se_late := 3 |}.

Definition sample_ops : @KubeApiOps string :=
  {| kind := fun api => api;
     isNamespaced := fun _ => true;
     getWatchUrl := fun api namespace =>
       "/api/v1/" ++ match namespace with
                     | Some ns => "namespaces/" ++ ns ++ "/"
                     | None => EmptyString
                     end ++ api ++ "?watch=1" |}.

(** Two calls of [connect]; the second one connects and reads a line while
    the first still waits for its response. *)
Definition sample_trace : list Label :=
  [CallConnect true ["/api/v1/pods?watch=1"];
   CallConnect true ["/api/v1/pods?watch=1"];
   FetchResolved 1 true;
   ReadValue 1 (error_event ++ nl)].

(** ** The connection check *)

Section ConnectionCheck.
Context {Api Store : Type} `{Countable Api}.

(** [connectionCheck()]; [onLine] is [navigator.onLine] and [apis] the
    value of [this.apis] at the call. *)
Definition connectionCheck (vars : Vars) (onLine : bool) (apis : list string)
  (c : @Conn Api Store _ _) : @Conn Api Store _ _ :=
  let '(_, c1) := this_log vars (LogText "connection check") c in
  if isConnected c1 then c1 else connect vars onLine apis c1.

End ConnectionCheck.

(** ** Further vocabulary for the properties *)

(** *** The subscription registry *)

Section RegistryVocabulary.
Context {Api : Type} `{EqDecision Api}.

(** The registry as the code keeps it: one entry for a target, and a count
    of at least one in every entry. *)
Definition registry_ok (m : @Subscribers Api) : Prop :=
  NoDup (map fst m) /\ Forall (fun kv => (1 <= snd kv)%Z) m.

(** What a disposer does to one entry, from the number of times the
    disposer lists the key of the entry: an entry it does not list stays, an
    entry whose count it uses up goes, and else the count goes down. *)
Definition released_entry (apis : list Api) (kv : Api * Z) : list (Api * Z) :=
  let t := times_listed (fst kv) apis in
  if (t =? 0)%Z then [kv]
  else if (snd kv - t <=? 0)%Z then [] else [(fst kv, (snd kv - t)%Z)].

Definition released (apis : list Api) (m : @Subscribers Api) : @Subscribers Api :=
  flat_map (released_entry apis) m.

(** The calls that change the registry: [subscribeApi], and a disposer that
    an earlier [subscribeApi] has returned. *)
Inductive RegistryCall : Type :=
| CallSubscribeApi (apis : list Api)
| CallDisposer (apis : list Api).

Definition registry_call (m : @Subscribers Api) (call : RegistryCall) : @Subscribers Api :=
  match call with
  | CallSubscribeApi apis => fst (subscribeApi apis m)
  | CallDisposer apis => subscribeApi_disposer apis m
  end.

(** The registry of a client after some calls; it starts empty. *)
Definition registry_after (calls : list RegistryCall) : @Subscribers Api :=
  fold_left registry_call calls [].

(** A registered target that contributes a watch URL: its kind is allowed
    on the cluster and, if it is namespaced, a namespace is watched. *)
Definition contributes (ops : @KubeApiOps Api) (w : @Watcher Api) (api : Api) : Prop :=
  exists isAllowedResource,
    getCluster w = Some isAllowedResource /\
    isAllowedResource (kind ops api) = true /\
    (isNamespaced ops api = true -> getNamespaces w <> []).

End RegistryVocabulary.

(** *** The stream parser and the dispatcher *)

(** [pieces.join("\n")] *)
Fixpoint join_lines (pieces : list string) : string :=
  match pieces with
  | [] => EmptyString
  | [p] => p
  | p :: more => p ++ nl ++ join_lines more
  end.

(** [v == null]: [null] or [undefined]. *)
Definition nullish (v : jsval) : bool :=
  match v with
  | None | Some JNull => true
  | Some _ => false
  end.

(** An event of one of the three types that carry an object. *)
Definition data_event (event : json) : bool :=
  let type := field (Some event) "type" in
  is_string type "ADDED" || is_string type "DELETED" || is_string type "MODIFIED".

Section Raw.
Context {Api Store : Type}.


End Raw.

(** A call of [onServerStreamEnd] as [getMessage] starts it: for an event
    of type [STREAM_END], with five attempts left and a delay of one
    second. *)
Definition started_fresh (call : json * IKubeWatchReconnectOptions) : Prop :=
  is_string (field (Some (fst call)) "type") "STREAM_END" = true /\
  snd call = {| reconnectAttempts := 5; timeout := 1000 |}.

(** *** Reconnection after the end of one target's stream *)


(** *** Subscribing stores *)

Section StoresVocabulary.
Context {Store : Type} `{EqDecision Store}.

(** One call of [subscribeStores] holds all the disposers of its stores or
    none, and waits for all of them or for none. *)
Definition all_or_none (stores : list Store) (st : @StoresState Store) : Prop :=
  match phase st with
  | AwaitLoading => disposers st = []
  | AwaitSubscribe unsubscribeList => unsubscribeList = stores /\ disposers st = []
  | StoresSettled => disposers st = [] \/ disposers st = stores
  end.

End StoresVocabulary.

(** *** The connection manager *)

Section ConnectionVocabulary.
Context {Api Store : Type} `{Countable Api}.

(** The local [requestId] of a call that has not settled. *)
Definition call_id (s : @CallState) : option Z :=
  match s with
  | AwaitFetch requestId | AwaitRead requestId _ => Some requestId
  | Settled _ => None
  end.

(** The request ids of the calls that have not settled go up with the
    calls, and none is above [top]. *)
Definition ids_ok (l : list CallState) (top : Z) : Prop :=
  (forall i j si sj ri rj, i < j -> l !! i = Some si -> l !! j = Some sj ->
     call_id si = Some ri -> call_id sj = Some rj -> (ri < rj)%Z) /\
  (forall i s r, l !! i = Some s -> call_id s = Some r -> (0 < r <= top)%Z).

(** When [isConnected] is set, [this.reader] is the reader of a call that
    waits in its read loop and has not been cancelled; a call whose reader
    was cancelled, or is held, is past its [fetch]. *)
Definition connected_ok (c : @Conn Api Store _ _) : Prop :=
  (isConnected c = true ->
   exists j rid jsonBuffer, reader c = Some j /\
     calls c !! j = Some (AwaitRead rid jsonBuffer) /\ ~ In j (cancelled c)) /\
  (forall k, In k (cancelled c) -> exists s, calls c !! k = Some s /\ not_fetching s) /\
  (forall j, reader c = Some j -> exists s, calls c !! j = Some s /\ not_fetching s).

End ConnectionVocabulary.

(** The console line of a call of [this.log] outside production. *)
Definition console_line (message : LogMessage) : ConsoleLevel * LogMessage :=
  (match message with LogError _ => ConsoleError | LogText _ => ConsoleInfo end, message).

(** The console holds nothing in production without debugging, and else
    one line for every call of [this.log], in call order. *)
Definition console_ok (vars : Vars) (lg : Logger) : Prop :=
  console lg = if isProduction vars && negb (isDebugging vars) then []
               else map console_line (log_calls lg).

(** *** More of the sample instance *)

(** The event of the line [pod_added]. *)
Definition pod_added_event : json :=
  JObj [("type", JStr "ADDED");
        ("object", JObj [("kind", JStr "Pod"); ("apiVersion", JStr "v1");
                         ("metadata", JObj [("namespace", JStr "default");
                                            ("resourceVersion", JStr "10")])])].


(** A refresh that fails twice and then succeeds. *)
Definition recovering_env : nat -> @StreamEndEnv string := fun n =>
  {| se_api := Some "pods";
     se_refresh := if (n <? 2)%nat then inl (JsError "503") else inr tt;
     se_duration := 20;
     se_watcher := {| subscribers := [("pods", 1%Z)];
                      getCluster := Some (fun _ => true);
                      getNamespaces := ["default"] |};
     se_late := 3 |}.

(** * Properties *)

(** ** The reader of JSON texts, on samples *)

Example json_of_text_event :
  json_of_text (js "{'type':'STREAM_END', 'url' : '/api/v1/pods','n':[1,-2.5e3,true,null]}")
  = Some (JObj [("type", JStr "STREAM_END"); ("url", JStr "/api/v1/pods");
                ("n", JArr [JNum "1"; JNum "-2.5e3"; JBool true; JNull])]).
Proof. vm_compute. reflexivity. Qed.

Example json_of_text_partial : json_of_text (js "{'type':'ERR") = None.
Proof. vm_compute. reflexivity. Qed.

Example json_of_text_empty : json_of_text EmptyString = None.
Proof. reflexivity. Qed.

Example json_of_text_null : json_of_text " null " = Some JNull.
Proof. reflexivity. Qed.

(** ** Strings *)

Lemma append_cons (c : ascii) (a b : string) :
  (String c a ++ b)%string = String c (a ++ b)%string.
Proof. reflexivity. Qed.

Lemma append_empty_l (a : string) : (EmptyString ++ a)%string = a.
Proof. reflexivity. Qed.

Lemma append_empty_r (a : string) : (a ++ EmptyString)%string = a.
Proof. induction a as [|c a IH]; [reflexivity|]. rewrite append_cons, IH. reflexivity. Qed.

Lemma append_assoc (a b c : string) :
  ((a ++ b) ++ c)%string = (a ++ (b ++ c))%string.
Proof.
  induction a as [|x a IH]; [reflexivity|].
  rewrite !append_cons, IH. reflexivity.
Qed.

Lemma append_eq_empty (a b : string) :
  (a ++ b)%string = EmptyString -> a = EmptyString /\ b = EmptyString.
Proof. destruct a; [auto|]. rewrite append_cons. discriminate. Qed.

Lemma no_newline_append (a b : string) :
  no_newline (a ++ b) = no_newline a && no_newline b.
Proof.
  induction a as [|c a IH]; [reflexivity|].
  rewrite append_cons. cbn [no_newline]. rewrite IH. apply andb_assoc.
Qed.

Lemma no_newline_nl (a : string) : no_newline (nl ++ a) = false.
Proof. reflexivity. Qed.

Lemma split_lines_no_newline (a : string) :
  no_newline a = true -> split_lines a = [a].
Proof.
  induction a as [|c a IH]; [reflexivity|].
  cbn [no_newline split_lines]. intros [Hc Ha]%andb_true_iff.
  apply negb_true_iff in Hc. rewrite Hc, (IH Ha). reflexivity.
Qed.

Lemma split_lines_line (a b : string) :
  no_newline a = true -> split_lines (a ++ nl ++ b) = a :: split_lines b.
Proof.
  induction a as [|c a IH].
  - intros _. reflexivity.
  - cbn [no_newline]. intros [Hc Ha]%andb_true_iff.
    apply negb_true_iff in Hc.
    rewrite append_cons. cbn [split_lines]. rewrite Hc, (IH Ha). reflexivity.
Qed.

(** A prefix [x] of a text that starts with the line [l]: [x] stops inside
    [l], or goes past the separator that ends it. *)
Lemma prefix_of_line (l : string) : forall x r rest : string,
  no_newline l = true ->
  (x ++ r)%string = (l ++ nl ++ rest)%string ->
  (exists s, l = (x ++ s)%string /\ r = (s ++ nl ++ rest)%string) \/
  (exists x', x = (l ++ nl ++ x')%string /\ (x' ++ r)%string = rest).
Proof.
  induction l as [|c l IH]; intros x r rest Hl Heq.
  - destruct x as [|c x].
    + left. exists EmptyString. split; [reflexivity|exact Heq].
    + right. exists x. rewrite append_cons in Heq. cbn in Heq.
      injection Heq as -> Hx. split; [reflexivity|exact Hx].
  - cbn [no_newline] in Hl. apply andb_true_iff in Hl as [Hc Hl].
    destruct x as [|c' x].
    + left. exists (String c l). split; [reflexivity|exact Heq].
    + rewrite !append_cons in Heq. injection Heq as -> Heq.
      destruct (IH x r rest Hl Heq) as [(s & -> & ->)|(x' & -> & <-)].
      * left. exists s. split; reflexivity.
      * right. exists x'. split; reflexivity.
Qed.

Lemma proper_prefixes_spec (s p q : string) :
  s = (p ++ q)%string -> q <> EmptyString -> In p (proper_prefixes s).
Proof.
  revert p. induction s as [|c s IH]; intros p Heq Hq.
  - symmetry in Heq. apply append_eq_empty in Heq as [_ ?]. contradiction.
  - destruct p as [|c' p]; [left; reflexivity|].
    rewrite append_cons in Heq. injection Heq as <- Heq.
    right. apply in_map. apply IH; assumption.
Qed.

(** ** The event dispatcher *)

Lemma member_app_last (k : string) (v : json) (kvs : list (string * json)) :
  member k (kvs ++ [(k, v)])%list = Some v.
Proof.
  induction kvs as [|[k' v'] kvs IH]; cbn [member app].
  - rewrite String.eqb_refl. reflexivity.
  - rewrite IH. reflexivity.
Qed.

Lemma member_map_set (k : string) (v : json) (kvs : list (string * json)) :
  member k (map (fun kv => (fst kv, if String.eqb k (fst kv) then v else snd kv)) kvs)
  = match member k kvs with Some _ => Some v | None => None end.
Proof.
  induction kvs as [|[k' v'] kvs IH]; cbn [member map fst snd]; [reflexivity|].
  rewrite IH. destruct (member k kvs); [reflexivity|].
  destruct (String.eqb k k'); reflexivity.
Qed.

Lemma member_set_member (k : string) (v : json) (kvs : list (string * json)) :
  member k (set_member k v kvs) = Some v.
Proof.
  unfold set_member. destruct (member k kvs) eqn:Hm.
  - rewrite member_map_set, Hm. reflexivity.
  - apply member_app_last.
Qed.

Lemma member_app_other (k k' : string) (v : json) (kvs : list (string * json)) :
  String.eqb k k' = false -> member k (kvs ++ [(k', v)])%list = member k kvs.
Proof.
  intros Hk. induction kvs as [|[k0 v0] kvs IH]; cbn [member app].
  - rewrite Hk. reflexivity.
  - rewrite IH. reflexivity.
Qed.

Lemma member_map_other (k k' : string) (v : json) (kvs : list (string * json)) :
  String.eqb k' k = false ->
  member k (map (fun kv => (fst kv, if String.eqb k' (fst kv) then v else snd kv)) kvs)
  = member k kvs.
Proof.
  intros Hk. induction kvs as [|[k0 v0] kvs IH]; cbn [member map fst snd]; [reflexivity|].
  rewrite IH. destruct (member k kvs); [reflexivity|].
  destruct (String.eqb_spec k k0) as [<-|Hne]; [rewrite Hk|]; reflexivity.
Qed.

(** Writing one property leaves the others as they are. *)
Lemma member_set_member_other (k k' : string) (v : json) (kvs : list (string * json)) :
  String.eqb k' k = false -> member k (set_member k' v kvs) = member k kvs.
Proof.
  intros Hk. unfold set_member. destruct (member k' kvs).
  - apply member_map_other. exact Hk.
  - apply member_app_other. rewrite String.eqb_sym. exact Hk.
Qed.

(** Reading a property throws on [null] and [undefined] only. *)
Lemma prop_nullish (v : jsval) (k : string) :
  prop v k = if nullish v then inl TypeError else inr (field v k).
Proof. unfold field. destruct v as [[]|]; reflexivity. Qed.

Ltac run_m :=
  unfold mbind, M_bind, bind, lift, modify, mret, M_ret, ret, throw,
         start_onServerStreamEnd, emit; cbn beta iota.

Section DispatcherFacts.
Context {Api Store : Type} `{Countable Api}.
Variable am : @ApiManager Api Store.

Lemma getMessage_cases (event : json) :
  (exists e, forall d, getMessage am event d = (inl e, d)) \/
  (exists m, msg_api m = None /\
     forall d, exists d', getMessage am event d = (inr m, d') /\
       resourceVersions d' = resourceVersions d /\ emitted d' = emitted d) \/
  (exists m api ns v, message_version m = Some (api, ns, v) /\
     forall d, exists d', getMessage am event d = (inr m, d') /\
       resourceVersions d' = <[(api, EmptyString) := v]> (<[(api, ns) := v]> (resourceVersions d)) /\
       emitted d' = emitted d).
Proof.
  unfold getMessage.
  destruct (prop (Some event) "type") as [e|type] eqn:Htype.
  { left. exists e. reflexivity. }
  destruct (is_string type "ADDED" || is_string type "DELETED"
            || is_string type "MODIFIED") eqn:Hdata.
  - destruct (prop (Some event) "object") as [e|object] eqn:Hobject.
    { left. exists e. intros d. run_m. rewrite Hdata. reflexivity. }
    destruct (prop object "kind") as [e|kind] eqn:Hkind.
    { left. exists e. intros d. run_m. rewrite Hdata, Hkind. reflexivity. }
    destruct (prop object "apiVersion") as [e|apiVersion] eqn:HapiVersion.
    { left. exists e. intros d. run_m. rewrite Hdata, Hkind, HapiVersion. reflexivity. }
    destruct (getApiByKind am kind apiVersion) as [api|] eqn:Hapi.
    + destruct (prop (ensureObjectSelfLink am api object) "metadata")
        as [e|metadata] eqn:Hmetadata.
      { left. exists e. intros d. run_m.
        rewrite Hdata, Hkind, HapiVersion, Hapi, Hmetadata. reflexivity. }
      destruct (prop metadata "namespace") as [e|namespace] eqn:Hnamespace.
      { left. exists e. intros d. run_m.
        rewrite Hdata, Hkind, HapiVersion, Hapi, Hmetadata, Hnamespace. reflexivity. }
      destruct (prop metadata "resourceVersion") as [e|resourceVersion] eqn:Hversion.
      { left. exists e. intros d. run_m.
        rewrite Hdata, Hkind, HapiVersion, Hapi, Hmetadata, Hnamespace, Hversion.
        reflexivity. }
      right. right. eexists _, api, (namespace_key namespace), resourceVersion.
      split.
      2:{ intros d. eexists. run_m.
          rewrite Hdata, Hkind, HapiVersion, Hapi, Hmetadata, Hnamespace, Hversion.
          split; [reflexivity|]. split; reflexivity. }
      unfold message_version. cbn [msg_api msg_data].
      destruct event as [| | | | |kvs]; try discriminate Htype;
        try (cbn in Htype; injection Htype as <-; discriminate Hdata).
      destruct (ensureObjectSelfLink am api object) as [o|] eqn:Ho;
        [|discriminate Hmetadata].
      assert (Hf : field (Some (JObj (set_member "object" o kvs))) "object" = Some o).
      { unfold field. cbn [prop]. apply member_set_member. }
      rewrite Hf. unfold field. rewrite Hmetadata, Hnamespace, Hversion. reflexivity.
    + right. left. eexists. split.
      2:{ intros d. eexists. run_m. rewrite Hdata, Hkind, HapiVersion, Hapi.
          split; [reflexivity|]. split; reflexivity. }
      reflexivity.
  - right. left. destruct (is_string type "ERROR") eqn:Herror.
    + eexists. split.
      2:{ intros d. eexists. run_m. rewrite Hdata, Herror.
          split; [reflexivity|]. split; reflexivity. }
      reflexivity.
    + destruct (is_string type "STREAM_END") eqn:Hend.
      * eexists. split.
        2:{ intros d. eexists. run_m. rewrite Hdata, Herror, Hend.
            split; [reflexivity|]. split; reflexivity. }
        reflexivity.
      * eexists. split.
        2:{ intros d. eexists. run_m. rewrite Hdata, Herror, Hend.
            split; [reflexivity|]. split; reflexivity. }
        reflexivity.
Qed.

(** [ensureObjectSelfLink] leaves the namespace and the resource version of
    an object with metadata as they are. *)
Lemma ensureObjectSelfLink_metadata (api : Api) (object : jsval) :
  nullish object = false ->
  nullish (field object "metadata") = false ->
  exists metadata,
    prop (ensureObjectSelfLink am api object) "metadata" = inr metadata /\
    prop metadata "namespace" = inr (field (field object "metadata") "namespace") /\
    prop metadata "resourceVersion"
    = inr (field (field object "metadata") "resourceVersion") /\
    field (field (ensureObjectSelfLink am api object) "metadata") "namespace"
    = field (field object "metadata") "namespace" /\
    field (field (ensureObjectSelfLink am api object) "metadata") "resourceVersion"
    = field (field object "metadata") "resourceVersion" /\
    exists o, ensureObjectSelfLink am api object = Some o.
Proof.
  intros Hobj Hmd.
  destruct object as [[| | | | |kvs]|]; try discriminate Hobj;
    try (cbn in Hmd; discriminate Hmd).
  assert (Hfm : field (Some (JObj kvs)) "metadata" = member "metadata" kvs) by reflexivity.
  rewrite Hfm in *.
  destruct (member "metadata" kvs) as [mdv|] eqn:Hm; [|discriminate Hmd].
  assert (Hsame : (forall md, mdv <> JObj md) \/ (exists md, mdv = JObj md /\ is_Some (member "selfLink" md)) ->
            ensureObjectSelfLink am api (Some (JObj kvs)) = Some (JObj kvs)).
  { intros Hcase. unfold ensureObjectSelfLink. rewrite Hm.
    destruct mdv as [| | | | |md]; try reflexivity.
    destruct Hcase as [Hno|(md' & [= <-] & [x Hx])]; [exfalso; exact (Hno md eq_refl)|].
    rewrite Hx. reflexivity. }
  destruct mdv as [| | | | |md]; try discriminate Hmd;
    try (rewrite Hsame by (left; intros md; discriminate);
         eexists; split; [cbn [prop]; rewrite Hm; reflexivity|];
         unfold field; cbn [prop]; rewrite ?Hm; cbn [prop];
         repeat split; try reflexivity; eexists; reflexivity).
  destruct (member "selfLink" md) as [sl|] eqn:Hsl.
  - rewrite Hsame by (right; exists md; split; [reflexivity|eexists; exact Hsl]).
    eexists. split; [cbn [prop]; rewrite Hm; reflexivity|].
    unfold field. cbn [prop]. rewrite ?Hm. cbn [prop].
    repeat split; try reflexivity. eexists; reflexivity.
  - unfold ensureObjectSelfLink. rewrite Hm, Hsl.
    eexists. split; [cbn [prop]; rewrite member_set_member; reflexivity|].
    unfold field. cbn [prop]. rewrite ?member_set_member. cbn [prop].
    rewrite !member_set_member_other by reflexivity.
    repeat split; try reflexivity. eexists; reflexivity.
Qed.

Variable JSON_parse : string -> option json.

Lemma process_line_syntax_error (text : string) (d : Dispatcher) :
  JSON_parse text = None ->
  process_line JSON_parse am text d = (inl SyntaxError, d).
Proof.
  intros Hp. unfold process_line, parse_line. rewrite Hp. reflexivity.
Qed.

(** The body of the [try] for one line: it throws and leaves the
    dispatcher as it was, or it hands exactly one message to the
    listeners. *)
Lemma process_line_cases (text : string) (d : Dispatcher) :
  (exists e, process_line JSON_parse am text d = (inl e, d)) \/
  (exists event m d1,
     JSON_parse text = Some event /\
     getMessage am event d = (inr m, d1) /\
     emitted d1 = emitted d /\
     process_line JSON_parse am text d
     = (inr tt, {| resourceVersions := resourceVersions d1;
                   emitted := emitted d ++ [m];
                   streamEnds := streamEnds d1 |})).
Proof.
  unfold process_line, parse_line.
  destruct (JSON_parse text) as [event|] eqn:Hp; [|left; eexists; reflexivity].
  destruct (getMessage_cases event) as [(e & He)|[(m & _ & Hm)|(m & a & ns & v & _ & Hm)]].
  - left. exists e. run_m. rewrite He. reflexivity.
  - right. destruct (Hm d) as (d1 & Hg & _ & Hem). exists event, m, d1.
    repeat split; [exact Hg|exact Hem|]. run_m. rewrite Hg. unfold modify. rewrite Hem. reflexivity.
  - right. destruct (Hm d) as (d1 & Hg & _ & Hem). exists event, m, d1.
    repeat split; [exact Hg|exact Hem|]. run_m. rewrite Hg. unfold modify. rewrite Hem. reflexivity.
Qed.

(** What [getMessage] does for an event of one of the three types that
    carry an object, when the kind of the object has a handler. *)
Lemma process_line_resolved (text : string) (event : json) (api : Api) (d : Dispatcher) :
  JSON_parse text = Some event ->
  data_event event = true ->
  nullish (field (Some event) "object") = false ->
  nullish (field (field (Some event) "object") "metadata") = false ->
  getApiByKind am (field (field (Some event) "object") "kind")
    (field (field (Some event) "object") "apiVersion") = Some api ->
  exists (m : IKubeWatchMessage) (d' : Dispatcher),
    process_line JSON_parse am text d = (inr tt, d') /\
    emitted d' = (emitted d ++ [m])%list /\
    streamEnds d' = streamEnds d /\
    msg_api m = Some api /\ msg_store m = getStore am api /\ msg_error m = None /\
    message_version m
    = Some (api,
            namespace_key (field (field (field (Some event) "object") "metadata") "namespace"),
            field (field (field (Some event) "object") "metadata") "resourceVersion") /\
    resourceVersions d'
    = <[(api, EmptyString) :=
          field (field (field (Some event) "object") "metadata") "resourceVersion"]>
        (<[(api, namespace_key
                   (field (field (field (Some event) "object") "metadata") "namespace")) :=
             field (field (field (Some event) "object") "metadata") "resourceVersion"]>
           (resourceVersions d)).
Proof.
  intros Hp Hdata Hobj Hmd Hapi.
  destruct (ensureObjectSelfLink_metadata api _ Hobj Hmd)
    as (metadata & Hmeta & Hns & Hrv & Hfns & Hfrv & o & Ho).
  assert (Hev : nullish (Some event) = false).
  { destruct event; try reflexivity. discriminate Hdata. }
  unfold process_line, parse_line. rewrite Hp. run_m. unfold getMessage.
  rewrite (prop_nullish (Some event) "type"), Hev.
  unfold data_event in Hdata. run_m. rewrite Hdata.
  rewrite (prop_nullish (Some event) "object"), Hev. cbn beta iota.
  rewrite !(prop_nullish (field (Some event) "object")), Hobj. cbn beta iota.
  rewrite Hapi. cbn beta iota. rewrite Hmeta. cbn beta iota.
  rewrite Hns. cbn beta iota. rewrite Hrv. cbn beta iota.
  eexists _, _. split; [reflexivity|].
  cbn [emitted streamEnds resourceVersions setResourceVersion msg_api msg_store msg_error
       namespace_key].
  repeat split; try reflexivity.
  unfold message_version. cbn [msg_api msg_data]. rewrite Ho.
  destruct event as [| | | | |kvs]; try discriminate Hdata.
  assert (Hf : field (Some (JObj (set_member "object" o kvs))) "object" = Some o).
  { unfold field. cbn [prop]. apply member_set_member. }
  rewrite Hf, <- Ho, Hfns, Hfrv. reflexivity.
Qed.

Lemma accepted_process_line (text : string) (d : Dispatcher) :
  accepted JSON_parse am text = true ->
  exists d', process_line JSON_parse am text d = (inr tt, d')
             /\ length (emitted d') = S (length (emitted d)).
Proof.
  unfold accepted. destruct (JSON_parse text) as [event|] eqn:Hp; [|discriminate].
  intros Hacc. unfold process_line, parse_line. rewrite Hp.
  destruct (getMessage_cases event) as [(e & He)|[(m & _ & Hm)|(m & a & ns & v & _ & Hm)]].
  - rewrite He in Hacc. discriminate.
  - destruct (Hm d) as (d1 & Hg & _ & Hem). eexists. run_m. rewrite Hg. unfold modify.
    split; [reflexivity|]. cbn [emitted]. rewrite length_app, Hem. cbn. lia.
  - destruct (Hm d) as (d1 & Hg & _ & Hem). eexists. run_m. rewrite Hg. unfold modify.
    split; [reflexivity|]. cbn [emitted]. rewrite length_app, Hem. cbn. lia.
Qed.

Lemma processBuffer_cons_ok (text : string) (rest : list string) (d d' : Dispatcher) :
  process_line JSON_parse am text d = (inr tt, d') ->
  processBuffer JSON_parse am (text :: rest) d = processBuffer JSON_parse am rest d'.
Proof. intros Hl. cbn [processBuffer]. rewrite Hl. reflexivity. Qed.

Lemma processBuffer_cons_fail (text : string) (rest : list string) (d : Dispatcher) :
  JSON_parse text = None ->
  processBuffer JSON_parse am (text :: rest) d = (text, d).
Proof.
  intros Hp. cbn [processBuffer]. rewrite (process_line_syntax_error _ _ Hp). reflexivity.
Qed.

End DispatcherFacts.

(** ** The stream parser *)

Section StreamParserFacts.
Context {Api Store : Type} `{Countable Api}.
Variable am : @ApiManager Api Store.
Variable JSON_parse : string -> option json.
Hypothesis parse_empty : JSON_parse EmptyString = None.

Local Abbreviation good := (fun text => well_formed_line JSON_parse am text = true).

Lemma well_formed_line_inv (text : string) :
  well_formed_line JSON_parse am text = true ->
  no_newline text = true /\
  accepted JSON_parse am text = true /\
  (forall p q, text = (p ++ q)%string -> q <> EmptyString -> JSON_parse p = None).
Proof.
  unfold well_formed_line. intros [[Hn Ha]%andb_true_iff Hp]%andb_true_iff.
  repeat split; [exact Hn|exact Ha|].
  intros p q Heq Hq. unfold prefix_free in Hp.
  rewrite forallb_forall in Hp.
  specialize (Hp p (proper_prefixes_spec _ _ _ Heq Hq)).
  destruct (JSON_parse p); [discriminate|reflexivity].
Qed.

Lemma dispatch_lines_app (l1 l2 : list string) (d : Dispatcher) :
  dispatch_lines JSON_parse am (l1 ++ l2) d
  = dispatch_lines JSON_parse am l2 (dispatch_lines JSON_parse am l1 d).
Proof. unfold dispatch_lines. apply fold_left_app. Qed.

Lemma dispatch_lines_length (lines : list string) : forall d : Dispatcher,
  Forall good lines ->
  length (emitted (dispatch_lines JSON_parse am lines d))
  = length (emitted d) + length lines.
Proof.
  induction lines as [|l lines IH]; intros d Hgood.
  - cbn. lia.
  - apply Forall_cons_1 in Hgood as [Hl Hgood].
    apply well_formed_line_inv in Hl as (_ & Ha & _).
    destruct (accepted_process_line am JSON_parse l d Ha) as (d' & Hd' & Hlen).
    unfold dispatch_lines in *. cbn [fold_left]. rewrite Hd'. cbn [snd].
    rewrite (IH d' Hgood), Hlen. cbn [length]. lia.
Qed.

(** [processBuffer] on the pieces of a prefix [x] of a stream of
    well-formed lines: the lines that [x] completes are dispatched in order,
    and the piece left over is carried, unless it is itself a whole line
    whose separator has not arrived: then it is dispatched too. *)
Lemma processBuffer_prefix (todo : list string) : forall (x r : string) (d : Dispatcher),
  Forall good todo ->
  (x ++ r)%string = stream_of todo ->
  exists done rem buf,
    todo = (done ++ rem)%list /\
    processBuffer JSON_parse am (split_lines x) d
    = (buf, dispatch_lines JSON_parse am done d) /\
    no_newline buf = true /\
    ((buf ++ r)%string = stream_of rem \/
     (buf = EmptyString /\ r = (nl ++ stream_of rem)%string)).
Proof.
  induction todo as [|l todo IH]; intros x r d Hgood Heq.
  - cbn [stream_of] in Heq. apply append_eq_empty in Heq as [-> ->].
    exists [], [], EmptyString. split; [reflexivity|].
    split; [|split; [reflexivity|left; reflexivity]].
    cbn [split_lines]. rewrite (processBuffer_cons_fail am JSON_parse _ _ _ parse_empty).
    reflexivity.
  - apply Forall_cons_1 in Hgood as [Hl Hgood].
    pose proof (well_formed_line_inv l Hl) as (Hnl & Hacc & Hpre).
    cbn [stream_of] in Heq.
    destruct (prefix_of_line l x r (stream_of todo) Hnl Heq)
      as [(s & Hls & Hr)|(x' & Hx & Hrest)].
    + assert (Hx : no_newline x = true).
      { rewrite Hls, no_newline_append in Hnl. apply andb_true_iff in Hnl. tauto. }
      rewrite (split_lines_no_newline x Hx).
      destruct s as [|c s].
      * rewrite append_empty_r in Hls. subst x.
        destruct (accepted_process_line am JSON_parse l d Hacc) as (d' & Hd' & _).
        exists [l], todo, EmptyString. split; [reflexivity|].
        split; [|split; [reflexivity|right; split; [reflexivity|exact Hr]]].
        rewrite (processBuffer_cons_ok am JSON_parse _ _ _ _ Hd').
        cbn [processBuffer]. unfold dispatch_lines. cbn [fold_left]. rewrite Hd'.
        reflexivity.
      * exists [], (l :: todo), x. split; [reflexivity|].
        split; [|split; [exact Hx|left; cbn [stream_of]; exact Heq]].
        apply processBuffer_cons_fail. apply (Hpre x (String c s) Hls). discriminate.
    + subst x. rewrite (split_lines_line l x' Hnl).
      destruct (accepted_process_line am JSON_parse l d Hacc) as (d' & Hd' & _).
      rewrite (processBuffer_cons_ok am JSON_parse _ _ _ _ Hd').
      destruct (IH x' r d' Hgood Hrest) as (done & rem & buf & -> & Hpb & Hbuf & Hcase).
      exists (l :: done), rem, buf. split; [reflexivity|].
      split; [|split; [exact Hbuf|exact Hcase]].
      rewrite Hpb. unfold dispatch_lines. cbn [fold_left]. rewrite Hd'. reflexivity.
Qed.

(** The read loop on the chunks that remain of a stream of well-formed
    lines, whatever the boundaries, as long as a chunk that starts with the
    separator is the separator alone. *)
Lemma read_loop_lines (chunks : list string) :
  forall (rem : list string) (buf : string) (d : Dispatcher),
  Forall good rem ->
  Forall (fun c => separator_alone c = true) chunks ->
  no_newline buf = true ->
  ((buf ++ concat_chunks chunks)%string = stream_of rem \/
   (buf = EmptyString /\ concat_chunks chunks = (nl ++ stream_of rem)%string)) ->
  read_loop JSON_parse am chunks buf d = (EmptyString, dispatch_lines JSON_parse am rem d).
Proof.
  induction chunks as [|c chunks IH]; intros rem buf d Hgood Hchunks Hbuf Hcase.
  - cbn [concat_chunks read_loop] in *. destruct Hcase as [Heq|[_ Heq]]; [|discriminate].
    rewrite append_empty_r in Heq. subst buf.
    destruct rem as [|l rem]; [reflexivity|].
    cbn [stream_of] in Hbuf. rewrite no_newline_append, no_newline_nl in Hbuf.
    rewrite andb_false_r in Hbuf. discriminate.
  - apply Forall_cons_1 in Hchunks as [Hc Hchunks].
    cbn [concat_chunks read_loop] in *. unfold read_turn.
    destruct Hcase as [Heq|[-> Heq]].
    + rewrite <- append_assoc in Heq.
      destruct (processBuffer_prefix rem (buf ++ c) (concat_chunks chunks) d Hgood Heq)
        as (done & rem' & buf' & -> & Hpb & Hbuf' & Hcase').
      rewrite Hpb. apply Forall_app in Hgood as [_ Hgood'].
      rewrite (IH rem' buf' _ Hgood' Hchunks Hbuf' Hcase').
      rewrite dispatch_lines_app. reflexivity.
    + rewrite append_empty_l. destruct c as [|ch c].
      * cbn [split_lines].
        rewrite (processBuffer_cons_fail am JSON_parse _ _ _ parse_empty).
        apply IH; [exact Hgood|exact Hchunks|reflexivity|].
        right. split; [reflexivity|exact Heq].
      * rewrite append_cons in Heq. unfold nl in Heq. rewrite append_cons in Heq.
        injection Heq as -> Heq. cbn [separator_alone] in Hc.
        rewrite Ascii.eqb_refl in Hc. destruct c; [|discriminate].
        cbn [split_lines]. rewrite Ascii.eqb_refl.
        rewrite (processBuffer_cons_fail am JSON_parse _ _ _ parse_empty).
        apply IH; [exact Hgood|exact Hchunks|reflexivity|].
        left. exact Heq.
Qed.

End StreamParserFacts.

Section DispatcherTheorems.
Context {Api Store : Type} `{Countable Api}.
Variable am : @ApiManager Api Store.
Variable JSON_parse : string -> option json.

(** C3, as amended. Take a stream of complete lines, each of which has no
    separator inside, parses, is dispatched without a throw, and has no
    proper prefix that parses; the empty text does not parse either. Cut
    its text into chunks in any way, provided that a chunk which starts
    with the line separator is the separator alone. Then the read loop on
    the chunks ends as it does on the whole text in one chunk: with an
    empty buffer and the dispatcher that results from handling the lines
    once each, in order; the listeners receive one message for each
    line. *)
Theorem read_loop_chunk_boundaries (lines chunks : list string) (d : Dispatcher) :
  JSON_parse EmptyString = None ->
  Forall (fun text => well_formed_line JSON_parse am text = true) lines ->
  Forall (fun chunk => separator_alone chunk = true) chunks ->
  concat_chunks chunks = stream_of lines ->
  read_loop JSON_parse am chunks EmptyString d
  = read_loop JSON_parse am [stream_of lines] EmptyString d /\
  read_loop JSON_parse am chunks EmptyString d
  = (EmptyString, dispatch_lines JSON_parse am lines d) /\
  length (emitted (dispatch_lines JSON_parse am lines d))
  = length (emitted d) + length lines.
Proof.
  intros Hempty Hlines Hchunks Hconcat.
  assert (Hone : read_loop JSON_parse am [stream_of lines] EmptyString d
                 = (EmptyString, dispatch_lines JSON_parse am lines d)).
  { cbn [read_loop]. unfold read_turn. rewrite append_empty_l.
    destruct (processBuffer_prefix am JSON_parse Hempty lines (stream_of lines)
                EmptyString d Hlines (append_empty_r _))
      as (done & rem & buf & Hsplit & Hpb & Hbuf & [Hrem|[_ Hrem]]); [|discriminate].
    rewrite Hpb. rewrite append_empty_r in Hrem. subst buf.
    destruct rem as [|l rem].
    - rewrite app_nil_r in Hsplit. subst done. reflexivity.
    - cbn [stream_of] in Hbuf. rewrite no_newline_append, no_newline_nl in Hbuf.
      rewrite andb_false_r in Hbuf. discriminate. }
  assert (Hmany : read_loop JSON_parse am chunks EmptyString d
                  = (EmptyString, dispatch_lines JSON_parse am lines d)).
  { apply read_loop_lines; [exact Hempty|exact Hlines|exact Hchunks|reflexivity|].
    left. exact Hconcat. }
  split; [rewrite Hone; exact Hmany|].
  split; [exact Hmany|].
  apply dispatch_lines_length. exact Hlines.
Qed.


Lemma last_version_acc (api : Api) (ns : string)
  (messages : list (@IKubeWatchMessage Api Store)) :
  forall acc : option jsval,
  fold_left (fun acc (m : @IKubeWatchMessage Api Store) =>
               match message_version m with
               | Some (a, n, v) =>
                   if decide (a = api /\ (ns = EmptyString \/ n = ns)) then Some v else acc
               | None => acc
               end) messages acc
  = match last_version api ns messages with
    | Some v => Some v
    | None => acc
    end.
Proof.
  unfold last_version. induction messages as [|m messages IH]; intros acc.
  - reflexivity.
  - cbn [fold_left]. rewrite IH. symmetry. rewrite IH.
    destruct (fold_left _ messages None); [reflexivity|].
    destruct (message_version m) as [[[a n] v]|]; [|reflexivity].
    destruct (decide _); reflexivity.
Qed.

Lemma last_version_app (api : Api) (ns : string)
  (l1 l2 : list (@IKubeWatchMessage Api Store)) :
  last_version api ns (l1 ++ l2)%list
  = match last_version api ns l2 with
    | Some v => Some v
    | None => last_version api ns l1
    end.
Proof.
  unfold last_version at 1. rewrite fold_left_app.
  rewrite last_version_acc. reflexivity.
Qed.

Lemma table_follows_refl (d : @Dispatcher Api Store _ _) : table_follows d d.
Proof. exists []. split; [symmetry; apply app_nil_r|]. intros api ns. reflexivity. Qed.

Lemma table_follows_trans (d1 d2 d3 : @Dispatcher Api Store _ _) :
  table_follows d1 d2 -> table_follows d2 d3 -> table_follows d1 d3.
Proof.
  intros (n1 & He1 & Ht1) (n2 & He2 & Ht2). exists (n1 ++ n2)%list. split.
  - rewrite He2, He1. symmetry. apply app_assoc.
  - intros api ns. rewrite Ht2, last_version_app, Ht1.
    destruct (last_version api ns n2); reflexivity.
Qed.

Lemma process_line_table (text : string) (d : Dispatcher) :
  table_follows d (snd (process_line JSON_parse am text d)).
Proof.
  unfold process_line, parse_line.
  destruct (JSON_parse text) as [event|]; [|apply table_follows_refl].
  destruct (getMessage_cases am event) as [(e & He)|[(m & Hm & Hg)|(m & a & n & v & Hm & Hg)]].
  - run_m. rewrite He. apply table_follows_refl.
  - destruct (Hg d) as (d1 & Hd1 & Ht & Hem). run_m. rewrite Hd1. unfold modify.
    cbn [snd]. exists [m]. cbn [emitted resourceVersions]. split; [rewrite Hem; reflexivity|].
    intros api ns. unfold last_version, message_version. cbn [fold_left].
    rewrite Hm. rewrite Ht. reflexivity.
  - destruct (Hg d) as (d1 & Hd1 & Ht & Hem). run_m. rewrite Hd1. unfold modify.
    cbn [snd]. exists [m]. cbn [emitted resourceVersions]. split; [rewrite Hem; reflexivity|].
    intros api ns. unfold last_version. cbn [fold_left]. rewrite Hm, Ht.
    destruct (decide (a = api /\ (ns = EmptyString \/ n = ns))) as [[-> Hns]|Hno].
    + destruct Hns as [->| ->].
      * apply lookup_insert_eq.
      * destruct (decide (ns = EmptyString)) as [->|Hn].
        -- apply lookup_insert_eq.
        -- rewrite lookup_insert_ne by congruence. apply lookup_insert_eq.
    + rewrite !lookup_insert_ne; [reflexivity| |].
      * intros [= ? ?]. subst. apply Hno. auto.
      * intros [= ? ?]. subst. apply Hno. auto.
Qed.

Lemma processBuffer_table (events : list string) : forall d : Dispatcher,
  table_follows d (snd (processBuffer JSON_parse am events d)).
Proof.
  induction events as [|text events IH]; intros d.
  - apply table_follows_refl.
  - cbn [processBuffer]. pose proof (process_line_table text d) as Hl.
    destruct (process_line JSON_parse am text d) as [[e|[]] d1]; cbn [snd] in *.
    + exact Hl.
    + eapply table_follows_trans; [exact Hl|apply IH].
Qed.

(** C10, as amended. When [processBuffer] comes to a line that parses and
    for which [getMessage] returns a message, it hands exactly that one
    message to the listeners, after those they had and before those of the
    lines that follow, and goes on with the next line. [getMessage]
    returns the empty message, without a throw, for every parsed value
    other than [null] whose type is [STREAM_END] or has no case in the
    [switch]. *)
Theorem parsed_line_emits_one_message :
  (forall (text : string) (event : json) (rest : list string) (d d1 : Dispatcher)
          (m : IKubeWatchMessage),
      JSON_parse text = Some event ->
      getMessage am event d = (inr m, d1) ->
      let d' := {| resourceVersions := resourceVersions d1;
                   emitted := emitted d ++ [m];
                   streamEnds := streamEnds d1 |} in
      emitted d1 = emitted d /\
      processBuffer JSON_parse am (text :: rest) d = processBuffer JSON_parse am rest d' /\
      exists later : list IKubeWatchMessage,
        emitted (snd (processBuffer JSON_parse am rest d')) = (emitted d' ++ later)%list /\
        emitted (snd (processBuffer JSON_parse am (text :: rest) d))
        = (emitted d ++ [m] ++ later)%list) /\
  (forall (event : json) (d : Dispatcher),
      event <> JNull ->
      no_case_but_stream_end event = true ->
      fst (getMessage am event d) = inr empty_message).
Proof.
  split.
  - intros text event rest d d1 m Hp Hg d'.
    destruct (process_line_cases am JSON_parse text d)
      as [(e & He)|(event' & m' & d1' & Hp' & Hg' & Hem & Hl)].
    + exfalso. unfold process_line, parse_line in He. rewrite Hp in He.
      revert He. run_m. rewrite Hg. discriminate.
    + rewrite Hp in Hp'. injection Hp' as <-. rewrite Hg in Hg'.
      injection Hg' as <- <-. split; [exact Hem|].
      assert (Hcons : processBuffer JSON_parse am (text :: rest) d
                      = processBuffer JSON_parse am rest d').
      { apply processBuffer_cons_ok. exact Hl. }
      split; [exact Hcons|].
      destruct (processBuffer_table rest d') as (later & Hlater & _).
      exists later. split; [exact Hlater|].
      rewrite Hcons, Hlater. cbn [emitted d']. rewrite <- app_assoc. reflexivity.
  - intros event d Hnull Hother. unfold no_case_but_stream_end, field in Hother.
    unfold getMessage.
    destruct (prop (Some event) "type") as [e|type] eqn:Htype.
    { destruct event; try discriminate Htype. contradiction. }
    apply negb_true_iff, orb_false_iff in Hother as [Hdata Herror].
    run_m. rewrite Hdata, Herror.
    destruct (is_string type "STREAM_END"); reflexivity.
Qed.

(** C4. Take a line that parses to an event of type [ADDED], [DELETED] or
    [MODIFIED] whose object has metadata and whose kind resolves to a
    registered handler. Handling the line dispatches one message, which
    carries the handler, and writes the resource version of the object into
    the resumption table under the handler and the namespace of the object,
    and under the handler and the empty namespace; the other entries stay as
    they were. Hence, after the read loop has handled any chunks, every
    entry of the table is the resource version of the most recent message
    dispatched meanwhile for its handler and namespace, and under the empty
    namespace for its handler in any namespace; an entry for which no such
    message was dispatched is as it was before. *)
Theorem resumption_table_is_last_dispatched :
  (forall (text : string) (event : json) (api : Api) (d : Dispatcher),
      JSON_parse text = Some event ->
      data_event event = true ->
      let object := field (Some event) "object" in
      let metadata := field object "metadata" in
      let ns := namespace_key (field metadata "namespace") in
      let version := field metadata "resourceVersion" in
      nullish object = false ->
      nullish metadata = false ->
      getApiByKind am (field object "kind") (field object "apiVersion") = Some api ->
      exists (m : IKubeWatchMessage) (d' : Dispatcher),
        process_line JSON_parse am text d = (inr tt, d') /\
        emitted d' = (emitted d ++ [m])%list /\
        msg_api m = Some api /\
        message_version m = Some (api, ns, version) /\
        resourceVersions d' !! (api, ns) = Some version /\
        resourceVersions d' !! (api, EmptyString) = Some version /\
        (forall (api' : Api) (ns' : string),
            (api', ns') <> (api, ns) -> (api', ns') <> (api, EmptyString) ->
            resourceVersions d' !! (api', ns') = resourceVersions d !! (api', ns'))) /\
  (forall (chunks : list string) (jsonBuffer : string) (d : Dispatcher),
      let d' := snd (read_loop JSON_parse am chunks jsonBuffer d) in
      exists new : list IKubeWatchMessage,
        emitted d' = (emitted d ++ new)%list /\
        forall (api : Api) (ns : string),
          resourceVersions d' !! (api, ns)
          = match last_version api ns new with
            | Some v => Some v
            | None => resourceVersions d !! (api, ns)
            end).
Proof.
  split.
  - intros text event api d Hp Hdata object metadata ns version Hobj Hmd Hapi.
    destruct (process_line_resolved am JSON_parse text event api d Hp Hdata Hobj Hmd Hapi)
      as (m & d' & Hl & Hem & _ & Hma & _ & _ & Hmv & Hrv).
    exists m, d'. split; [exact Hl|]. split; [exact Hem|]. split; [exact Hma|].
    split; [exact Hmv|]. rewrite Hrv. split; [|split].
    + destruct (decide ((api, EmptyString) = (api, ns))) as [<-|Hne].
      * apply lookup_insert_eq.
      * rewrite lookup_insert_ne by exact Hne. apply lookup_insert_eq.
    + apply lookup_insert_eq.
    + intros api' ns' Hns Hempty.
      rewrite !lookup_insert_ne by (apply not_eq_sym; assumption). reflexivity.
  - induction chunks as [|value chunks IH]; intros jsonBuffer d.
    + apply table_follows_refl.
    + cbn [read_loop]. unfold read_turn.
      pose proof (processBuffer_table (split_lines (jsonBuffer ++ value)) d) as Hb.
      destruct (processBuffer JSON_parse am (split_lines (jsonBuffer ++ value)) d)
        as [jsonBuffer' d1]; cbn [snd] in *.
      exact (table_follows_trans _ _ _ Hb (IH jsonBuffer' d1)).
Qed.

End DispatcherTheorems.

Lemma resumption_table_is_last_dispatched_witness :
  exists (m : IKubeWatchMessage) (d' : Dispatcher),
    process_line json_of_text sample_manager pod_added dispatcher_init = (inr tt, d') /\
    emitted d' = [m] /\
    msg_api m = Some "pods" /\
    message_version m = Some ("pods", "default", Some (JStr "10")) /\
    resourceVersions d' !! ("pods", "default") = Some (Some (JStr "10")) /\
    resourceVersions d' !! ("pods", EmptyString) = Some (Some (JStr "10")).
Proof.
  destruct (proj1 (resumption_table_is_last_dispatched sample_manager json_of_text)
              pod_added pod_added_event "pods" dispatcher_init)
    as (m & d' & Hl & Hem & Hma & Hmv & Hns & Hempty & _).
  - vm_compute. reflexivity.
  - reflexivity.
  - reflexivity.
  - reflexivity.
  - reflexivity.
  - exists m, d'. repeat split; assumption.
Defined.

Lemma read_loop_chunk_boundaries_witness :
  let lines := [pod_added; stream_end; error_event] in
  let chunks := [js "{'type':'ADD";
                 js "ED','object':{'kind':'Pod','apiVersion':'v1','me";
                 js "tadata':{'namespace':'default','resourceVersion':'10'}}}"
                 ++ nl ++ stream_end ++ nl;
                 EmptyString; error_event ++ nl] in
  read_loop json_of_text sample_manager chunks EmptyString dispatcher_init
  = read_loop json_of_text sample_manager [stream_of lines] EmptyString dispatcher_init /\
  read_loop json_of_text sample_manager chunks EmptyString dispatcher_init
  = (EmptyString, dispatch_lines json_of_text sample_manager lines dispatcher_init) /\
  length (emitted (dispatch_lines json_of_text sample_manager lines dispatcher_init))
  = length (emitted (@dispatcher_init string string _ _)) + length lines.
Proof.
  intros lines chunks.
  apply (read_loop_chunk_boundaries sample_manager json_of_text lines chunks dispatcher_init).
  - reflexivity.
  - repeat constructor; vm_compute; reflexivity.
  - repeat constructor.
  - vm_compute. reflexivity.
Defined.

(** C3 as it is written fails on a line that is a number: the line [12]
    is one event in one chunk, and two events when the chunks are [1] and
    [2] with the separator. *)
Lemma read_loop_number_split :
  json_of_text "12" = Some (JNum "12") /\
  concat_chunks ["1"; "2" ++ nl] = stream_of ["12"] /\
  length (emitted (snd (read_loop json_of_text sample_manager [stream_of ["12"]]
                          EmptyString dispatcher_init))) = 1 /\
  length (emitted (snd (read_loop json_of_text sample_manager ["1"; "2" ++ nl]
                          EmptyString dispatcher_init))) = 2.
Proof. vm_compute. repeat split; reflexivity. Qed.

Lemma parsed_line_emits_one_message_witness :
  let event := JObj [("type", JStr "STREAM_END"); ("url", JStr "/api/v1/pods")] in
  let started := [(event, {| reconnectAttempts := 5; timeout := 1000 |})] in
  let d' := {| resourceVersions := ∅; emitted := [empty_message];
               streamEnds := started |} in
  (emitted {| resourceVersions := ∅; emitted := []; streamEnds := started |}
   = emitted (@dispatcher_init string string _ _) /\
   processBuffer json_of_text sample_manager [stream_end; error_event] dispatcher_init
   = processBuffer json_of_text sample_manager [error_event] d' /\
   exists later,
     emitted (snd (processBuffer json_of_text sample_manager [error_event] d'))
     = (emitted d' ++ later)%list /\
     emitted (snd (processBuffer json_of_text sample_manager [stream_end; error_event]
                     dispatcher_init))
     = (emitted (@dispatcher_init string string _ _) ++ [empty_message] ++ later)%list) /\
  fst (getMessage sample_manager event dispatcher_init) = inr empty_message.
Proof.
  intros event started d'. split.
  - apply (proj1 (parsed_line_emits_one_message sample_manager json_of_text)
             stream_end event [error_event] dispatcher_init
             {| resourceVersions := ∅; emitted := []; streamEnds := started |}
             empty_message).
    + vm_compute. reflexivity.
    + vm_compute. reflexivity.
  - apply (proj2 (parsed_line_emits_one_message sample_manager json_of_text)).
    + discriminate.
    + vm_compute. reflexivity.
Defined.

(** C10 as it is written fails on the line [null], and on an [ADDED] event
    without object: both parse, [getMessage] throws a [TypeError] on them,
    and the listeners receive nothing. *)
Lemma null_line_emits_nothing :
  json_of_text "null" = Some JNull /\
  processBuffer json_of_text sample_manager ["null"] dispatcher_init
  = ("null", dispatcher_init) /\
  json_of_text (js "{'type':'ADDED'}") = Some (JObj [("type", JStr "ADDED")]) /\
  processBuffer json_of_text sample_manager [js "{'type':'ADDED'}"] dispatcher_init
  = (js "{'type':'ADDED'}", dispatcher_init).
Proof. vm_compute. repeat split; reflexivity. Qed.

(** C2, on the code. After a chunk that ended exactly at the end of a
    line, the next chunk starts with the separator: its first piece is
    empty and fails to parse, [processBuffer] returns that piece alone, and
    the well-formed line that follows it is neither dispatched nor
    kept. *)
Theorem processBuffer_drops_lines_after_failure :
  json_of_text error_event = Some (JObj [("type", JStr "ERROR")]) /\
  processBuffer json_of_text sample_manager [EmptyString; error_event; EmptyString]
    dispatcher_init
  = (EmptyString, dispatcher_init) /\
  read_loop json_of_text sample_manager [error_event; nl ++ error_event ++ nl]
    EmptyString dispatcher_init
  = (EmptyString,
     {| resourceVersions := ∅;
        emitted := [{| msg_data := None;
                       msg_error := Some (JObj [("type", JStr "ERROR")]);
                       msg_api := None; msg_store := None |}];
        streamEnds := [] |}).
Proof. vm_compute. repeat split; reflexivity. Qed.

(** The scenario of the spec for the resumption table. *)
Example pod_added_recorded :
  let d := snd (read_loop json_of_text sample_manager
                  [pod_added ++ nl; stream_end ++ nl] EmptyString dispatcher_init) in
  resourceVersions d !! ("pods", "default") = Some (Some (JStr "10")) /\
  resourceVersions d !! ("pods", EmptyString) = Some (Some (JStr "10")) /\
  length (emitted d) = 2 /\ length (streamEnds d) = 1.
Proof. vm_compute. repeat split; reflexivity. Qed.

(** ** Logging *)

Lemma log_silent_in_production (message : LogMessage) (lg : Logger) :
  console (log {| isProduction := true; isDebugging := false |} message lg) = console lg.
Proof. reflexivity. Qed.

Lemma log_writes_otherwise (vars : Vars) (message : LogMessage) (lg : Logger) :
  isProduction vars && negb (isDebugging vars) = false ->
  exists level, console (log vars message lg) = (console lg ++ [(level, message)])%list.
Proof. intros Hgate. unfold log. cbn [console]. rewrite Hgate. eauto. Qed.

(** ** The subscription registry *)

Section RegistryFacts.
Context {Api : Type} `{EqDecision Api}.
Implicit Types (m : @Subscribers Api) (api a b : Api).

Lemma map_get_set_eq a (v : Z) m : map_get a (map_set a v m) = Some v.
Proof.
  induction m as [|[k v'] m IH]; cbn [map_set map_get].
  - rewrite decide_True by reflexivity. reflexivity.
  - destruct (decide (k = a)) as [->|Hk]; cbn [map_get].
    + rewrite decide_True by reflexivity. reflexivity.
    + rewrite decide_False by exact Hk. exact IH.
Qed.

Lemma map_get_set_ne a b (v : Z) m : a <> b -> map_get b (map_set a v m) = map_get b m.
Proof.
  intros Hab. induction m as [|[k v'] m IH]; cbn [map_set map_get].
  - rewrite decide_False by exact Hab. reflexivity.
  - destruct (decide (k = a)) as [->|Hk]; cbn [map_get].
    + rewrite !decide_False by exact Hab. reflexivity.
    + rewrite IH. reflexivity.
Qed.



Lemma map_delete_absent a m : map_get a m = None -> map_delete a m = m.
Proof.
  induction m as [|[k v'] m IH]; cbn [map_delete map_get]; [reflexivity|].
  destruct (decide (k = a)) as [->|Hk]; [discriminate|].
  intros Hm. rewrite (IH Hm). reflexivity.
Qed.













End RegistryFacts.



(** The scenario of the spec: two subscriptions of one target, each
    disposed once. *)
Example subscribe_twice_unsubscribe_twice :
  let '(m1, dispose1) := subscribeApi ["pods"] [] in
  let '(m2, dispose2) := subscribeApi ["pods"] m1 in
  getSubscribersCount "pods" (dispose1 m2) = 1%Z /\
  dispose2 (dispose1 m2) = [].
Proof. cbn. split; reflexivity. Qed.

(** ** Reconnection after the end of one target's stream *)

Section StreamEndFacts.
Context {Api : Type} `{EqDecision Api}.
Variable vars : Vars.
Variable ops : @KubeApiOps Api.
Variable env : nat -> @StreamEndEnv Api.

Lemma spaced_from_earlier (gap : N) (times : list N) (start start' : N) :
  (start <= start')%N -> spaced_from gap start' times -> spaced_from gap start times.
Proof.
  destruct times as [|t later]; cbn [spaced_from]; [auto|].
  intros Hle [Ht Hlater]. split; [lia|exact Hlater].
Qed.

(** The invocations for one event, started with [attempts] retries left:
    they end, no error leaves them, and they call the refresh at most
    [attempts + 1] times, spaced by the delay. *)
Lemma onServerStreamEnd_bounded (fuel : nat) :
  forall (n : nat) (now : N) (attempts : Z) (gap : N) (run : StreamEndRun),
  (Z.max 0 attempts < Z.of_nat fuel)%Z ->
  exists new called logged,
    onServerStreamEnd fuel vars ops env n now
      {| reconnectAttempts := attempts; timeout := gap |} run
    = Some (inr tt, {| refreshes := refreshes run ++ new;
                       connects := connects run ++ called;
                       se_logger := logged |}) /\
    (Z.of_nat (length new) <= Z.max 0 attempts + 1)%Z /\
    spaced_from gap now new /\
    ((0 <= attempts)%Z -> keeps_failing ops env n (n + Z.to_nat attempts) ->
     Z.of_nat (length new) = (attempts + 1)%Z /\ called = []).
Proof.
  induction fuel as [|fuel IH]; intros n now attempts gap run Hfuel; [lia|].
  cbn [onServerStreamEnd reconnectAttempts timeout].
  destruct (se_api (env n)) as [api|] eqn:Hapi.
  2:{ exists [], [], (se_logger run). rewrite !app_nil_r.
      split; [destruct run; reflexivity|]. split; [cbn; lia|]. split; [exact I|].
      intros Hpos Hkeep. destruct (Hkeep n) as ([? Hsome] & _); [lia|lia|].
      rewrite Hapi in Hsome. discriminate. }
  destruct (se_refresh (env n)) as [error|[]] eqn:Hrefresh.
  2:{ exists [now], [(now + se_duration (env n))%N], (se_logger run).
      split; [reflexivity|]. split; [cbn; lia|]. split; [cbn; lia|].
      intros Hpos Hkeep. destruct (Hkeep n) as (_ & [e He] & _); [lia|lia|].
      rewrite Hrefresh in He. discriminate. }
  destruct (isActive ops (se_watcher (env n))) eqn:Hactive; cbn [andb].
  2:{ exists [now], [], (log vars (LogError (JsError
        ("Failed to connect on single stream end: " ++ error_text error))) (se_logger run)).
      rewrite app_nil_r.
      split; [reflexivity|]. split; [cbn; lia|]. split; [cbn; lia|].
      intros Hpos Hkeep. destruct (Hkeep n) as (_ & _ & Hact); [lia|lia|].
      rewrite Hactive in Hact. discriminate. }
  destruct (Z.ltb_spec 0 attempts) as [Hpos|Hzero].
  - destruct (IH (S n) (now + se_duration (env n) + gap + se_late (env n))%N
                (attempts - 1)%Z gap
                {| refreshes := refreshes run ++ [now];
                   connects := connects run;
                   se_logger := log vars (LogError (JsError
                     ("Failed to connect on single stream end: " ++ error_text error)))
                     (se_logger run) |})
      as (new & called & logged & Hrun & Hlen & Hspaced & Hexact); [lia|].
    exists (now :: new), called, logged. cbn [refreshes connects] in Hrun.
    cbn zeta beta iota. cbn [reconnectAttempts timeout refreshes connects se_logger].
    rewrite Hrun, <- app_assoc. split; [reflexivity|].
    split; [cbn [length]; lia|]. split.
    + cbn [spaced_from]. split; [lia|].
      eapply spaced_from_earlier; [|exact Hspaced]. lia.
    + intros _ Hkeep. destruct Hexact as [Hnew Hcalled]; [lia| |].
      * intros j Hj1 Hj2. apply Hkeep; lia.
      * split; [cbn [length]; lia|exact Hcalled].
  - exists [now], [], (log vars (LogError (JsError
        ("Failed to connect on single stream end: " ++ error_text error))) (se_logger run)).
    rewrite app_nil_r.
    split; [reflexivity|]. split; [cbn; lia|]. split; [cbn; lia|].
    intros Hpos _. split; [cbn; lia|reflexivity].
Qed.

(** C6, as amended. The invocations of [onServerStreamEnd] for one
    [STREAM_END] event, started with the options of [getMessage], end (six
    units of fuel are enough), no error leaves them, and they call
    [refreshResourceVersion] at most six times, each call at least 1000 ms
    after the one before. When the handler is found, the refresh fails and
    the registry is active every time, they call it exactly six times, once
    and then once for each of the five retries, and never call
    [connect]. *)
Theorem stream_end_refreshes_at_most_six (fuel : nat) (now : N) :
  6 <= fuel ->
  exists run,
    onServerStreamEnd fuel vars ops env 0 now stream_end_options stream_end_init
    = Some (inr tt, run) /\
    length (refreshes run) <= 6 /\
    spaced_from 1000 now (refreshes run) /\
    (keeps_failing ops env 0 5 -> length (refreshes run) = 6 /\ connects run = []).
Proof.
  intros Hfuel.
  destruct (onServerStreamEnd_bounded fuel 0 now 5 1000 stream_end_init)
    as (new & called & logged & Hrun & Hlen & Hspaced & Hexact); [lia|].
  eexists. split; [exact Hrun|]. cbn [refreshes connects stream_end_init app].
  split; [lia|]. split; [exact Hspaced|].
  intros Hkeep. destruct Hexact as [Hnew Hcalled]; [lia|exact Hkeep|].
  split; [lia|exact Hcalled].
Qed.

End StreamEndFacts.

Lemma stream_end_refreshes_at_most_six_witness :
  exists run,
    onServerStreamEnd 6 sample_vars sample_ops failing_env 0 0%N stream_end_options
      stream_end_init = Some (inr tt, run) /\
    length (refreshes run) <= 6 /\
    spaced_from 1000 0 (refreshes run) /\
    (keeps_failing sample_ops failing_env 0 5 ->
     length (refreshes run) = 6 /\ connects run = []).
Proof.
  apply (stream_end_refreshes_at_most_six sample_vars sample_ops failing_env 6 0%N). lia.
Defined.

(** C6 as it is written fails: a refresh that keeps failing is called six
    times, once and then once for each of the five retries. *)
Lemma stream_end_six_refreshes :
  keeps_failing sample_ops failing_env 0 5 /\
  option_map (fun r => refreshes (snd r))
    (onServerStreamEnd 6 sample_vars sample_ops failing_env 0 0%N stream_end_options
       stream_end_init)
  = Some [0; 1023; 2046; 3069; 4092; 5115]%N.
Proof.
  split.
  - intros j _ _. split; [eexists; reflexivity|]. split; [eexists; reflexivity|].
    reflexivity.
  - reflexivity.
Qed.

(** ** Subscribing stores *)

Section StoresFacts.
Context {Store : Type} `{EqDecision Store}.
Variable vars : Vars.
Variable stores : list Store.
Implicit Types (st : @StoresState Store).

Lemma remove_prefix (xs r : list Store) :
  fold_left (fun l dispose => remove_one dispose l) xs (xs ++ r)%list = r.
Proof.
  induction xs as [|x xs IH]; [reflexivity|].
  cbn [fold_left app remove_one]. rewrite decide_True by reflexivity. exact IH.
Qed.

Lemma unsubscribe_inv st : stores_inv st -> stores_inv (unsubscribe st).
Proof.
  intros [Hsub _]. split; [|reflexivity].
  cbn [unsubscribe subscribed disposers phase app]. rewrite Hsub. apply remove_prefix.
Qed.

Lemma subscribe_begin_inv st :
  stores_inv st -> pending (phase st) = [] -> stores_inv (subscribe_begin stores st).
Proof.
  intros [Hsub Hdis] Hpend. unfold subscribe_begin.
  destruct (isDisposed st) eqn:Hd; split; cbn [subscribed disposers phase pending isDisposed].
  - rewrite Hsub, Hpend. reflexivity.
  - intros _. apply Hdis. reflexivity.
  - rewrite Hsub, Hpend, app_nil_r. reflexivity.
  - discriminate.
Qed.

Lemma subscribe_resume_inv st (unsubscribeList : list Store) :
  stores_inv st -> phase st = AwaitSubscribe unsubscribeList ->
  stores_inv (subscribe_resume unsubscribeList st).
Proof.
  intros [Hsub Hdis] Hphase. unfold subscribe_resume. cbn [isDisposed].
  rewrite Hphase in Hsub. cbn [pending] in Hsub.
  destruct (isDisposed st) eqn:Hd; split;
    cbn [unsubscribe subscribed disposers phase pending isDisposed app].
  - rewrite Hsub. rewrite <- (app_nil_r (disposers st ++ unsubscribeList)) at 2.
    apply remove_prefix.
  - reflexivity.
  - rewrite Hsub, app_nil_r. reflexivity.
  - discriminate.
Qed.

Lemma stores_step_inv st st' (l : StoresLabel) :
  stores_inv st -> stores_step vars stores st l = Some st' -> stores_inv st'.
Proof.
  intros Hinv. destruct l as [results| |]; cbn [stores_step].
  - destruct (loaded st); [discriminate|].
    destruct (decide (length results = length (loading st))); [|discriminate].
    destruct (phase st) eqn:Hphase.
    + destruct (Promise_all results).
      * intros [= <-]. destruct Hinv as [Hsub Hdis]. split;
          cbn [subscribed disposers phase pending isDisposed].
        -- rewrite Hsub, Hphase. reflexivity.
        -- exact Hdis.
      * intros [= <-]. apply subscribe_begin_inv.
        -- destruct Hinv as [Hsub Hdis]. split;
             cbn [set_loaded subscribed disposers phase pending isDisposed];
             [exact Hsub|exact Hdis].
        -- cbn [set_loaded phase]. rewrite Hphase. reflexivity.
    + intros [= <-]. destruct Hinv as [Hsub Hdis]. split;
        cbn [set_loaded subscribed disposers phase pending isDisposed];
        [exact Hsub|exact Hdis].
    + intros [= <-]. destruct Hinv as [Hsub Hdis]. split;
        cbn [set_loaded subscribed disposers phase pending isDisposed];
        [exact Hsub|exact Hdis].
  - destruct (phase st) eqn:Hphase; try discriminate.
    intros [= <-]. apply subscribe_resume_inv; assumption.
  - intros [= <-]. apply unsubscribe_inv. exact Hinv.
Qed.

Lemma subscribeStores_inv (options : StoreOptions) :
  stores_inv (subscribeStores stores options).
Proof.
  unfold subscribeStores. destruct (waitUntilLoaded options).
  - split; [reflexivity|discriminate].
  - apply subscribe_begin_inv; [split; [reflexivity|discriminate]|reflexivity].
Qed.

Lemma stores_run_inv (ls : list StoresLabel) : forall st st',
  stores_inv st -> stores_run vars stores st ls = Some st' -> stores_inv st'.
Proof.
  induction ls as [|l ls IH]; intros st st' Hinv; cbn [stores_run].
  - intros [= <-]. exact Hinv.
  - destruct (stores_step vars stores st l) as [st1|] eqn:Hstep; [|discriminate].
    apply IH. eapply stores_step_inv; eassumption.
Qed.

Lemma stores_step_disposed st st' (l : StoresLabel) :
  stores_step vars stores st l = Some st' ->
  isDisposed st = true \/ l = Unsubscribe -> isDisposed st' = true.
Proof.
  destruct l as [results| |]; cbn [stores_step].
  - destruct (loaded st); [discriminate|].
    destruct (decide _); [|discriminate].
    intros Hstep [Hd|?]; [|discriminate].
    destruct (phase st); [destruct (Promise_all results)| |];
      injection Hstep as <-; try exact Hd.
    unfold subscribe_begin. cbn [set_loaded isDisposed]. rewrite Hd. reflexivity.
  - destruct (phase st); try discriminate.
    intros [= <-] [Hd|?]; [|discriminate].
    unfold subscribe_resume. cbn [isDisposed]. rewrite Hd. reflexivity.
  - intros [= <-] _. reflexivity.
Qed.

Lemma stores_run_disposed (ls : list StoresLabel) : forall st st',
  stores_run vars stores st ls = Some st' ->
  isDisposed st = true \/ In Unsubscribe ls -> isDisposed st' = true.
Proof.
  induction ls as [|l ls IH]; intros st st'; cbn [stores_run].
  - intros [= <-] [Hd|[]]. exact Hd.
  - destruct (stores_step vars stores st l) as [st1|] eqn:Hstep; [|discriminate].
    intros Hrun Hcase. apply (IH st1 st' Hrun).
    destruct Hcase as [Hd|[->|Hin]].
    + left. eapply stores_step_disposed; [exact Hstep|left; exact Hd].
    + left. eapply stores_step_disposed; [exact Hstep|right; reflexivity].
    + right. exact Hin.
Qed.

Lemma waiting_step st st' (l : StoresLabel) :
  waiting st -> stores_step vars stores st l = Some st' ->
  waiting st' \/
  (exists results, l = LoadingSettled results /\
     ((exists error, Promise_all results = inl error) -> given_up st')).
Proof.
  intros (Hl & Hp & Hs & Hd). destruct l as [results| |]; cbn [stores_step].
  - rewrite Hl, Hp. destruct (decide _); [|discriminate].
    intros Hstep. right. exists results. split; [reflexivity|].
    intros [error Herr]. rewrite Herr in Hstep. injection Hstep as <-.
    unfold given_up. cbn [loaded phase subscribed disposers st_logger log log_calls].
    repeat split; try assumption. apply in_or_app. right. left. reflexivity.
  - rewrite Hp. discriminate.
  - intros [= <-]. left. unfold waiting.
    cbn [unsubscribe loaded phase subscribed disposers]. rewrite Hd.
    repeat split; assumption.
Qed.

Lemma given_up_step st st' (l : StoresLabel) :
  given_up st -> stores_step vars stores st l = Some st' -> given_up st'.
Proof.
  intros (Hl & Hp & Hs & Hd & Hlog). destruct l as [results| |]; cbn [stores_step].
  - rewrite Hl. discriminate.
  - rewrite Hp. discriminate.
  - intros [= <-]. unfold given_up.
    cbn [unsubscribe loaded phase subscribed disposers st_logger]. rewrite Hd.
    repeat split; assumption.
Qed.

Lemma given_up_run (ls : list StoresLabel) : forall st st',
  given_up st -> stores_run vars stores st ls = Some st' -> given_up st'.
Proof.
  induction ls as [|l ls IH]; intros st st' Hg; cbn [stores_run].
  - intros [= <-]. exact Hg.
  - destruct (stores_step vars stores st l) as [st1|] eqn:Hstep; [|discriminate].
    apply IH. eapply given_up_step; eassumption.
Qed.

Lemma waiting_run (pre : list StoresLabel) :
  forall st st' (results : list (js_error + unit)) (error : js_error)
         (more : list StoresLabel),
  waiting st -> Promise_all results = inl error ->
  stores_run vars stores st (pre ++ LoadingSettled results :: more)%list = Some st' ->
  given_up st'.
Proof.
  induction pre as [|l pre IH]; intros st st' results error more Hw Herr;
    cbn [app stores_run].
  - destruct (stores_step vars stores st (LoadingSettled results)) as [st1|] eqn:Hstep;
      [|discriminate].
    destruct (waiting_step st st1 _ Hw Hstep) as [(Hl & _)|(r & [= <-] & Hg)].
    + exfalso. revert Hstep. cbn [stores_step]. destruct Hw as (Hl0 & Hp0 & _).
      rewrite Hl0, Hp0, Herr. destruct (decide _); [|discriminate].
      intros [= <-]. discriminate Hl.
    + apply given_up_run. apply Hg. exists error. exact Herr.
  - destruct (stores_step vars stores st l) as [st1|] eqn:Hstep; [|discriminate].
    destruct (waiting_step st st1 _ Hw Hstep) as [Hw1|(r & -> & Hg)].
    + apply (IH st1 st' results error more Hw1 Herr).
    + intros Hrun.
      exfalso. revert Hstep. cbn [stores_step]. destruct Hw as (Hl0 & Hp0 & _).
      rewrite Hl0, Hp0. destruct (decide _); [|discriminate].
      intros Hstep.
      assert (Hloaded : loaded st1 = true).
      { destruct (Promise_all r); injection Hstep as <-; [reflexivity|].
        unfold subscribe_begin. cbn [set_loaded isDisposed].
        destruct (isDisposed st); reflexivity. }
      clear -Hrun Hloaded. revert st1 Hrun Hloaded.
      induction pre as [|l pre IHpre]; intros st1; cbn [app stores_run stores_step].
      * intros Hrun Hloaded. rewrite Hloaded in Hrun. discriminate.
      * destruct (stores_step vars stores st1 l) as [st2|] eqn:Hstep; [|discriminate].
        intros Hrun Hloaded. apply (IHpre st2 Hrun).
        revert Hstep. destruct l as [r2| |]; cbn [stores_step].
        -- rewrite Hloaded. discriminate.
        -- destruct (phase st1); try discriminate. intros [= <-].
           unfold subscribe_resume. cbn [isDisposed loaded].
           destruct (isDisposed st1); exact Hloaded.
        -- intros [= <-]. exact Hloaded.
Qed.

(** C7, as amended. With [waitUntilLoaded], if a preload fails, the
    failure is handed to the log and no store is subscribed, whatever
    happens next. Without [waitUntilLoaded], every store is subscribed at
    once and the settling of the preloads changes nothing. In both cases,
    once the returned [unsubscribe] has been called, no store is
    subscribed, or [subscribe()] still waits and no store is subscribed as
    soon as it resumes. *)
Theorem subscribeStores_guards :
  (forall (with_preload : bool) (pre more : list StoresLabel)
          (results : list (js_error + unit)) (error : js_error) st,
      Promise_all results = inl error ->
      stores_run vars stores
        (subscribeStores stores {| preload := with_preload; waitUntilLoaded := true |})
        (pre ++ LoadingSettled results :: more)%list = Some st ->
      In loading_failed (log_calls (st_logger st)) /\ subscribed st = []) /\
  (forall (with_preload : bool) (results : list (js_error + unit)),
      let st0 := subscribeStores stores
                   {| preload := with_preload; waitUntilLoaded := false |} in
      subscribed st0 = stores /\
      (length results = length (loading st0) ->
       stores_step vars stores st0 (LoadingSettled results) = Some (set_loaded st0))) /\
  (forall (options : StoreOptions) (ls : list StoresLabel) st,
      stores_run vars stores (subscribeStores stores options) ls = Some st ->
      In Unsubscribe ls ->
      match phase st with
      | AwaitSubscribe _ =>
          exists st', stores_step vars stores st SubscribeResumed = Some st' /\
                      phase st' = StoresSettled /\ subscribed st' = []
      | _ => subscribed st = []
      end).
Proof.
  split; [|split].
  - intros with_preload pre more results error st Herr Hrun.
    assert (Hg : given_up st).
    { eapply waiting_run; [|exact Herr|exact Hrun].
      unfold subscribeStores. cbn [waitUntilLoaded]. repeat split. }
    destruct Hg as (_ & _ & Hs & _ & Hlog). split; assumption.
  - intros with_preload results st0. split; [reflexivity|].
    intros Hlen. cbn [stores_step]. subst st0.
    unfold subscribeStores in *. cbn [waitUntilLoaded] in *.
    unfold subscribe_begin in *. cbn [isDisposed loaded loading phase] in *.
    rewrite decide_True by exact Hlen. reflexivity.
  - intros options ls st Hrun Hin.
    pose proof (stores_run_inv ls _ _ (subscribeStores_inv options) Hrun) as [Hsub Hdis].
    pose proof (stores_run_disposed ls _ _ Hrun (or_intror Hin)) as Hd.
    specialize (Hdis Hd). rewrite Hdis in Hsub. cbn [app] in Hsub.
    destruct (phase st) as [|unsubscribeList|] eqn:Hphase; cbn [pending] in Hsub;
      try exact Hsub.
    eexists. cbn [stores_step]. rewrite Hphase. split; [reflexivity|].
    unfold subscribe_resume. cbn [isDisposed]. rewrite Hd.
    split; [reflexivity|].
    cbn [unsubscribe subscribed disposers]. rewrite Hdis, Hsub. cbn [app].
    rewrite <- (app_nil_r unsubscribeList) at 2. apply remove_prefix.
Qed.

End StoresFacts.

Lemma subscribeStores_guards_witness :
  (exists st,
      stores_run sample_vars ["pods-store"; "nodes-store"]
        (subscribeStores ["pods-store"; "nodes-store"] default_options)
        ([Unsubscribe] ++ LoadingSettled [inr tt; inl (JsError "timeout")] :: [])%list
      = Some st /\
      In loading_failed (log_calls (st_logger st)) /\ subscribed st = []) /\
  (exists st,
      stores_run sample_vars ["pods-store"]
        (subscribeStores ["pods-store"] {| preload := true; waitUntilLoaded := false |})
        [Unsubscribe] = Some st /\
      match phase st with
      | AwaitSubscribe _ =>
          exists st', stores_step sample_vars ["pods-store"] st SubscribeResumed = Some st' /\
                      phase st' = StoresSettled /\ subscribed st' = []
      | _ => subscribed st = []
      end).
Proof.
  split.
  - eexists. split; [reflexivity|].
    apply (proj1 (subscribeStores_guards sample_vars ["pods-store"; "nodes-store"])
             true [Unsubscribe] [] [inr tt; inl (JsError "timeout")] (JsError "timeout")).
    + reflexivity.
    + reflexivity.
  - eexists. split; [reflexivity|].
    apply (proj2 (proj2 (subscribeStores_guards sample_vars ["pods-store"]))
             {| preload := true; waitUntilLoaded := false |} [Unsubscribe]).
    + reflexivity.
    + left. reflexivity.
Defined.

(** C7 as it is written fails without [waitUntilLoaded]: a preload fails,
    nothing is logged, and the store is subscribed. *)
Lemma subscribeStores_without_waiting :
  option_map (fun st => (subscribed st, log_calls (st_logger st), phase st))
    (stores_run sample_vars ["pods-store"]
       (subscribeStores ["pods-store"] {| preload := true; waitUntilLoaded := false |})
       [LoadingSettled [inl (JsError "timeout")]; SubscribeResumed])
  = Some (["pods-store"], [], StoresSettled).
Proof. reflexivity. Qed.

(** ** The connection manager *)

Section ConnectionFacts.
Context {Api Store : Type} `{Countable Api}.
Variable vars : Vars.
Variable am : @ApiManager Api Store.
Variable JSON_parse : string -> option json.
Implicit Types (c : @Conn Api Store _ _) (s : CallState).


Lemma in_try_await i (part : M Conn (option CallState)) c c1 s :
  part c = (inr (Some s), c1) -> in_try vars i part c = set_call i s c1.
Proof. intros Hp. unfold in_try. rewrite Hp. reflexivity. Qed.

Lemma in_try_leave i (part : M Conn (option CallState)) c c1 :
  part c = (inr None, c1) ->
  in_try vars i part c
  = set_call i (Settled (inr tt)) (snd (set_isConnected false c1)).
Proof. intros Hp. unfold in_try. rewrite Hp. reflexivity. Qed.

Lemma in_try_throw i (part : M Conn (option CallState)) c c1 (e : js_error) :
  part c = (inl e, c1) ->
  in_try vars i part c
  = set_call i (Settled (inr tt))
      (snd (set_isConnected false (snd (this_log vars (LogError e) c1)))).
Proof. intros Hp. unfold in_try. rewrite Hp. reflexivity. Qed.

Lemma set_call_present i s c (l : list CallState) :
  calls c = l -> i < length l -> calls (set_call i s c) = <[i := s]> l.
Proof.
  intros <- Hi. cbn [set_call calls]. rewrite decide_True by exact Hi. reflexivity.
Qed.

Lemma set_call_new i s c (l : list CallState) :
  calls c = l -> i = length l -> calls (set_call i s c) = (l ++ [s])%list.
Proof.
  intros <- ->. cbn [set_call calls]. rewrite decide_False by lia. reflexivity.
Qed.

Ltac conn_simpl :=
  unfold in_try, disconnect, connect_catch, connect_finally, try_finally, try_catch,
         this_log, set_isConnected, set_reader, cancel_reader, abort, next_requestId,
         this_requestId, set_call;
  run_m;
  cbn [calls requestId reader isConnected dispatcher logger cancelled aborted
       dispatched fst snd sum_map log_calls log option_list].

(** The parts of [connect] between two [await]s, in closed form. *)
Lemma disconnect_eq c :
  disconnect c
  = (inr tt, {| requestId := requestId c; reader := None; isConnected := false;
                dispatcher := dispatcher c; logger := logger c; calls := calls c;
                cancelled := (cancelled c ++ option_list (reader c))%list;
                aborted := aborted c; dispatched := dispatched c |}).
Proof.
  conn_simpl. destruct (reader c); cbn [option_list]; rewrite ?app_nil_r; reflexivity.
Qed.

Lemma connect_fetched_eq (i : nat) (rid : Z) (has_body : bool) c :
  connect_fetched i rid has_body c
  = if negb (requestId c =? rid)%Z then
      (inr None,
       {| requestId := requestId c; reader := reader c; isConnected := isConnected c;
          dispatcher := dispatcher c; logger := logger c; calls := calls c;
          cancelled := cancelled c; aborted := (aborted c ++ [i])%list;
          dispatched := dispatched c |})
    else if has_body then
      (inr (Some (AwaitRead rid EmptyString)),
       {| requestId := requestId c; reader := Some i; isConnected := true;
          dispatcher := dispatcher c; logger := logger c; calls := calls c;
          cancelled := cancelled c; aborted := aborted c;
          dispatched := dispatched c |})
    else (inl TypeError, c).
Proof.
  unfold connect_fetched. conn_simpl.
  destruct (negb (requestId c =? rid)%Z); [reflexivity|].
  destruct has_body; reflexivity.
Qed.

Lemma connect_read_eq (i : nat) (rid : Z) (jsonBuffer value : string) c :
  connect_read am JSON_parse i rid jsonBuffer value c
  = let result := read_turn JSON_parse am jsonBuffer value (dispatcher c) in
    (inr (Some (AwaitRead rid (fst result))),
     {| requestId := requestId c; reader := reader c; isConnected := isConnected c;
        dispatcher := snd result; logger := logger c; calls := calls c;
        cancelled := cancelled c; aborted := aborted c;
        dispatched :=
          (dispatched c
           ++ map (fun m => (i, m))
                  (drop (length (emitted (dispatcher c))) (emitted (snd result))))%list |}).
Proof.
  unfold connect_read, this_processBuffer, read_turn. run_m.
  destruct (processBuffer JSON_parse am (split_lines (jsonBuffer ++ value)) (dispatcher c));
    reflexivity.
Qed.

(** What one step does, label by label. *)
Lemma step_shape c (l : Label) c' :
  step vars am JSON_parse c l = Some c' ->
  match l with
  | CallConnect onLine apis =>
      let idle := negb onLine || (length apis =? 0)%nat in
      calls c' = (calls c ++ [if idle then Settled (inr tt)
                              else AwaitFetch (requestId c + 1)])%list /\
      requestId c' = (if idle then requestId c else requestId c + 1)%Z /\
      reader c' = None /\ isConnected c' = false /\
      cancelled c' = (cancelled c ++ option_list (reader c))%list /\
      aborted c' = aborted c /\
      dispatched c' = dispatched c /\ dispatcher c' = dispatcher c /\
      log_calls (logger c')
      = (log_calls (logger c) ++ if idle then [] else [LogText "Connecting"])%list
  | CallDisconnect =>
      calls c' = calls c /\ requestId c' = requestId c /\
      reader c' = None /\ isConnected c' = false /\
      cancelled c' = (cancelled c ++ option_list (reader c))%list /\
      aborted c' = aborted c /\
      dispatched c' = dispatched c /\ dispatcher c' = dispatcher c /\
      logger c' = logger c
  | FetchResolved i has_body =>
      exists rid, calls c !! i = Some (AwaitFetch rid) /\
      requestId c' = requestId c /\ cancelled c' = cancelled c /\
      dispatched c' = dispatched c /\ dispatcher c' = dispatcher c /\
      if negb (requestId c =? rid)%Z then
        calls c' = <[i := Settled (inr tt)]> (calls c) /\
        aborted c' = (aborted c ++ [i])%list /\
        reader c' = reader c /\ isConnected c' = false /\ logger c' = logger c
      else if has_body then
        calls c' = <[i := AwaitRead rid EmptyString]> (calls c) /\
        aborted c' = aborted c /\
        reader c' = Some i /\ isConnected c' = true /\ logger c' = logger c
      else
        calls c' = <[i := Settled (inr tt)]> (calls c) /\
        aborted c' = aborted c /\
        reader c' = reader c /\ isConnected c' = false /\
        logger c' = log vars (LogError TypeError) (logger c)
  | FetchRejected i error =>
      exists rid, calls c !! i = Some (AwaitFetch rid) /\
      calls c' = <[i := Settled (inr tt)]> (calls c) /\
      requestId c' = requestId c /\
      cancelled c' = cancelled c /\ aborted c' = aborted c /\
      reader c' = reader c /\ isConnected c' = false /\
      dispatched c' = dispatched c /\ dispatcher c' = dispatcher c /\
      logger c' = log vars (LogError error) (logger c)
  | ReadValue i value =>
      exists rid jsonBuffer, calls c !! i = Some (AwaitRead rid jsonBuffer) /\
      let result := read_turn JSON_parse am jsonBuffer value (dispatcher c) in
      calls c' = <[i := AwaitRead rid (fst result)]> (calls c) /\
      requestId c' = requestId c /\
      cancelled c' = cancelled c /\ aborted c' = aborted c /\
      reader c' = reader c /\ isConnected c' = isConnected c /\
      dispatcher c' = snd result /\
      dispatched c'
      = (dispatched c
         ++ map (fun m => (i, m))
                (drop (length (emitted (dispatcher c))) (emitted (snd result))))%list /\
      logger c' = logger c
  | ReadDone i =>
      exists rid jsonBuffer, calls c !! i = Some (AwaitRead rid jsonBuffer) /\
      calls c' = <[i := Settled (inr tt)]> (calls c) /\
      requestId c' = requestId c /\
      cancelled c' = cancelled c /\ aborted c' = aborted c /\
      reader c' = reader c /\ isConnected c' = false /\
      dispatched c' = dispatched c /\ dispatcher c' = dispatcher c /\
      logger c' = logger c
  | ReadRejected i error =>
      exists rid jsonBuffer, calls c !! i = Some (AwaitRead rid jsonBuffer) /\
      calls c' = <[i := Settled (inr tt)]> (calls c) /\
      requestId c' = requestId c /\
      cancelled c' = cancelled c /\ aborted c' = aborted c /\
      reader c' = reader c /\ isConnected c' = false /\
      dispatched c' = dispatched c /\ dispatcher c' = dispatcher c /\
      logger c' = log vars (LogError error) (logger c)
  end.
Proof.
  destruct l as [onLine apis| |i has_body|i error|i value|i|i error]; cbn [step].
  - intros [= <-]. unfold connect. rewrite disconnect_eq.
    destruct (negb onLine || (length apis =? 0)%nat) eqn:Hidle; cbn zeta.
    + repeat split; try reflexivity.
      * apply set_call_new; reflexivity.
      * conn_simpl. symmetry. apply app_nil_r.
    + repeat split; try reflexivity. apply set_call_new; reflexivity.
  - intros [= <-]. repeat split; try reflexivity.
    cbn [cancelled]. destruct (reader c); cbn [option_list]; rewrite ?app_nil_r; reflexivity.
  - destruct (calls c !! i) as [[rid| |]|] eqn:Hcall; try discriminate.
    intros [= <-]. exists rid. split; [reflexivity|].
    pose proof (lookup_lt_Some _ _ _ Hcall) as Hlt.
    pose proof (connect_fetched_eq i rid has_body c) as Hpart.
    destruct (negb (requestId c =? rid)%Z) eqn:Hstale; [|destruct has_body].
    + rewrite (in_try_leave _ _ _ _ Hpart).
      repeat split; try reflexivity. apply set_call_present; [reflexivity|exact Hlt].
    + rewrite (in_try_await _ _ _ _ _ Hpart).
      repeat split; try reflexivity. apply set_call_present; [reflexivity|exact Hlt].
    + rewrite (in_try_throw _ _ _ _ _ Hpart).
      repeat split; try reflexivity. apply set_call_present; [reflexivity|exact Hlt].
  - destruct (calls c !! i) as [[rid| |]|] eqn:Hcall; try discriminate.
    intros [= <-]. exists rid. split; [reflexivity|].
    pose proof (lookup_lt_Some _ _ _ Hcall) as Hlt.
    rewrite (in_try_throw i (throw error) c c error eq_refl).
    repeat split; try reflexivity. apply set_call_present; [reflexivity|exact Hlt].
  - destruct (calls c !! i) as [[|rid jsonBuffer|]|] eqn:Hcall; try discriminate.
    intros [= <-]. exists rid, jsonBuffer. split; [reflexivity|].
    pose proof (lookup_lt_Some _ _ _ Hcall) as Hlt.
    pose proof (connect_read_eq i rid jsonBuffer value c) as Hpart. cbn zeta in Hpart.
    rewrite (in_try_await _ _ _ _ _ Hpart). cbn zeta.
    repeat split; try reflexivity. apply set_call_present; [reflexivity|exact Hlt].
  - destruct (calls c !! i) as [[|rid jsonBuffer|]|] eqn:Hcall; try discriminate.
    intros [= <-]. exists rid, jsonBuffer. split; [reflexivity|].
    pose proof (lookup_lt_Some _ _ _ Hcall) as Hlt.
    rewrite (in_try_leave i (mret None) c c eq_refl).
    repeat split; try reflexivity. apply set_call_present; [reflexivity|exact Hlt].
  - destruct (calls c !! i) as [[|rid jsonBuffer|]|] eqn:Hcall; try discriminate.
    intros [= <-]. exists rid, jsonBuffer. split; [reflexivity|].
    pose proof (lookup_lt_Some _ _ _ Hcall) as Hlt.
    rewrite (in_try_throw i (throw error) c c error eq_refl).
    repeat split; try reflexivity. apply set_call_present; [reflexivity|exact Hlt].
Qed.

(** A call that has left its [fetch] never waits for it again. *)
Lemma step_not_fetching c (l : Label) c' k s :
  step vars am JSON_parse c l = Some c' -> calls c !! k = Some s -> not_fetching s ->
  exists s', calls c' !! k = Some s' /\ not_fetching s'.
Proof.
  intros Hstep Hk Hs. pose proof (step_shape _ _ _ Hstep) as Hshape.
  clear Hstep. rename Hshape into Hstep.
  assert (Hins : forall i s1 s2, calls c !! i = Some s1 -> not_fetching s2 ->
            exists s', <[i := s2]> (calls c) !! k = Some s' /\ not_fetching s').
  { intros i s1 s2 Hi Hs2. destruct (decide (i = k)) as [->|Hik].
    - exists s2. split; [|exact Hs2].
      apply list_lookup_insert_eq. eapply lookup_lt_Some. exact Hi.
    - exists s. split; [|exact Hs]. rewrite list_lookup_insert_ne by exact Hik. exact Hk. }
  destruct l as [onLine apis| |i has_body|i error|i value|i|i error].
  - destruct Hstep as (Hcalls & _). rewrite Hcalls. exists s. split; [|exact Hs].
    apply lookup_app_l_Some. exact Hk.
  - destruct Hstep as (Hcalls & _). rewrite Hcalls. eauto.
  - destruct Hstep as (rid & Hi & _ & _ & _ & _ & Hcase).
    destruct (negb _); [|destruct has_body]; destruct Hcase as (-> & _);
      eapply Hins; try exact Hi; intros ?; discriminate.
  - destruct Hstep as (rid & Hi & -> & _). eapply Hins; [exact Hi|]. intros ?; discriminate.
  - destruct Hstep as (rid & buf & Hi & Hrest). cbn zeta in Hrest.
    destruct Hrest as (-> & _). eapply Hins; [exact Hi|]. intros ?; discriminate.
  - destruct Hstep as (rid & buf & Hi & -> & _).
    eapply Hins; [exact Hi|]. intros ?; discriminate.
  - destruct Hstep as (rid & buf & Hi & -> & _).
    eapply Hins; [exact Hi|]. intros ?; discriminate.
Qed.

(** A settled call stays as it settled. *)
Lemma step_settled_stays c (l : Label) c' k (o : js_error + unit) :
  step vars am JSON_parse c l = Some c' -> calls c !! k = Some (Settled o) ->
  calls c' !! k = Some (Settled o).
Proof.
  intros Hstep Hk. pose proof (step_shape _ _ _ Hstep) as Hshape.
  clear Hstep. rename Hshape into Hstep.
  assert (Hins : forall i s1 s2, calls c !! i = Some s1 -> s1 <> Settled o ->
            <[i := s2]> (calls c) !! k = Some (Settled o)).
  { intros i s1 s2 Hi Hs1. rewrite list_lookup_insert_ne; [exact Hk|].
    intros ->. rewrite Hk in Hi. injection Hi as <-. contradiction. }
  destruct l as [onLine apis| |i has_body|i error|i value|i|i error].
  - destruct Hstep as (Hcalls & _). rewrite Hcalls. apply lookup_app_l_Some. exact Hk.
  - destruct Hstep as (Hcalls & _). rewrite Hcalls. exact Hk.
  - destruct Hstep as (rid & Hi & _ & _ & _ & _ & Hcase).
    destruct (negb _); [|destruct has_body]; destruct Hcase as (-> & _);
      eapply Hins; try exact Hi; discriminate.
  - destruct Hstep as (rid & Hi & -> & _). eapply Hins; [exact Hi|discriminate].
  - destruct Hstep as (rid & buf & Hi & Hrest). cbn zeta in Hrest.
    destruct Hrest as (-> & _). eapply Hins; [exact Hi|discriminate].
  - destruct Hstep as (rid & buf & Hi & -> & _). eapply Hins; [exact Hi|discriminate].
  - destruct Hstep as (rid & buf & Hi & -> & _). eapply Hins; [exact Hi|discriminate].
Qed.

(** A message is recorded for the call that read it, which waits in its
    read loop. *)
Lemma step_dispatched c (l : Label) c' k (m : IKubeWatchMessage) :
  step vars am JSON_parse c l = Some c' -> In (k, m) (dispatched c') ->
  In (k, m) (dispatched c) \/ exists rid jsonBuffer, calls c !! k = Some (AwaitRead rid jsonBuffer).
Proof.
  intros Hstep Hin. pose proof (step_shape _ _ _ Hstep) as Hshape.
  clear Hstep. rename Hshape into Hstep.
  destruct l as [onLine apis| |i has_body|i error|i value|i|i error].
  - destruct Hstep as (_ & _ & _ & _ & _ & _ & Hd & _). rewrite Hd in Hin. auto.
  - destruct Hstep as (_ & _ & _ & _ & _ & _ & Hd & _). rewrite Hd in Hin. auto.
  - destruct Hstep as (rid & _ & _ & _ & Hd & _). rewrite Hd in Hin. auto.
  - destruct Hstep as (rid & _ & _ & _ & _ & _ & _ & _ & Hd & _). rewrite Hd in Hin. auto.
  - destruct Hstep as (rid & buf & Hi & Hrest). cbn zeta in Hrest.
    destruct Hrest as (_ & _ & _ & _ & _ & _ & _ & Hd & _). rewrite Hd in Hin.
    apply in_app_or in Hin as [Hin|Hin]; [auto|].
    apply in_map_iff in Hin as (m' & [= <- <-] & _). right. eauto.
  - destruct Hstep as (rid & buf & _ & _ & _ & _ & _ & _ & _ & Hd & _).
    rewrite Hd in Hin. auto.
  - destruct Hstep as (rid & buf & _ & _ & _ & _ & _ & _ & _ & Hd & _).
    rewrite Hd in Hin. auto.
Qed.

Lemma step_dispatched_after_fetch c (l : Label) c' :
  dispatched_after_fetch c -> step vars am JSON_parse c l = Some c' ->
  dispatched_after_fetch c'.
Proof.
  intros Hinv Hstep k m Hin.
  destruct (step_dispatched _ _ _ _ _ Hstep Hin) as [Hold|(rid & buf & Hk)].
  - destruct (Hinv k m Hold) as (s & Hs & Hnf). eapply step_not_fetching; eassumption.
  - eapply step_not_fetching; [exact Hstep|exact Hk|]. intros ?; discriminate.
Qed.

Lemma run_dispatched_after_fetch (ls : list Label) : forall c c',
  dispatched_after_fetch c -> run vars am JSON_parse c ls = Some c' ->
  dispatched_after_fetch c'.
Proof.
  induction ls as [|l ls IH]; intros c c' Hinv; cbn [run].
  - intros [= <-]. exact Hinv.
  - destruct (step vars am JSON_parse c l) as [c1|] eqn:Hstep; [|discriminate].
    apply IH. eapply step_dispatched_after_fetch; eassumption.
Qed.

(** A call that has settled without a message hands none over later. *)
Lemma run_settled_silent (ls : list Label) : forall c c' k (o : js_error + unit),
  calls c !! k = Some (Settled o) ->
  (forall m : IKubeWatchMessage, ~ In (k, m) (dispatched c)) ->
  run vars am JSON_parse c ls = Some c' ->
  calls c' !! k = Some (Settled o) /\
  (forall m : IKubeWatchMessage, ~ In (k, m) (dispatched c')).
Proof.
  induction ls as [|l ls IH]; intros c c' k o Hk Hnone; cbn [run].
  - intros [= <-]. split; assumption.
  - destruct (step vars am JSON_parse c l) as [c1|] eqn:Hstep; [|discriminate].
    apply IH.
    + eapply step_settled_stays; eassumption.
    + intros m Hin. destruct (step_dispatched _ _ _ _ _ Hstep Hin) as [Hold|(rid & buf & Hr)].
      * exact (Hnone m Hold).
      * rewrite Hk in Hr. discriminate.
Qed.

Lemma aborted_stays (ls : list Label) : forall c c' i,
  In i (aborted c) -> run vars am JSON_parse c ls = Some c' -> In i (aborted c').
Proof.
  induction ls as [|l ls IH]; intros c c' i Hin; cbn [run].
  - intros [= <-]. exact Hin.
  - destruct (step vars am JSON_parse c l) as [c1|] eqn:Hstep; [|discriminate].
    apply IH. pose proof (step_shape _ _ _ Hstep) as Hshape.
    clear Hstep. rename Hshape into Hstep.
    destruct l as [onLine apis| |j has_body|j error|j value|j|j error].
    + destruct Hstep as (_ & _ & _ & _ & _ & -> & _). exact Hin.
    + destruct Hstep as (_ & _ & _ & _ & _ & -> & _). exact Hin.
    + destruct Hstep as (rid & _ & _ & _ & _ & _ & Hcase).
      destruct (negb _); [|destruct has_body]; destruct Hcase as (_ & -> & _);
        [apply in_or_app; left| |]; exact Hin.
    + destruct Hstep as (rid & _ & _ & _ & _ & -> & _). exact Hin.
    + destruct Hstep as (rid & buf & _ & Hrest). cbn zeta in Hrest.
      destruct Hrest as (_ & _ & _ & -> & _). exact Hin.
    + destruct Hstep as (rid & buf & _ & _ & _ & _ & -> & _). exact Hin.
    + destruct Hstep as (rid & buf & _ & _ & _ & _ & -> & _). exact Hin.
Qed.

(** The request id of a call that waits for its response is never above
    the current one: it is no longer current exactly when a later call of
    [connect] has taken a newer one. *)
Lemma fetching_id_not_above (ls : list Label) : forall c c',
  (forall i rid, calls c !! i = Some (AwaitFetch rid) -> (rid <= requestId c)%Z) ->
  run vars am JSON_parse c ls = Some c' ->
  forall i rid, calls c' !! i = Some (AwaitFetch rid) -> (rid <= requestId c')%Z.
Proof.
  induction ls as [|l ls IH]; intros c c' Hinv; cbn [run].
  - intros [= <-]. exact Hinv.
  - destruct (step vars am JSON_parse c l) as [c1|] eqn:Hstep; [|discriminate].
    apply IH. intros i rid Hi.
    pose proof (step_shape _ _ _ Hstep) as Hshape.
    assert (Hins : forall j s, calls c1 = <[j := s]> (calls c) -> not_fetching s ->
              requestId c1 = requestId c -> (rid <= requestId c1)%Z).
    { intros j s Hcalls Hs Hid. rewrite Hcalls in Hi.
      destruct (decide (j = i)) as [->|Hji].
      - rewrite list_lookup_insert_eq in Hi.
        + injection Hi as ->. exfalso. exact (Hs rid eq_refl).
        + apply lookup_lt_Some in Hi. rewrite length_insert in Hi. exact Hi.
      - rewrite list_lookup_insert_ne in Hi by exact Hji. rewrite Hid. eauto. }
    destruct l as [onLine apis| |j has_body|j error|j value|j|j error].
    + destruct Hshape as (Hcalls & Hid & _). rewrite Hcalls in Hi. rewrite Hid.
      destruct (decide (i < length (calls c))) as [Hlt|Hge].
      * rewrite lookup_app_l in Hi by exact Hlt. specialize (Hinv i rid Hi).
        destruct (negb onLine || _); lia.
      * rewrite lookup_app_r in Hi by lia.
        destruct (i - length (calls c)) as [|n]; [|destruct n; discriminate].
        cbn in Hi. destruct (negb onLine || _); [discriminate|].
        injection Hi as <-. lia.
    + destruct Hshape as (Hcalls & Hid & _). rewrite Hcalls in Hi. rewrite Hid. eauto.
    + destruct Hshape as (rid' & _ & Hid & _ & _ & _ & Hcase).
      destruct (negb _); [|destruct has_body]; destruct Hcase as (Hcalls & _);
        eapply Hins; try exact Hcalls; try exact Hid; intros ?; discriminate.
    + destruct Hshape as (rid' & _ & Hcalls & Hid & _).
      eapply Hins; [exact Hcalls| |exact Hid]. intros ?; discriminate.
    + destruct Hshape as (rid' & buf & _ & Hrest). cbn zeta in Hrest.
      destruct Hrest as (Hcalls & Hid & _).
      eapply Hins; [exact Hcalls| |exact Hid]. intros ?; discriminate.
    + destruct Hshape as (rid' & buf & _ & Hcalls & Hid & _).
      eapply Hins; [exact Hcalls| |exact Hid]. intros ?; discriminate.
    + destruct Hshape as (rid' & buf & _ & Hcalls & Hid & _).
      eapply Hins; [exact Hcalls| |exact Hid]. intros ?; discriminate.
Qed.

(** C1. Let the client reach a state in which call [i] of [connect] waits
    for its response with a request id that is no longer the current one:
    a later call has taken a newer id. When the response arrives, the call
    aborts its request and settles, resolved; no message is recorded for
    it, then or after any further steps: it never reads its body. *)
Theorem superseded_connect_dispatches_nothing
  (ls1 ls2 : list Label) c1 c2 (i : nat) (rid : Z) (has_body : bool) :
  run vars am JSON_parse conn_init ls1 = Some c1 ->
  calls c1 !! i = Some (AwaitFetch rid) ->
  requestId c1 <> rid ->
  run vars am JSON_parse c1 (FetchResolved i has_body :: ls2) = Some c2 ->
  (rid < requestId c1)%Z /\
  (forall m : IKubeWatchMessage, ~ In (i, m) (dispatched c2)) /\
  In i (aborted c2) /\
  calls c2 !! i = Some (Settled (inr tt)).
Proof.
  intros Hreach Hcall Hstale Hrun.
  assert (Hle : (rid <= requestId c1)%Z).
  { apply (fetching_id_not_above ls1 conn_init c1) with (i := i);
      [|exact Hreach|exact Hcall].
    intros k r Hk. cbn [calls conn_init] in Hk. rewrite lookup_nil in Hk.
    discriminate Hk. }
  split; [lia|]. clear Hle. cbn [run] in Hrun.
  destruct (step vars am JSON_parse c1 (FetchResolved i has_body)) as [c|] eqn:Hstep;
    [|discriminate Hrun].
  assert (Hinv : dispatched_after_fetch c1).
  { eapply run_dispatched_after_fetch; [|exact Hreach]. intros k m []. }
  assert (Hnone : forall m : IKubeWatchMessage, ~ In (i, m) (dispatched c1)).
  { intros m Hin. destruct (Hinv i m Hin) as (s & Hs & Hnf).
    rewrite Hcall in Hs. injection Hs as <-. exact (Hnf rid eq_refl). }
  pose proof (step_shape _ _ _ Hstep) as (rid' & Hcall' & _ & _ & Hd & _ & Hcase).
  rewrite Hcall in Hcall'. injection Hcall' as <-.
  assert (Hne : negb (requestId c1 =? rid)%Z = true).
  { apply negb_true_iff, Z.eqb_neq. exact Hstale. }
  rewrite Hne in Hcase. destruct Hcase as (Hcalls & Hab & _).
  assert (Hsettled : calls c !! i = Some (Settled (inr tt))).
  { rewrite Hcalls. apply list_lookup_insert_eq. eapply lookup_lt_Some. exact Hcall. }
  destruct (run_settled_silent ls2 c c2 i (inr tt) Hsettled) as [Hfinal Hsilent];
    [rewrite Hd; exact Hnone|exact Hrun|].
  split; [exact Hsilent|]. split; [|exact Hfinal].
  eapply aborted_stays; [|exact Hrun]. rewrite Hab. apply in_or_app. right. left. reflexivity.
Qed.


Lemma log_calls_log (message : LogMessage) (lg : Logger) :
  log_calls (log vars message lg) = (log_calls lg ++ [message])%list.
Proof. reflexivity. Qed.

(** A call settles with its promise resolved, and leaves [isConnected]
    false. *)
Lemma step_settles c (l : Label) c' k (o : js_error + unit) :
  step vars am JSON_parse c l = Some c' -> calls c' !! k = Some (Settled o) ->
  calls c !! k = Some (Settled o) \/ (o = inr tt /\ isConnected c' = false).
Proof.
  intros Hstep Hk. pose proof (step_shape _ _ _ Hstep) as Hshape.
  clear Hstep. rename Hshape into Hstep.
  assert (Hins : forall i s, calls c' = <[i := s]> (calls c) ->
            calls c !! k = Some (Settled o) \/ (i = k /\ s = Settled o)).
  { intros i s Hcalls. rewrite Hcalls in Hk. destruct (decide (i = k)) as [->|Hik].
    - right. split; [reflexivity|].
      rewrite list_lookup_insert_eq in Hk; [congruence|].
      apply lookup_lt_Some in Hk. rewrite length_insert in Hk. exact Hk.
    - left. rewrite list_lookup_insert_ne in Hk by exact Hik. exact Hk. }
  destruct l as [onLine apis| |i has_body|i error|i value|i|i error].
  - destruct Hstep as (Hcalls & _ & _ & Hconn & _). rewrite Hcalls in Hk.
    destruct (decide (k < length (calls c))) as [Hlt|Hge].
    + left. rewrite lookup_app_l in Hk by exact Hlt. exact Hk.
    + right. rewrite lookup_app_r in Hk by lia.
      destruct (k - length (calls c)) as [|n]; [|destruct n; discriminate].
      cbn in Hk. destruct (negb onLine || _); [|discriminate].
      injection Hk as <-. split; [reflexivity|exact Hconn].
  - destruct Hstep as (Hcalls & _). rewrite Hcalls in Hk. left. exact Hk.
  - destruct Hstep as (rid & Hi & _ & _ & _ & _ & Hcase).
    destruct (negb _); [|destruct has_body]; destruct Hcase as (Hcalls & _ & _ & Hconn & _);
      destruct (Hins _ _ Hcalls) as [Hold|[_ Hs]]; auto; try discriminate;
      injection Hs as <-; auto.
  - destruct Hstep as (rid & Hi & Hcalls & _ & _ & _ & _ & Hconn & _).
    destruct (Hins _ _ Hcalls) as [Hold|[_ Hs]]; auto. injection Hs as <-; auto.
  - destruct Hstep as (rid & buf & Hi & Hrest). cbn zeta in Hrest.
    destruct Hrest as (Hcalls & _).
    destruct (Hins _ _ Hcalls) as [Hold|[_ Hs]]; auto. discriminate.
  - destruct Hstep as (rid & buf & Hi & Hcalls & _ & _ & _ & _ & Hconn & _).
    destruct (Hins _ _ Hcalls) as [Hold|[_ Hs]]; auto. injection Hs as <-; auto.
  - destruct Hstep as (rid & buf & Hi & Hcalls & _ & _ & _ & _ & Hconn & _).
    destruct (Hins _ _ Hcalls) as [Hold|[_ Hs]]; auto. injection Hs as <-; auto.
Qed.

Lemma run_settled_resolved (ls : list Label) : forall c c',
  (forall k o, calls c !! k = Some (Settled o) -> o = inr tt) ->
  run vars am JSON_parse c ls = Some c' ->
  forall k o, calls c' !! k = Some (Settled o) -> o = inr tt.
Proof.
  induction ls as [|l ls IH]; intros c c' Hinv; cbn [run].
  - intros [= <-]. exact Hinv.
  - destruct (step vars am JSON_parse c l) as [c1|] eqn:Hstep; [|discriminate].
    apply IH. intros k o Hk.
    destruct (step_settles _ _ _ _ _ Hstep Hk) as [Hold|[-> _]]; [eauto|reflexivity].
Qed.

(** C8. A call of [connect] first disconnects: the reader in place is
    cancelled and forgotten, and [isConnected] is false. With no target or
    off line the call settles at once, resolved, with the request id and
    the log as they were. When its request fails, or a read fails, the
    call hands the error to the log and settles, resolved, with
    [isConnected] false. In every state that the client reaches, every
    settled call of [connect] is resolved. *)
Theorem connect_never_raises :
  (forall c (onLine : bool) (apis : list string),
      let c' := connect vars onLine apis c in
      step vars am JSON_parse c (CallConnect onLine apis) = Some c' /\
      (forall r, reader c = Some r -> In r (cancelled c')) /\
      reader c' = None /\ isConnected c' = false /\
      (negb onLine || (length apis =? 0)%nat = true ->
       calls c' = (calls c ++ [Settled (inr tt)])%list /\
       requestId c' = requestId c /\
       log_calls (logger c') = log_calls (logger c))) /\
  (forall c (i : nat) (rid : Z) (error : js_error),
      calls c !! i = Some (AwaitFetch rid) ->
      exists c', step vars am JSON_parse c (FetchRejected i error) = Some c' /\
        calls c' !! i = Some (Settled (inr tt)) /\ isConnected c' = false /\
        log_calls (logger c') = (log_calls (logger c) ++ [LogError error])%list) /\
  (forall c (i : nat) (rid : Z) (jsonBuffer : string) (error : js_error),
      calls c !! i = Some (AwaitRead rid jsonBuffer) ->
      exists c', step vars am JSON_parse c (ReadRejected i error) = Some c' /\
        calls c' !! i = Some (Settled (inr tt)) /\ isConnected c' = false /\
        log_calls (logger c') = (log_calls (logger c) ++ [LogError error])%list) /\
  (forall (ls : list Label) c (k : nat) (completion : js_error + unit),
      run vars am JSON_parse conn_init ls = Some c ->
      calls c !! k = Some (Settled completion) ->
      completion = inr tt).
Proof.
  split; [|split; [|split]].
  - intros c onLine apis c'. split; [reflexivity|].
    pose proof (step_shape c (CallConnect onLine apis) c' eq_refl)
      as (Hcalls & Hid & Hreader & Hconn & Hcancel & _ & _ & _ & Hlog).
    cbn zeta in *. split; [|split; [exact Hreader|split; [exact Hconn|]]].
    + intros r Hr. rewrite Hcancel, Hr. apply in_or_app. right. left. reflexivity.
    + intros Hidle. rewrite Hidle in *. rewrite app_nil_r in Hlog. auto.
  - intros c i rid error Hcall. eexists. split.
    + cbn [step]. rewrite Hcall. reflexivity.
    + match goal with |- context [in_try ?v ?i ?p ?c] => set (c' := in_try v i p c) end.
      assert (Hstep : step vars am JSON_parse c (FetchRejected i error) = Some c').
      { cbn [step]. rewrite Hcall. reflexivity. }
      pose proof (step_shape _ _ _ Hstep)
        as (rid' & _ & Hcalls & _ & _ & _ & _ & Hconn & _ & _ & Hlog).
      rewrite Hcalls, Hlog, log_calls_log. split; [|split; [exact Hconn|reflexivity]].
      apply list_lookup_insert_eq. eapply lookup_lt_Some. exact Hcall.
  - intros c i rid jsonBuffer error Hcall. eexists. split.
    + cbn [step]. rewrite Hcall. reflexivity.
    + match goal with |- context [in_try ?v ?i ?p ?c] => set (c' := in_try v i p c) end.
      assert (Hstep : step vars am JSON_parse c (ReadRejected i error) = Some c').
      { cbn [step]. rewrite Hcall. reflexivity. }
      pose proof (step_shape _ _ _ Hstep)
        as (rid' & buf' & _ & Hcalls & _ & _ & _ & _ & Hconn & _ & _ & Hlog).
      rewrite Hcalls, Hlog, log_calls_log. split; [|split; [exact Hconn|reflexivity]].
      apply list_lookup_insert_eq. eapply lookup_lt_Some. exact Hcall.
  - intros ls c k completion Hrun Hk.
    eapply (run_settled_resolved ls conn_init c); [|exact Hrun|exact Hk].
    intros k' o Hk'. discriminate Hk'.
Qed.

(** C9. Whenever a call of [connect] settles, [isConnected] is false
    right after. In particular, when the response of a superseded call
    arrives while the newest call is connected and reads (it holds the
    reader, which is not cancelled), the superseded call settles and
    leaves [isConnected] false, with the newest call still reading. *)
Theorem stale_connect_clears_isConnected :
  (forall c (l : Label) c' (k : nat) (completion : js_error + unit),
      step vars am JSON_parse c l = Some c' ->
      calls c' !! k = Some (Settled completion) ->
      calls c !! k <> Some (Settled completion) ->
      isConnected c' = false) /\
  (forall c (i j : nat) (rid : Z) (jsonBuffer : string) (has_body : bool),
      calls c !! i = Some (AwaitFetch rid) ->
      requestId c <> rid ->
      calls c !! j = Some (AwaitRead (requestId c) jsonBuffer) ->
      reader c = Some j ->
      ~ In j (cancelled c) ->
      isConnected c = true ->
      exists c', step vars am JSON_parse c (FetchResolved i has_body) = Some c' /\
        calls c' !! i = Some (Settled (inr tt)) /\
        isConnected c' = false /\
        calls c' !! j = Some (AwaitRead (requestId c') jsonBuffer) /\
        reader c' = Some j /\ ~ In j (cancelled c')).
Proof.
  split.
  - intros c l c' k completion Hstep Hk Hnot.
    destruct (step_settles _ _ _ _ _ Hstep Hk) as [Hold|[_ Hconn]];
      [contradiction|exact Hconn].
  - intros c i j rid jsonBuffer has_body Hi Hstale Hj Hreader Hlive Hconn.
    eexists. split.
    + cbn [step]. rewrite Hi. reflexivity.
    + match goal with |- context [in_try ?v ?i ?p ?c] => set (c' := in_try v i p c) end.
      assert (Hstep : step vars am JSON_parse c (FetchResolved i has_body) = Some c').
      { cbn [step]. rewrite Hi. reflexivity. }
      pose proof (step_shape _ _ _ Hstep) as (rid' & Hi' & Hid & Hcancel & _ & _ & Hcase).
      rewrite Hi in Hi'. injection Hi' as <-.
      assert (Hne : negb (requestId c =? rid)%Z = true).
      { apply negb_true_iff, Z.eqb_neq. exact Hstale. }
      rewrite Hne in Hcase. destruct Hcase as (Hcalls & _ & Hr & Hc & _).
      rewrite Hcalls, Hid, Hcancel, Hr.
      split; [apply list_lookup_insert_eq; eapply lookup_lt_Some; exact Hi|].
      split; [exact Hc|]. split; [|split; [exact Hreader|exact Hlive]].
      rewrite list_lookup_insert_ne; [exact Hj|].
      intros ->. rewrite Hi in Hj. discriminate.
Qed.

End ConnectionFacts.

Lemma superseded_connect_dispatches_nothing_witness :
  exists c1 c2,
    run sample_vars sample_manager json_of_text conn_init sample_trace = Some c1 /\
    run sample_vars sample_manager json_of_text c1
      [FetchResolved 0 true; ReadValue 1 (stream_end ++ nl)] = Some c2 /\
    (1 < requestId c1)%Z /\
    (forall m, ~ In (0, m) (dispatched c2)) /\
    In 0 (aborted c2) /\
    calls c2 !! 0 = Some (Settled (inr tt)).
Proof.
  eexists. eexists.
  split; [vm_compute; reflexivity|].
  split; [vm_compute; reflexivity|].
  apply (superseded_connect_dispatches_nothing sample_vars sample_manager json_of_text
           sample_trace [ReadValue 1 (stream_end ++ nl)] _ _ 0 1%Z true).
  - vm_compute. reflexivity.
  - vm_compute. reflexivity.
  - vm_compute. discriminate.
  - vm_compute. reflexivity.
Defined.

Lemma connect_never_raises_witness :
  (exists c,
      run sample_vars sample_manager json_of_text conn_init sample_trace = Some c /\
      (exists c', step sample_vars sample_manager json_of_text c
                    (FetchRejected 0 (JsError "Failed to fetch")) = Some c' /\
         calls c' !! 0 = Some (Settled (inr tt)) /\ isConnected c' = false /\
         log_calls (logger c')
         = (log_calls (logger c) ++ [LogError (JsError "Failed to fetch")])%list) /\
      (exists c', step sample_vars sample_manager json_of_text c
                    (ReadRejected 1 (JsError "network error")) = Some c' /\
         calls c' !! 1 = Some (Settled (inr tt)) /\ isConnected c' = false /\
         log_calls (logger c')
         = (log_calls (logger c) ++ [LogError (JsError "network error")])%list)) /\
  (exists c,
      run sample_vars sample_manager json_of_text conn_init
        [CallConnect false ["/api/v1/pods?watch=1"]; CallConnect true []] = Some c /\
      calls c !! 1 = Some (Settled (inr tt)) /\
      (inr tt : js_error + unit) = inr tt).
Proof.
  pose proof (connect_never_raises sample_vars sample_manager json_of_text)
    as (_ & Hfetch & Hread & Hrun).
  split.
  - eexists. split; [vm_compute; reflexivity|]. split.
    + apply (Hfetch _ 0 1%Z). vm_compute. reflexivity.
    + apply (Hread _ 1 2%Z EmptyString). vm_compute. reflexivity.
  - eexists. split; [vm_compute; reflexivity|]. split; [vm_compute; reflexivity|].
    eapply (Hrun [CallConnect false ["/api/v1/pods?watch=1"]; CallConnect true []] _ 1).
    + vm_compute. reflexivity.
    + vm_compute. reflexivity.
Defined.

Lemma stale_connect_clears_isConnected_witness :
  exists c,
    run sample_vars sample_manager json_of_text conn_init sample_trace = Some c /\
    isConnected c = true /\ reader c = Some 1 /\
    exists c', step sample_vars sample_manager json_of_text c (FetchResolved 0 true)
               = Some c' /\
      calls c' !! 0 = Some (Settled (inr tt)) /\
      isConnected c' = false /\
      calls c' !! 1 = Some (AwaitRead (requestId c') EmptyString) /\
      reader c' = Some 1 /\ ~ In 1 (cancelled c').
Proof.
  eexists. split; [vm_compute; reflexivity|].
  split; [reflexivity|]. split; [reflexivity|].
  apply (proj2 (stale_connect_clears_isConnected sample_vars sample_manager json_of_text)
           _ 0 1 1%Z EmptyString true).
  - vm_compute. reflexivity.
  - vm_compute. discriminate.
  - vm_compute. reflexivity.
  - reflexivity.
  - vm_compute. intros [].
  - reflexivity.
Defined.

(** * Further properties *)

(** ** The subscription registry *)

Section RegistryMoreFacts.
Context {Api : Type} `{EqDecision Api}.
Local Open Scope list_scope.
Implicit Types (m : @Subscribers Api) (api a b : Api).

Lemma times_listed_nonneg a (apis : list Api) : (0 <= times_listed a apis)%Z.
Proof.
  induction apis as [|b apis IH]; cbn [times_listed]; [lia|].
  destruct (decide (b = a)); lia.
Qed.

Lemma times_listed_Permutation a (l1 l2 : list Api) :
  Permutation l1 l2 -> times_listed a l1 = times_listed a l2.
Proof.
  induction 1 as [|x l l' _ IH|x y l|l l' l'' _ IH1 _ IH2]; cbn [times_listed].
  - reflexivity.
  - rewrite IH. reflexivity.
  - lia.
  - congruence.
Qed.

Lemma map_get_None a m : map_get a m = None <-> ~ In a (map fst m).
Proof.
  induction m as [|[k v] m IH]; cbn [map_get map fst In].
  - tauto.
  - destruct (decide (k = a)) as [->|Hk].
    + split; [discriminate|]. intros Hn. exfalso. apply Hn. left. reflexivity.
    + rewrite IH. tauto.
Qed.

Lemma map_get_In a v m : map_get a m = Some v -> In (a, v) m.
Proof.
  induction m as [|[k v'] m IH]; cbn [map_get In]; [discriminate|].
  destruct (decide (k = a)) as [->|Hk].
  - intros [= ->]. left. reflexivity.
  - intros Hm. right. exact (IH Hm).
Qed.

Lemma map_get_split a v m :
  NoDup (map fst m) -> map_get a m = Some v ->
  exists l1 l2, m = (l1 ++ (a, v) :: l2)%list /\
                ~ In a (map fst l1) /\ ~ In a (map fst l2).
Proof.
  induction m as [|[k v'] m IH]; cbn [map_get map fst]; [discriminate|].
  intros Hnd Hm. apply NoDup_cons in Hnd as [Hk Hnd].
  destruct (decide (k = a)) as [->|Hka].
  - injection Hm as ->. exists [], m. cbn [app map In].
    split; [reflexivity|]. split; [tauto|].
    intros Hin. apply Hk. apply list_elem_of_In. exact Hin.
  - destruct (IH Hnd Hm) as (l1 & l2 & -> & H1 & H2).
    exists ((k, v') :: l1), l2. cbn [app map fst In].
    split; [reflexivity|]. split; [|exact H2]. intros [Heq|Hin]; [exact (Hka Heq)|exact (H1 Hin)].
Qed.

Lemma map_set_absent a (x : Z) m :
  ~ In a (map fst m) -> map_set a x m = (m ++ [(a, x)])%list.
Proof.
  induction m as [|[k v] m IH]; cbn [map_set map fst In app]; [reflexivity|].
  intros Hn. rewrite decide_False by tauto. rewrite IH by tauto. reflexivity.
Qed.

Lemma map_set_at a (x v : Z) (l1 l2 : list (Api * Z)) :
  ~ In a (map fst l1) ->
  map_set a x (l1 ++ (a, v) :: l2) = (l1 ++ (a, x) :: l2)%list.
Proof.
  induction l1 as [|[k v'] l1 IH]; cbn [map_set map fst In app].
  - intros _. rewrite decide_True by reflexivity. reflexivity.
  - intros Hn. rewrite decide_False by tauto. rewrite IH by tauto. reflexivity.
Qed.

Lemma map_delete_at a (v : Z) (l1 l2 : list (Api * Z)) :
  ~ In a (map fst l1) -> ~ In a (map fst l2) ->
  map_delete a (l1 ++ (a, v) :: l2) = (l1 ++ l2)%list.
Proof.
  intros H1 H2. induction l1 as [|[k v'] l1 IH]; cbn [map_delete map fst In app] in *.
  - rewrite decide_True by reflexivity. apply map_delete_absent.
    apply map_get_None. exact H2.
  - rewrite decide_False by tauto. rewrite IH by tauto. reflexivity.
Qed.

Lemma released_app (apis : list Api) (l1 l2 : list (Api * Z)) :
  released apis (l1 ++ l2) = (released apis l1 ++ released apis l2)%list.
Proof. unfold released. apply flat_map_app. Qed.

Lemma released_nil_apis m : released [] m = m.
Proof.
  induction m as [|kv m IH]; [reflexivity|].
  unfold released in *. cbn [flat_map]. rewrite IH. reflexivity.
Qed.

Lemma released_not_listed (apis : list Api) m :
  (forall a, In a (map fst m) -> times_listed a apis = 0%Z) -> released apis m = m.
Proof.
  induction m as [|[k v] m IH]; [reflexivity|].
  intros Hm. unfold released in *. cbn [flat_map].
  unfold released_entry at 1. cbn [fst snd].
  rewrite (Hm k) by (left; reflexivity). cbn [Z.eqb app].
  rewrite IH; [reflexivity|]. intros a Ha. apply Hm. right. exact Ha.
Qed.

Lemma times_listed_one a b : times_listed a [b] = if decide (b = a) then 1%Z else 0%Z.
Proof. cbn [times_listed]. destruct (decide (b = a)); reflexivity. Qed.

Lemma released_one_absent a m : ~ In a (map fst m) -> released [a] m = m.
Proof.
  intros Hn. apply released_not_listed. intros b Hb.
  rewrite times_listed_one. destruct (decide (a = b)) as [->|]; [contradiction|reflexivity].
Qed.

(** One turn of the disposer, on a registry without a double entry. *)
Lemma dispose_one_released a m :
  NoDup (map fst m) -> dispose_one m a = released [a] m.
Proof.
  intros Hnd. unfold dispose_one, getSubscribersCount.
  destruct (map_get a m) as [v|] eqn:Hget.
  - destruct (map_get_split _ _ _ Hnd Hget) as (l1 & l2 & -> & H1 & H2).
    rewrite released_app. rewrite (released_one_absent a l1 H1).
    change ((a, v) :: l2) with ([(a, v)] ++ l2)%list. rewrite released_app.
    rewrite (released_one_absent a l2 H2).
    unfold released at 1. cbn [flat_map]. unfold released_entry. cbn [fst snd].
    rewrite times_listed_one. rewrite decide_True by reflexivity. cbn [Z.eqb].
    assert (Hc : ((if (v =? 0)%Z then 0 else v) - 1 <=? 0)%Z = (v - 1 <=? 0)%Z).
    { destruct (Z.eqb_spec v 0) as [->|]; reflexivity. }
    rewrite Hc. destruct (v - 1 <=? 0)%Z eqn:Hle.
    + cbn [app]. apply map_delete_at; assumption.
    + cbn [app]. rewrite (map_set_at a _ v l1 l2 H1).
      destruct (Z.eqb_spec v 0) as [->|]; [discriminate|reflexivity].
  - cbn [Z.sub Z.opp Z.add Z.leb Z.compare].
    rewrite (map_delete_absent _ _ Hget).
    symmetry. apply released_one_absent. apply map_get_None. exact Hget.
Qed.

Lemma released_entry_cons a (apis : list Api) (kv : Api * Z) :
  flat_map (released_entry apis) (released_entry [a] kv) = released_entry (a :: apis) kv.
Proof.
  destruct kv as [k v]. unfold released_entry at 2 3. cbn [fst snd].
  rewrite times_listed_one. cbn [times_listed].
  pose proof (times_listed_nonneg k apis) as Hnn.
  destruct (decide (a = k)) as [->|Hak];
  repeat match goal with
  | |- context [(?x =? ?y)%Z] => destruct (Z.eqb_spec x y)
  | |- context [(?x <=? ?y)%Z] => destruct (Z.leb_spec x y)
  | |- _ => progress (unfold released_entry; cbn [flat_map app fst snd])
  end; try lia; try reflexivity; try (do 2 f_equal; lia).
Qed.

Lemma released_cons a (apis : list Api) m :
  released (a :: apis) m = released apis (released [a] m).
Proof.
  induction m as [|kv m IH]; [reflexivity|].
  change (kv :: m) with ([kv] ++ m)%list. rewrite !released_app, IH.
  f_equal. unfold released at 1 3. cbn [flat_map]. rewrite !app_nil_r.
  symmetry. apply released_entry_cons.
Qed.

Lemma released_apis_app (l1 l2 : list Api) : forall m,
  released (l1 ++ l2) m = released l2 (released l1 m).
Proof.
  induction l1 as [|b l1 IH]; intros m.
  - rewrite released_nil_apis. reflexivity.
  - cbn [app]. rewrite released_cons, IH, <- released_cons. reflexivity.
Qed.

Lemma released_keys (apis : list Api) m : sublist (map fst (released apis m)) (map fst m).
Proof.
  induction m as [|[k v] m IH]; [constructor|].
  unfold released in *. cbn [flat_map map fst]. rewrite map_app.
  unfold released_entry at 1. cbn [fst snd].
  destruct (times_listed k apis =? 0)%Z; [cbn [map app fst]; constructor; exact IH|].
  destruct (v - times_listed k apis <=? 0)%Z; cbn [map app fst].
  - apply sublist_cons. exact IH.
  - constructor. exact IH.
Qed.

Lemma released_NoDup (apis : list Api) m :
  NoDup (map fst m) -> NoDup (map fst (released apis m)).
Proof. intros Hnd. eapply sublist_NoDup; [exact Hnd|apply released_keys]. Qed.

Lemma released_ok (apis : list Api) m : registry_ok m -> registry_ok (released apis m).
Proof.
  intros [Hnd Hpos]. split; [apply released_NoDup; exact Hnd|].
  clear Hnd. induction Hpos as [|[k v] m Hv _ IH]; [constructor|].
  unfold released in *. cbn [flat_map]. apply Forall_app. split; [|exact IH].
  unfold released_entry. cbn [fst snd] in *.
  destruct (times_listed k apis =? 0)%Z; [repeat constructor; exact Hv|].
  destruct (Z.leb_spec (v - times_listed k apis) 0); repeat constructor.
  cbn [snd]. lia.
Qed.

(** The disposer, on a registry without a double entry. *)
Lemma disposer_released (apis : list Api) : forall m,
  NoDup (map fst m) -> subscribeApi_disposer apis m = released apis m.
Proof.
  induction apis as [|a apis IH]; intros m Hnd.
  - rewrite released_nil_apis. reflexivity.
  - rewrite released_cons. rewrite <- (dispose_one_released a m Hnd).
    rewrite <- IH.
    + reflexivity.
    + rewrite (dispose_one_released a m Hnd). apply released_NoDup. exact Hnd.
Qed.

Lemma released_Permutation (l1 l2 : list Api) m :
  Permutation l1 l2 -> released l1 m = released l2 m.
Proof.
  intros Hp. unfold released. apply flat_map_ext. intros kv.
  unfold released_entry. rewrite (times_listed_Permutation _ _ _ Hp). reflexivity.
Qed.

(** One turn of the [forEach] of [subscribeApi]. *)
Lemma subscribe_one_ok a m :
  registry_ok m -> registry_ok (map_set a (getSubscribersCount a m + 1)%Z m).
Proof.
  intros [Hnd Hpos]. unfold getSubscribersCount.
  destruct (map_get a m) as [v|] eqn:Hget.
  - destruct (map_get_split _ _ _ Hnd Hget) as (l1 & l2 & -> & H1 & H2).
    rewrite (map_set_at a _ v l1 l2 H1). split.
    + rewrite map_app in *. exact Hnd.
    + apply Forall_app in Hpos as [Hp1 Hp2]. apply Forall_cons in Hp2 as [Hv Hp2].
      apply Forall_app. split; [exact Hp1|]. constructor; [|exact Hp2].
      cbn [snd] in *. destruct (Z.eqb_spec v 0); lia.
  - apply map_get_None in Hget. rewrite (map_set_absent _ _ _ Hget). split.
    + rewrite map_app. cbn [map fst]. apply NoDup_app. split; [exact Hnd|].
      split; [|apply NoDup_singleton].
      intros x Hx Hx'. apply list_elem_of_singleton in Hx'. subst x.
      apply Hget. apply list_elem_of_In. exact Hx.
    + apply Forall_app. split; [exact Hpos|]. constructor; [cbn [snd]; lia|constructor].
Qed.

Lemma subscribe_one_released a m :
  registry_ok m -> released [a] (map_set a (getSubscribersCount a m + 1)%Z m) = m.
Proof.
  intros [Hnd Hpos]. unfold getSubscribersCount.
  destruct (map_get a m) as [v|] eqn:Hget.
  - destruct (map_get_split _ _ _ Hnd Hget) as (l1 & l2 & -> & H1 & H2).
    rewrite (map_set_at a _ v l1 l2 H1).
    apply Forall_app in Hpos as [_ Hp2]. apply Forall_cons in Hp2 as [Hv _].
    cbn [snd] in Hv.
    rewrite released_app. rewrite (released_one_absent a l1 H1).
    match goal with |- context [(?x :: l2)] => change (x :: l2) with ([x] ++ l2)%list end.
    rewrite released_app. rewrite (released_one_absent a l2 H2).
    unfold released. cbn [flat_map]. unfold released_entry. cbn [fst snd].
    rewrite times_listed_one. rewrite decide_True by reflexivity. cbn [Z.eqb].
    destruct (Z.eqb_spec v 0); [lia|].
    destruct (Z.leb_spec (v + 1 - 1) 0); [lia|].
    cbn [app]. do 3 f_equal. lia.
  - apply map_get_None in Hget. rewrite (map_set_absent _ _ _ Hget).
    rewrite released_app. rewrite (released_one_absent a m Hget).
    unfold released. cbn [flat_map]. unfold released_entry. cbn [fst snd].
    rewrite times_listed_one. rewrite decide_True by reflexivity. cbn.
    apply app_nil_r.
Qed.

Lemma subscribeApi_ok (apis : list Api) : forall m,
  registry_ok m -> registry_ok (fst (subscribeApi apis m)).
Proof.
  unfold subscribeApi. cbn [fst].
  induction apis as [|a apis IH]; intros m Hm; [exact Hm|].
  cbn [fold_left]. apply IH. apply subscribe_one_ok. exact Hm.
Qed.

Lemma subscribeApi_released (apis : list Api) : forall m,
  registry_ok m -> released apis (fst (subscribeApi apis m)) = m.
Proof.
  unfold subscribeApi. cbn [fst].
  induction apis as [|a apis IH]; intros m Hm; [apply released_nil_apis|].
  cbn [fold_left].
  rewrite (released_Permutation (a :: apis) (apis ++ [a])).
  2:{ apply Permutation_cons_append. }
  rewrite released_apis_app. rewrite IH by (apply subscribe_one_ok; exact Hm).
  apply subscribe_one_released. exact Hm.
Qed.

(** X1. [subscribeApi] raises the count of a target by the number of times
    the call lists it, and leaves the other counts as they are. *)
Theorem subscribeApi_counts (apis : list Api) : forall m a,
  getSubscribersCount a (fst (subscribeApi apis m))
  = (getSubscribersCount a m + times_listed a apis)%Z.
Proof.
  unfold subscribeApi. cbn [fst].
  induction apis as [|b apis IH]; intros m a; cbn [fold_left times_listed]; [lia|].
  rewrite IH. destruct (decide (b = a)) as [->|Hba].
  - unfold getSubscribersCount at 1. rewrite map_get_set_eq.
    destruct (Z.eqb_spec (getSubscribersCount a m + 1) 0); lia.
  - unfold getSubscribersCount at 1. rewrite (map_get_set_ne b a _ m Hba).
    fold (getSubscribersCount a m). lia.
Qed.

(** X2. On a registry with one entry for a target and every count at least
    one, [subscribeApi] followed by the disposer it returns gives the
    registry back as it was: the same entries, in the same order, with the
    same counts. *)
Theorem subscribeApi_then_disposer_restores (apis : list Api) m :
  registry_ok m ->
  snd (subscribeApi apis m) (fst (subscribeApi apis m)) = m.
Proof.
  intros Hm. change (snd (subscribeApi apis m)) with (subscribeApi_disposer apis).
  rewrite disposer_released.
  - apply subscribeApi_released. exact Hm.
  - apply (subscribeApi_ok apis m Hm).
Qed.

Lemma registry_ok_preserved (apis : list Api) m :
  registry_ok m ->
  registry_ok (fst (subscribeApi apis m)) /\ registry_ok (subscribeApi_disposer apis m).
Proof.
  intros Hm. split; [apply subscribeApi_ok; exact Hm|].
  rewrite disposer_released by apply Hm. apply released_ok. exact Hm.
Qed.

Lemma registry_call_ok (call : RegistryCall) m :
  registry_ok m -> registry_ok (registry_call m call).
Proof.
  intros Hm. destruct call as [apis|apis]; cbn [registry_call];
    apply (registry_ok_preserved apis m Hm).
Qed.

(** X3. Whatever calls of [subscribeApi] and of disposers a client has
    seen, its registry has at most one entry for a target, and a target has
    an entry exactly when its count is at least one. *)
Theorem registry_entries_are_counted (calls : list RegistryCall) :
  NoDup (map fst (registry_after calls)) /\
  forall a, In a (map fst (registry_after calls)) <->
            (1 <= getSubscribersCount a (registry_after calls))%Z.
Proof.
  assert (Hok : registry_ok (registry_after calls)).
  { unfold registry_after.
    assert (Hgen : forall m, registry_ok m -> registry_ok (fold_left registry_call calls m)).
    { induction calls as [|call calls IH]; intros m Hm; [exact Hm|].
      cbn [fold_left]. apply IH. apply registry_call_ok. exact Hm. }
    apply Hgen. split; constructor. }
  destruct Hok as [Hnd Hpos]. split; [exact Hnd|].
  intros a. unfold getSubscribersCount.
  destruct (map_get a (registry_after calls)) as [v|] eqn:Hget.
  - pose proof (map_get_In _ _ _ Hget) as Hin.
    rewrite Forall_forall in Hpos. specialize (Hpos _ (proj2 (list_elem_of_In _ _) Hin)).
    cbn [snd] in Hpos. split.
    + intros _. destruct (Z.eqb_spec v 0); lia.
    + intros _. apply in_map_iff. exists (a, v). split; [reflexivity|exact Hin].
  - apply map_get_None in Hget. split; [contradiction|lia].
Qed.

(** X4. On a registry with one entry for a target, what a disposer does
    depends only on how many times it lists each target, not on their
    order; and two disposers can be called in either order. *)
Theorem disposers_commute (apis1 apis2 apis' : list Api) m :
  NoDup (map fst m) ->
  Permutation apis1 apis' ->
  subscribeApi_disposer apis1 m = subscribeApi_disposer apis' m /\
  subscribeApi_disposer apis1 (subscribeApi_disposer apis2 m)
  = subscribeApi_disposer apis2 (subscribeApi_disposer apis1 m).
Proof.
  intros Hnd Hp. split.
  - rewrite !disposer_released by exact Hnd. apply released_Permutation. exact Hp.
  - rewrite (disposer_released apis2 m Hnd), (disposer_released apis1 m Hnd).
    rewrite (disposer_released apis1) by (apply released_NoDup; exact Hnd).
    rewrite (disposer_released apis2) by (apply released_NoDup; exact Hnd).
    rewrite <- !released_apis_app. apply released_Permutation. apply Permutation_app_comm.
Qed.

End RegistryMoreFacts.

Lemma subscribeApi_then_disposer_restores_witness :
  registry_ok [("pods", 2%Z); ("nodes", 1%Z)] /\
  snd (subscribeApi ["pods"; "jobs"; "pods"] [("pods", 2%Z); ("nodes", 1%Z)])
      (fst (subscribeApi ["pods"; "jobs"; "pods"] [("pods", 2%Z); ("nodes", 1%Z)]))
  = [("pods", 2%Z); ("nodes", 1%Z)].
Proof.
  assert (Hok : registry_ok [("pods", 2%Z); ("nodes", 1%Z)]).
  { unfold registry_ok. apply (bool_decide_unpack _). vm_compute. exact I. }
  split; [exact Hok|]. apply (subscribeApi_then_disposer_restores _ _ Hok).
Defined.

Lemma registry_entries_are_counted_witness :
  In "pods" (map fst (registry_after [CallSubscribeApi ["pods"; "nodes"];
                                      CallDisposer ["nodes"]])) /\
  ~ In "nodes" (map fst (registry_after [CallSubscribeApi ["pods"; "nodes"];
                                         CallDisposer ["nodes"]])).
Proof.
  destruct (registry_entries_are_counted [CallSubscribeApi ["pods"; "nodes"];
                                          CallDisposer ["nodes"]]) as [_ Hiff].
  split.
  - apply (proj2 (Hiff "pods")). vm_compute. discriminate.
  - intros Hin. apply (proj1 (Hiff "nodes")) in Hin. vm_compute in Hin. apply Hin. reflexivity.
Defined.

Lemma disposers_commute_witness :
  subscribeApi_disposer ["pods"; "nodes"; "pods"] [("pods", 3%Z); ("nodes", 1%Z)]
  = subscribeApi_disposer ["nodes"; "pods"; "pods"] [("pods", 3%Z); ("nodes", 1%Z)] /\
  subscribeApi_disposer ["pods"; "nodes"; "pods"]
    (subscribeApi_disposer ["pods"] [("pods", 3%Z); ("nodes", 1%Z)])
  = subscribeApi_disposer ["pods"]
      (subscribeApi_disposer ["pods"; "nodes"; "pods"] [("pods", 3%Z); ("nodes", 1%Z)]).
Proof.
  apply (disposers_commute ["pods"; "nodes"; "pods"] ["pods"] ["nodes"; "pods"; "pods"]
           [("pods", 3%Z); ("nodes", 1%Z)]).
  - apply (bool_decide_unpack _). vm_compute. exact I.
  - apply perm_swap.
Defined.

Section RegistryActiveFacts.
Context {Api : Type} `{EqDecision Api}.
Variable ops : @KubeApiOps Api.

(** X5. [isActive] holds exactly when some registered target contributes a
    watch URL: the cluster getter is set up, the cluster allows the kind of
    the target and, for a namespaced target, at least one namespace is
    watched. A registered target alone does not make the client active. *)
Theorem isActive_iff (w : @Watcher Api) :
  isActive ops w = true <->
  exists api count, In (api, count) (subscribers w) /\ contributes ops w api.
Proof.
  unfold isActive, apis, contributes.
  induction (subscribers w) as [|[a c] m IH]; cbn [flat_map].
  - split; [discriminate|]. intros (api & count & [] & _).
  - rewrite length_app.
    set (urls := match getCluster w with
                 | Some isAllowedResource =>
                     if negb (isAllowedResource (kind ops a)) then []
                     else if isNamespaced ops a
                          then map (fun namespace => getWatchUrl ops a (Some namespace))
                                   (getNamespaces w)
                          else [getWatchUrl ops a None]
                 | None => []
                 end).
    assert (Hurls : (0 < length urls)%nat <->
              exists isAllowedResource,
                getCluster w = Some isAllowedResource /\
                isAllowedResource (kind ops a) = true /\
                (isNamespaced ops a = true -> getNamespaces w <> [])).
    { subst urls. destruct (getCluster w) as [allowed|].
      - destruct (allowed (kind ops a)) eqn:Hal; cbn [negb].
        + destruct (isNamespaced ops a) eqn:Hns.
          * rewrite length_map. split.
            -- intros Hlen. exists allowed. repeat split; [exact Hal|].
               intros _ Hnil. rewrite Hnil in Hlen. cbn in Hlen. lia.
            -- intros (al & [= <-] & _ & Hne). specialize (Hne eq_refl).
               destruct (getNamespaces w); [contradiction|cbn; lia].
          * split; [|cbn; lia]. intros _. exists allowed. repeat split; [exact Hal|].
            discriminate.
        + split; [cbn; lia|]. intros (al & [= <-] & Hal' & _). congruence.
      - split; [cbn; lia|]. intros (al & Hal & _). discriminate. }
    rewrite Nat.ltb_lt in *. split.
    + intros Hlen. destruct (decide (0 < length urls)%nat) as [Hu|Hu].
      * exists a, c. split; [left; reflexivity|]. apply Hurls. exact Hu.
      * assert (Hrest : (0 < length (flat_map
                  (fun '(api, _) =>
                     match getCluster w with
                     | Some isAllowedResource =>
                         if negb (isAllowedResource (kind ops api)) then []
                         else if isNamespaced ops api
                              then map (fun namespace => getWatchUrl ops api (Some namespace))
                                       (getNamespaces w)
                              else [getWatchUrl ops api None]
                     | None => []
                     end) m))%nat) by lia.
        apply IH in Hrest as (api & count & Hin & Hc).
        exists api, count. split; [right; exact Hin|exact Hc].
    + intros (api & count & [[= <- <-]|Hin] & Hc).
      * apply Hurls in Hc. lia.
      * assert (Hrest : (0 < length (flat_map
                  (fun '(api, _) =>
                     match getCluster w with
                     | Some isAllowedResource =>
                         if negb (isAllowedResource (kind ops api)) then []
                         else if isNamespaced ops api
                              then map (fun namespace => getWatchUrl ops api (Some namespace))
                                       (getNamespaces w)
                              else [getWatchUrl ops api None]
                     | None => []
                     end) m))%nat).
        { apply IH. exists api, count. split; [exact Hin|exact Hc]. }
        lia.
Qed.

End RegistryActiveFacts.

Lemma isActive_iff_witness :
  isActive sample_ops {| subscribers := [("pods", 1%Z)];
                         getCluster := Some (fun _ => true);
                         getNamespaces := ["default"] |} = true /\
  isActive sample_ops {| subscribers := [("pods", 1%Z)];
                         getCluster := Some (fun _ => true);
                         getNamespaces := [] |} = false.
Proof.
  split.
  - apply (proj2 (isActive_iff sample_ops _)).
    exists "pods", 1%Z. split; [left; reflexivity|].
    eexists. split; [reflexivity|]. split; [reflexivity|]. discriminate.
  - reflexivity.
Defined.

(** ** The event dispatcher and the stream parser *)

Section GetMessageThrows.
Context {Api Store : Type} `{Countable Api}.
Variable am : @ApiManager Api Store.

Lemma ensureObjectSelfLink_nullish (api : Api) (object : jsval) :
  nullish (ensureObjectSelfLink am api object) = nullish object /\
  nullish (field (ensureObjectSelfLink am api object) "metadata")
  = nullish (field object "metadata").
Proof.
  unfold ensureObjectSelfLink.
  destruct object as [[| | | | |kvs]|]; try (split; reflexivity).
  destruct (member "metadata" kvs) as [[| | | | |md]|] eqn:Hmd; try (split; reflexivity).
  destruct (member "selfLink" md); [split; reflexivity|].
  split; [reflexivity|]. unfold field. cbn [prop]. rewrite member_set_member, Hmd. reflexivity.
Qed.

(** X6. [getMessage] throws exactly in these cases: the event is [null];
    or it is of type [ADDED], [DELETED] or [MODIFIED] and its object is
    [null] or absent; or it is of one of these types, a handler is found for
    the kind of its object, and the object has no metadata. It then throws
    a [TypeError], and leaves the dispatcher as it was. *)
Theorem getMessage_throws_iff (event : json) (d : Dispatcher) :
  let object := field (Some event) "object" in
  ((exists e, fst (getMessage am event d) = inl e) <->
   event = JNull \/
   (data_event event = true /\
    (nullish object = true \/
     (is_Some (getApiByKind am (field object "kind") (field object "apiVersion")) /\
      nullish (field object "metadata") = true)))) /\
  (forall e, fst (getMessage am event d) = inl e ->
             e = TypeError /\ snd (getMessage am event d) = d).
Proof.
  cbn zeta. unfold getMessage, data_event.
  rewrite !prop_nullish.
  destruct (nullish (Some event)) eqn:Hev.
  { destruct event; try discriminate Hev. run_m. cbn [fst snd]. split.
    - split; [intros _; left; reflexivity|intros _; eexists; reflexivity].
    - intros e [= <-]. split; reflexivity. }
  assert (Hne : event <> JNull) by (intros ->; discriminate Hev).
  run_m.
  destruct (is_string (field (Some event) "type") "ADDED"
            || is_string (field (Some event) "type") "DELETED"
            || is_string (field (Some event) "type") "MODIFIED") eqn:Hdata.
  - rewrite !prop_nullish.
    destruct (nullish (field (Some event) "object")) eqn:Hobj.
    { cbn [fst snd]. split.
      - split; [intros _; right; split; [reflexivity|left; reflexivity]|
                intros _; eexists; reflexivity].
      - intros e [= <-]. split; reflexivity. }
    cbn beta iota. rewrite ?prop_nullish, ?Hobj. cbn beta iota.
    destruct (getApiByKind am (field (field (Some event) "object") "kind")
                (field (field (Some event) "object") "apiVersion")) as [api|] eqn:Hapi.
    + cbn beta iota. rewrite ?prop_nullish.
      destruct (ensureObjectSelfLink_nullish api (field (Some event) "object")) as [Hn1 Hn2].
      rewrite ?Hn1, ?Hobj. cbn beta iota. rewrite ?prop_nullish, ?Hn2.
      destruct (nullish (field (field (Some event) "object") "metadata")) eqn:Hmd.
      * cbn [fst snd]. split.
        -- split; [|intros _; eexists; reflexivity].
           intros _. right. split; [reflexivity|]. right. split; [eexists; reflexivity|reflexivity].
        -- intros e [= <-]. split; reflexivity.
      * cbn beta iota. rewrite ?prop_nullish, ?Hmd. cbn beta iota. cbn [fst snd]. split.
        -- split; [intros [e He]; discriminate He|].
           intros [->|[_ [Hc|[_ Hc]]]]; [contradiction|discriminate Hc|discriminate Hc].
        -- intros e He. discriminate He.
    + cbn [fst snd]. split.
      * split; [intros [e He]; discriminate He|].
        intros [->|[_ [Hc|[[x Hx] _]]]]; [contradiction|discriminate Hc|discriminate Hx].
      * intros e He. discriminate He.
  - assert (Hno : forall P : Prop, event = JNull \/ (false = true /\ P) -> False).
    { intros P [->|[Hc _]]; [contradiction|discriminate Hc]. }
    destruct (is_string (field (Some event) "type") "ERROR");
      [|destruct (is_string (field (Some event) "type") "STREAM_END")];
      cbn [fst snd]; (split; [split; [intros [e He]; discriminate He|intros Hc; destruct (Hno _ Hc)]
                             |intros e He; discriminate He]).
Qed.

End GetMessageThrows.

Lemma getMessage_throws_iff_witness :
  fst (getMessage sample_manager
         (JObj [("type", JStr "ADDED"); ("object", JObj [("kind", JStr "Pod")])])
         dispatcher_init) = inl TypeError.
Proof.
  pose proof (getMessage_throws_iff sample_manager
                (JObj [("type", JStr "ADDED"); ("object", JObj [("kind", JStr "Pod")])])
                dispatcher_init) as [Hiff Herr].
  cbn zeta in Hiff.
  destruct (proj2 Hiff) as [e He].
  - right. split; [reflexivity|]. right. split; [eexists; reflexivity|reflexivity].
  - rewrite He. f_equal. exact (proj1 (Herr e He)).
Defined.


Lemma split_lines_not_nil (s : string) : split_lines s <> [].
Proof.
  induction s as [|c s IH]; cbn [split_lines]; [discriminate|].
  destruct (Ascii.eqb c newline); [discriminate|].
  destruct (split_lines s); discriminate.
Qed.

Lemma split_lines_pieces (s : string) : Forall (fun p => no_newline p = true) (split_lines s).
Proof.
  induction s as [|c s IH]; cbn [split_lines]; [repeat constructor|].
  destruct (Ascii.eqb c newline) eqn:Hc; [constructor; [reflexivity|exact IH]|].
  destruct (split_lines s) as [|p ps]; [repeat constructor; cbn; rewrite Hc; reflexivity|].
  apply Forall_cons in IH as [Hp Hps]. constructor; [|exact Hps].
  cbn [no_newline]. rewrite Hc, Hp. reflexivity.
Qed.

Lemma join_lines_cons (p : string) (ps : list string) :
  ps <> [] -> join_lines (p :: ps) = (p ++ nl ++ join_lines ps)%string.
Proof. destruct ps; [contradiction|reflexivity]. Qed.

Lemma join_split (s : string) : join_lines (split_lines s) = s.
Proof.
  induction s as [|c s IH]; [reflexivity|].
  cbn [split_lines]. pose proof (split_lines_not_nil s) as Hne.
  destruct (Ascii.eqb_spec c newline) as [->|Hc].
  - rewrite (join_lines_cons _ _ Hne), IH. reflexivity.
  - destruct (split_lines s) as [|p ps]; [contradiction|].
    destruct ps as [|q ps].
    + cbn [join_lines] in *. rewrite IH. reflexivity.
    + change (join_lines (String c p :: q :: ps))
        with (String c p ++ nl ++ join_lines (q :: ps))%string.
      change (join_lines (p :: q :: ps))
        with (p ++ nl ++ join_lines (q :: ps))%string in IH.
      rewrite append_cons, IH. reflexivity.
Qed.

Lemma split_join (pieces : list string) :
  pieces <> [] -> Forall (fun p => no_newline p = true) pieces ->
  split_lines (join_lines pieces) = pieces.
Proof.
  induction pieces as [|p ps IH]; [contradiction|].
  intros _ Hall. apply Forall_cons in Hall as [Hp Hps].
  destruct ps as [|q ps].
  - cbn [join_lines]. apply split_lines_no_newline. exact Hp.
  - rewrite join_lines_cons by discriminate.
    rewrite (split_lines_line _ _ Hp). rewrite IH; [reflexivity|discriminate|exact Hps].
Qed.

Section DispatcherMore.
Context {Api Store : Type} `{Countable Api}.
Variable am : @ApiManager Api Store.

(** What one call of [getMessage] does to the dispatcher. *)
Lemma getMessage_effects (event : json) (d : Dispatcher) :
  match getMessage am event d with
  | (inl _, d') => d' = d
  | (inr m, d') =>
      emitted d' = emitted d /\
      (exists ends, streamEnds d' = (streamEnds d ++ ends)%list /\
                    Forall started_fresh ends /\ (length ends <= 1)%nat) /\
      match msg_api m with
      | None => msg_store m = None /\ resourceVersions d' = resourceVersions d
      | Some api => exists kind apiVersion, getApiByKind am kind apiVersion = Some api
      end
  end.
Proof.
  assert (Hnil : forall l : list (json * IKubeWatchReconnectOptions),
            exists ends, l = (l ++ ends)%list /\ Forall started_fresh ends /\
                         (length ends <= 1)%nat).
  { intros l. exists []. rewrite app_nil_r. repeat split; [constructor|cbn; lia]. }
  unfold getMessage.
  destruct (prop (Some event) "type") as [e|type] eqn:Htype.
  { reflexivity. }
  destruct (is_string type "ADDED" || is_string type "DELETED"
            || is_string type "MODIFIED") eqn:Hdata.
  - destruct (prop (Some event) "object") as [e|object] eqn:Hobject.
    { run_m. rewrite Hdata. reflexivity. }
    destruct (prop object "kind") as [e|kind] eqn:Hkind.
    { run_m. rewrite Hdata, Hkind. reflexivity. }
    destruct (prop object "apiVersion") as [e|apiVersion] eqn:HapiVersion.
    { run_m. rewrite Hdata, Hkind, HapiVersion. reflexivity. }
    destruct (getApiByKind am kind apiVersion) as [api|] eqn:Hapi.
    + destruct (prop (ensureObjectSelfLink am api object) "metadata")
        as [e|metadata] eqn:Hmetadata.
      { run_m. rewrite Hdata, Hkind, HapiVersion, Hapi, Hmetadata. reflexivity. }
      destruct (prop metadata "namespace") as [e|namespace] eqn:Hnamespace.
      { run_m. rewrite Hdata, Hkind, HapiVersion, Hapi, Hmetadata, Hnamespace. reflexivity. }
      destruct (prop metadata "resourceVersion") as [e|resourceVersion] eqn:Hversion.
      { run_m. rewrite Hdata, Hkind, HapiVersion, Hapi, Hmetadata, Hnamespace, Hversion.
        reflexivity. }
      run_m. rewrite Hdata, Hkind, HapiVersion, Hapi, Hmetadata, Hnamespace, Hversion.
      cbn [msg_api emitted streamEnds setResourceVersion].
      split; [reflexivity|]. split; [apply Hnil|]. exists kind, apiVersion. exact Hapi.
    + run_m. rewrite Hdata, Hkind, HapiVersion, Hapi.
      cbn [msg_api msg_store]. split; [reflexivity|]. split; [apply Hnil|]. split; reflexivity.
  - destruct (is_string type "ERROR") eqn:Herror.
    + run_m. rewrite Hdata, Herror.
      cbn [msg_api msg_store]. split; [reflexivity|]. split; [apply Hnil|]. split; reflexivity.
    + destruct (is_string type "STREAM_END") eqn:Hend.
      * run_m. rewrite Hdata, Herror, Hend.
        cbn [msg_api msg_store empty_message emitted streamEnds resourceVersions].
        split; [reflexivity|]. split; [|split; reflexivity].
        eexists. split; [reflexivity|]. split; [|cbn; lia].
        constructor; [|constructor]. split; [|reflexivity].
        cbn [fst]. unfold field. rewrite Htype. exact Hend.
      * run_m. rewrite Hdata, Herror, Hend.
        cbn [msg_api msg_store empty_message]. split; [reflexivity|].
        split; [apply Hnil|]. split; reflexivity.
Qed.

Variable JSON_parse : string -> option json.

(** What the body of the [try] of [processBuffer] does for one line. *)
Lemma process_line_effects (text : string) (d : Dispatcher) :
  match process_line JSON_parse am text d with
  | (inl _, d') => d' = d
  | (inr _, d') =>
      exists m, emitted d' = (emitted d ++ [m])%list /\
      (exists ends, streamEnds d' = (streamEnds d ++ ends)%list /\
                    Forall started_fresh ends /\ (length ends <= 1)%nat) /\
      match msg_api m with
      | None => msg_store m = None /\ resourceVersions d' = resourceVersions d
      | Some api => exists kind apiVersion, getApiByKind am kind apiVersion = Some api
      end
  end.
Proof.
  unfold process_line, parse_line.
  destruct (JSON_parse text) as [event|] eqn:Hp; [|reflexivity].
  pose proof (getMessage_effects event d) as Hg. run_m.
  destruct (getMessage am event d) as [[e|m] d1]; [exact Hg|].
  destruct Hg as (Hem & Hends & Hapi). exists m. cbn [emitted streamEnds resourceVersions].
  rewrite Hem. split; [reflexivity|]. split; [exact Hends|exact Hapi].
Qed.

(** A relation between the dispatcher before and after, that every handled
    line keeps, holds along [processBuffer] and along the read loop. *)
Section Along.
Variable R : @Dispatcher Api Store _ _ -> @Dispatcher Api Store _ _ -> Prop.
Hypothesis R_refl : forall d, R d d.
Hypothesis R_trans : forall d1 d2 d3, R d1 d2 -> R d2 d3 -> R d1 d3.
Hypothesis R_line : forall text d, R d (snd (process_line JSON_parse am text d)).

Lemma processBuffer_along (events : list string) : forall d,
  R d (snd (processBuffer JSON_parse am events d)).
Proof.
  induction events as [|text rest IH]; intros d; cbn [processBuffer]; [apply R_refl|].
  pose proof (R_line text d) as Hl.
  destruct (process_line JSON_parse am text d) as [[e|[]] d1]; cbn [snd] in *.
  - exact Hl.
  - exact (R_trans _ _ _ Hl (IH d1)).
Qed.

Lemma read_loop_along (chunks : list string) : forall jsonBuffer d,
  R d (snd (read_loop JSON_parse am chunks jsonBuffer d)).
Proof.
  induction chunks as [|value more IH]; intros jsonBuffer d; cbn [read_loop]; [apply R_refl|].
  unfold read_turn.
  pose proof (processBuffer_along (split_lines (jsonBuffer ++ value)) d) as Hb.
  destruct (processBuffer JSON_parse am (split_lines (jsonBuffer ++ value)) d)
    as [jsonBuffer' d1]; cbn [snd] in *.
  exact (R_trans _ _ _ Hb (IH jsonBuffer' d1)).
Qed.

End Along.

(** The buffer that [processBuffer] returns is empty or is one of the
    pieces it was given. *)
Lemma processBuffer_buffer (events : list string) : forall d,
  fst (processBuffer JSON_parse am events d) = EmptyString \/
  In (fst (processBuffer JSON_parse am events d)) events.
Proof.
  induction events as [|text rest IH]; intros d; cbn [processBuffer]; [left; reflexivity|].
  destruct (process_line JSON_parse am text d) as [[e|[]] d1]; cbn [fst].
  - right. left. reflexivity.
  - destruct (IH d1) as [He|Hin]; [left; exact He|right; right; exact Hin].
Qed.

Lemma read_turn_buffer (jsonBuffer value : string) (d : Dispatcher) :
  no_newline (fst (read_turn JSON_parse am jsonBuffer value d)) = true.
Proof.
  unfold read_turn.
  destruct (processBuffer_buffer (split_lines (jsonBuffer ++ value)) d) as [He|Hin].
  - rewrite He. reflexivity.
  - pose proof (split_lines_pieces (jsonBuffer ++ value)) as Hall.
    rewrite Forall_forall in Hall. apply Hall. apply list_elem_of_In. exact Hin.
Qed.

(** X7. The pieces that the read loop hands to [processBuffer] lose
    nothing of the text: joined by the separator they give the text back,
    and none of them contains a separator. Conversely, the split of the
    join of such pieces gives the pieces back. *)
Theorem split_lines_join_lines (s : string) (pieces : list string) :
  pieces <> [] -> Forall (fun p => no_newline p = true) pieces ->
  join_lines (split_lines s) = s /\
  Forall (fun p => no_newline p = true) (split_lines s) /\
  split_lines (join_lines pieces) = pieces.
Proof.
  intros Hne Hall. split; [apply join_split|]. split; [apply split_lines_pieces|].
  apply split_join; assumption.
Qed.

(** X8. [processBuffer] handles its pieces in order up to the first one
    whose handling throws: the pieces before it are dispatched, one message
    each; that piece is returned, and the throw has left the dispatcher as
    the pieces before had left it. When no piece throws, all are dispatched
    and the empty text is returned. *)
Theorem processBuffer_first_failure (events : list string) : forall d,
  exists done rest,
    events = (done ++ rest)%list /\
    snd (processBuffer JSON_parse am events d) = dispatch_lines JSON_parse am done d /\
    length (emitted (dispatch_lines JSON_parse am done d))
    = (length (emitted d) + length done)%nat /\
    match rest with
    | [] => fst (processBuffer JSON_parse am events d) = EmptyString
    | text :: _ =>
        fst (processBuffer JSON_parse am events d) = text /\
        exists e, process_line JSON_parse am text (dispatch_lines JSON_parse am done d)
                  = (inl e, dispatch_lines JSON_parse am done d)
    end.
Proof.
  induction events as [|text rest IH]; intros d.
  - exists [], []. cbn. repeat split; lia.
  - cbn [processBuffer].
    pose proof (process_line_effects text d) as Hl.
    destruct (process_line JSON_parse am text d) as [[e|[]] d1] eqn:Hline.
    + subst d1. exists [], (text :: rest). cbn [app dispatch_lines fold_left length fst snd].
      repeat split; [lia|]. exists e. exact Hline.
    + destruct (IH d1) as (done & rest' & -> & Hsnd & Hlen & Hrest).
      assert (Hd : dispatch_lines JSON_parse am (text :: done) d
                   = dispatch_lines JSON_parse am done d1).
      { unfold dispatch_lines. cbn [fold_left]. rewrite Hline. reflexivity. }
      exists (text :: done), rest'. rewrite Hd. split; [reflexivity|].
      split; [exact Hsnd|]. split; [|exact Hrest].
      rewrite Hlen. destruct Hl as (m & Hem & _). rewrite Hem, length_app. cbn [length]. lia.
Qed.

(** X9. The buffer that the read loop carries from one chunk to the next
    never contains a line separator: it is the empty text or one piece of
    a split. *)
Theorem read_loop_buffer_is_one_piece (chunks : list string) : forall jsonBuffer d,
  no_newline jsonBuffer = true ->
  no_newline (fst (read_loop JSON_parse am chunks jsonBuffer d)) = true.
Proof.
  induction chunks as [|value more IH]; intros jsonBuffer d Hb; cbn [read_loop]; [exact Hb|].
  pose proof (read_turn_buffer jsonBuffer value d) as Ht.
  destruct (read_turn JSON_parse am jsonBuffer value d) as [jsonBuffer' d1]. cbn [fst] in Ht.
  apply IH. exact Ht.
Qed.

(** X10. Along the read loop the messages handed to the listeners and the
    calls of [onServerStreamEnd] only grow; every call started is for an
    event of type [STREAM_END], is given five attempts and a delay of
    1000 ms, and comes with a message handed to the listeners. *)
Theorem read_loop_starts_fresh_stream_ends (chunks : list string) (jsonBuffer : string)
  (d : Dispatcher) :
  exists new ends,
    emitted (snd (read_loop JSON_parse am chunks jsonBuffer d)) = (emitted d ++ new)%list /\
    streamEnds (snd (read_loop JSON_parse am chunks jsonBuffer d)) = (streamEnds d ++ ends)%list /\
    Forall started_fresh ends /\
    (length ends <= length new)%nat.
Proof.
  apply (read_loop_along
           (fun d d' => exists new ends,
                emitted d' = (emitted d ++ new)%list /\
                streamEnds d' = (streamEnds d ++ ends)%list /\
                Forall started_fresh ends /\ (length ends <= length new)%nat)).
  - intros d0. exists [], []. rewrite !app_nil_r. repeat split; [constructor|cbn; lia].
  - intros d1 d2 d3 (n1 & e1 & Hm1 & Hs1 & Hf1 & Hl1) (n2 & e2 & Hm2 & Hs2 & Hf2 & Hl2).
    exists (n1 ++ n2)%list, (e1 ++ e2)%list.
    rewrite Hm2, Hm1, Hs2, Hs1, !app_assoc. repeat split.
    + apply Forall_app. split; assumption.
    + rewrite !length_app. lia.
  - intros text d0. pose proof (process_line_effects text d0) as Hl.
    destruct (process_line JSON_parse am text d0) as [[e|[]] d1]; cbn [snd].
    + subst d1. exists [], []. rewrite !app_nil_r. repeat split; [constructor|cbn; lia].
    + destruct Hl as (m & Hem & (ends & Hs & Hf & Hlen) & _).
      exists [m], ends. repeat split; assumption.
Qed.

End DispatcherMore.

Lemma split_lines_join_lines_witness :
  ["a"; EmptyString; "b"] <> [] /\
  join_lines (split_lines (pod_added ++ nl ++ error_event)) = (pod_added ++ nl ++ error_event)%string /\
  split_lines (join_lines ["a"; EmptyString; "b"]) = ["a"; EmptyString; "b"].
Proof.
  assert (Hne : ["a"; EmptyString; "b"] <> []) by discriminate.
  split; [exact Hne|].
  destruct (split_lines_join_lines (pod_added ++ nl ++ error_event) ["a"; EmptyString; "b"] Hne)
    as (H1 & _ & H3).
  - repeat constructor.
  - split; [exact H1|exact H3].
Defined.

Lemma read_loop_buffer_is_one_piece_witness :
  no_newline (fst (read_loop json_of_text sample_manager
                     [pod_added ++ nl ++ "{'ty"; "pe"] "{" (@dispatcher_init string string _ _)))
  = true.
Proof.
  apply (read_loop_buffer_is_one_piece sample_manager json_of_text). reflexivity.
Defined.

Section WithoutHandlers.
Context {Api Store : Type} `{Countable Api}.
Variable am : @ApiManager Api Store.
Hypothesis no_handler : forall kind apiVersion, getApiByKind am kind apiVersion = None.


Variable JSON_parse : string -> option json.




End WithoutHandlers.

Section WithoutHandlersTheorem.
Context {Api Store : Type} `{Countable Api}.
Variable am : @ApiManager Api Store.
Variable JSON_parse : string -> option json.


End WithoutHandlersTheorem.


(** ** Reconnection after the end of one target's stream *)

Section StreamEndMoreFacts.
Context {Api : Type} `{EqDecision Api}.
Variable vars : Vars.
Variable ops : @KubeApiOps Api.
Variable env : nat -> @StreamEndEnv Api.


(** X13. If the refresh fails [k] times while the registry is active, with
    [k] within the retries left, and then succeeds, the invocations call the
    refresh [k + 1] times, log [k] failures, and call [connect] once, when
    the last refresh settles. *)
Theorem onServerStreamEnd_reconnects (k : nat) :
  forall (fuel n : nat) (now : N) (opts : IKubeWatchReconnectOptions) (run : StreamEndRun),
  (k < fuel)%nat ->
  (Z.of_nat k <= reconnectAttempts opts)%Z ->
  (forall j, (n <= j)%nat -> (j < n + k)%nat ->
     is_Some (se_api (env j)) /\ (exists error, se_refresh (env j) = inl error) /\
     isActive ops (se_watcher (env j)) = true) ->
  is_Some (se_api (env (n + k))) ->
  se_refresh (env (n + k)) = inr tt ->
  exists run' new t,
    onServerStreamEnd fuel vars ops env n now opts run = Some (inr tt, run') /\
    refreshes run' = (refreshes run ++ new)%list /\ length new = S k /\
    connects run' = (connects run ++ [t])%list /\
    last new = Some (t - se_duration (env (n + k)))%N /\
    (se_duration (env (n + k)) <= t)%N /\
    length (log_calls (se_logger run')) = (length (log_calls (se_logger run)) + k)%nat.
Proof.
  induction k as [|k IH]; intros fuel n now opts run Hfuel Hbudget Hfail Hapi Hok.
  - destruct fuel as [|fuel]; [lia|]. cbn [onServerStreamEnd].
    rewrite Nat.add_0_r in Hapi, Hok. destruct Hapi as [api Hapi]. rewrite Hapi, Hok.
    eexists _, [now], _. cbn [refreshes connects se_logger].
    rewrite Nat.add_0_r.
    repeat split; try reflexivity.
    + cbn [last]. f_equal. lia.
    + lia.
    + cbn [se_logger]. lia.
  - destruct fuel as [|fuel]; [lia|]. cbn [onServerStreamEnd].
    destruct (Hfail n) as ([api Hapi0] & [error Herr] & Hact); [lia|lia|].
    rewrite Hapi0, Herr, Hact.
    assert (Hpos : (0 <? reconnectAttempts opts)%Z = true) by (apply Z.ltb_lt; lia).
    rewrite Hpos. cbn [andb reconnectAttempts timeout].
    match goal with
    | |- context [onServerStreamEnd fuel vars ops env (S n) ?t ?o ?r] =>
        destruct (IH fuel (S n) t o r)
          as (run' & new & t' & Hrun & Hr & Hlen & Hc & Hlast & Hdur & Hlog)
    end.
    + lia.
    + cbn [reconnectAttempts]. lia.
    + intros j Hj1 Hj2. apply Hfail; lia.
    + replace (S n + k)%nat with (n + S k)%nat by lia. exact Hapi.
    + replace (S n + k)%nat with (n + S k)%nat by lia. exact Hok.
    + replace (S n + k)%nat with (n + S k)%nat in * by lia.
      exists run', (now :: new), t'. split; [exact Hrun|].
      cbn [refreshes connects se_logger log log_calls] in Hr, Hc, Hlog.
      rewrite <- app_assoc in Hr. cbn [app] in Hr. rewrite length_app in Hlog. cbn [length] in Hlog.
      repeat split; try assumption.
      * cbn [length]. lia.
      * destruct new as [|x new]; [discriminate Hlen|]. exact Hlast.
      * lia.
Qed.

End StreamEndMoreFacts.


Lemma onServerStreamEnd_reconnects_witness :
  exists run',
    onServerStreamEnd 6 sample_vars sample_ops recovering_env 0 0%N stream_end_options
      stream_end_init = Some (inr tt, run') /\
    length (refreshes run') = 3%nat /\ length (connects run') = 1%nat.
Proof.
  destruct (onServerStreamEnd_reconnects sample_vars sample_ops recovering_env 2 6 0 0%N
              stream_end_options stream_end_init)
    as (run' & new & t & Hrun & Hr & Hlen & Hc & _).
  - lia.
  - cbn. lia.
  - intros j _ Hj. destruct j as [|[|j]]; [| |lia];
      (split; [eexists; reflexivity|split; [eexists; reflexivity|reflexivity]]).
  - eexists. reflexivity.
  - reflexivity.
  - exists run'. split; [exact Hrun|]. rewrite Hr, Hc. split; [exact Hlen|reflexivity].
Defined.

(** ** Subscribing stores *)

Section StoresMoreFacts.
Context {Store : Type} `{EqDecision Store}.
Variable vars : Vars.
Variable stores : list Store.
Implicit Types (st : @StoresState Store).

Lemma stores_step_all_or_none st st' (l : StoresLabel) :
  all_or_none stores st -> stores_step vars stores st l = Some st' ->
  all_or_none stores st'.
Proof.
  unfold all_or_none. intros Hinv. destruct l as [results| |]; cbn [stores_step].
  - destruct (loaded st); [discriminate|].
    destruct (decide (length results = length (loading st))); [|discriminate].
    destruct (phase st) as [|unsubscribeList|] eqn:Hphase.
    + destruct (Promise_all results).
      * intros [= <-]. cbn [phase disposers]. left. exact Hinv.
      * intros [= <-]. unfold subscribe_begin. cbn [set_loaded isDisposed].
        destruct (isDisposed st); cbn [phase disposers]; auto.
    + intros [= <-]. cbn [set_loaded phase disposers]. rewrite Hphase. exact Hinv.
    + intros [= <-]. cbn [set_loaded phase disposers]. rewrite Hphase. exact Hinv.
  - destruct (phase st) as [|unsubscribeList|] eqn:Hphase; try discriminate.
    intros [= <-]. destruct Hinv as [-> Hd]. unfold subscribe_resume. cbn [isDisposed].
    destruct (isDisposed st); cbn [unsubscribe phase disposers].
    + left. reflexivity.
    + right. rewrite Hd. reflexivity.
  - intros [= <-]. cbn [unsubscribe phase disposers].
    destruct (phase st); [reflexivity|split; [apply Hinv|reflexivity]|left; reflexivity].
Qed.

(** X14. After any steps of one call of [subscribeStores], either all its
    stores are subscribed, once each and in the order given, or none is;
    and the call holds either all their disposers or none. *)
Theorem subscribeStores_all_or_none (options : StoreOptions) (ls : list StoresLabel) :
  forall st,
  stores_run vars stores (subscribeStores stores options) ls = Some st ->
  (subscribed st = [] \/ subscribed st = stores) /\
  (disposers st = [] \/ disposers st = stores).
Proof.
  intros st Hrun.
  pose proof (stores_run_inv vars stores ls _ _ (subscribeStores_inv stores options) Hrun)
    as [Hsub _].
  assert (Hall : all_or_none stores st).
  { assert (H0 : all_or_none stores (subscribeStores stores options)).
    { unfold subscribeStores, all_or_none. destruct (waitUntilLoaded options).
      - reflexivity.
      - unfold subscribe_begin. cbn [isDisposed phase disposers]. auto. }
    revert H0 Hrun. generalize (subscribeStores stores options).
    induction ls as [|l ls IH]; intros st0 H0; cbn [stores_run].
    - intros [= <-]. exact H0.
    - destruct (stores_step vars stores st0 l) as [st1|] eqn:Hstep; [|discriminate].
      apply IH. eapply stores_step_all_or_none; eassumption. }
  unfold all_or_none in Hall. rewrite Hsub.
  destruct (phase st) as [|unsubscribeList|]; cbn [pending].
  - rewrite Hall. auto.
  - destruct Hall as [-> ->]. auto.
  - rewrite app_nil_r. destruct Hall as [->| ->]; auto.
Qed.

(** X15. When the preloads succeed (or there is none) and [subscribe()] is
    resumed, every store is subscribed, its disposer is held and nothing is
    logged; the returned [unsubscribe] then ends every subscription, and a
    second call of it changes nothing. *)
Theorem subscribeStores_then_unsubscribe (options : StoreOptions)
  (results : list (js_error + unit)) (loads : list unit) :
  length results = length (loading (subscribeStores stores options)) ->
  Promise_all results = inr loads ->
  exists st st',
    stores_run vars stores (subscribeStores stores options)
      (if waitUntilLoaded options then [LoadingSettled results; SubscribeResumed]
       else [SubscribeResumed]) = Some st /\
    subscribed st = stores /\ disposers st = stores /\ phase st = StoresSettled /\
    log_calls (st_logger st) = [] /\
    stores_step vars stores st Unsubscribe = Some st' /\
    subscribed st' = [] /\ disposers st' = [] /\
    stores_step vars stores st' Unsubscribe = Some st'.
Proof.
  intros Hlen Hall.
  assert (Hfold : fold_left (fun l dispose => remove_one dispose l) stores stores = []).
  { pose proof (remove_prefix stores []) as Hp. rewrite app_nil_r in Hp. exact Hp. }
  unfold subscribeStores in *. destruct (waitUntilLoaded options) eqn:Hw.
  - cbn [loading] in Hlen. cbn [stores_run stores_step loaded loading phase].
    rewrite decide_True by exact Hlen. rewrite Hall.
    unfold subscribe_begin. cbn [set_loaded isDisposed phase].
    unfold subscribe_resume. cbn [isDisposed disposers app].
    eexists _, _. split; [reflexivity|].
    cbn [subscribed disposers phase st_logger logger_init log_calls app unsubscribe].
    repeat split; try reflexivity; try exact Hfold.
  - unfold subscribe_begin. cbn [isDisposed]. cbn [stores_run stores_step phase].
    unfold subscribe_resume. cbn [isDisposed disposers app].
    eexists _, _. split; [reflexivity|].
    cbn [subscribed disposers phase st_logger logger_init log_calls app unsubscribe
         isDisposed loading loaded].
    repeat split; try reflexivity; try exact Hfold.
Qed.

End StoresMoreFacts.

Lemma subscribeStores_all_or_none_witness :
  exists st,
    stores_run sample_vars ["pods-store"; "nodes-store"]
      (subscribeStores ["pods-store"; "nodes-store"] default_options)
      [LoadingSettled [inr tt; inr tt]; Unsubscribe; SubscribeResumed] = Some st /\
    (subscribed st = [] \/ subscribed st = ["pods-store"; "nodes-store"]) /\
    (disposers st = [] \/ disposers st = ["pods-store"; "nodes-store"]).
Proof.
  eexists. split; [reflexivity|].
  apply (subscribeStores_all_or_none sample_vars ["pods-store"; "nodes-store"] default_options
           [LoadingSettled [inr tt; inr tt]; Unsubscribe; SubscribeResumed]).
  reflexivity.
Defined.

Lemma subscribeStores_then_unsubscribe_witness :
  exists st st',
    stores_run sample_vars ["pods-store"] (subscribeStores ["pods-store"] default_options)
      [LoadingSettled [inr tt]; SubscribeResumed] = Some st /\
    subscribed st = ["pods-store"] /\
    stores_step sample_vars ["pods-store"] st Unsubscribe = Some st' /\
    subscribed st' = [].
Proof.
  destruct (subscribeStores_then_unsubscribe sample_vars ["pods-store"] default_options
              [inr tt] [tt])
    as (st & st' & Hrun & Hs & _ & _ & _ & Hstep & Hs' & _).
  - reflexivity.
  - reflexivity.
  - exists st, st'. repeat split; assumption.
Defined.

(** ** The connection manager and the connection check *)

Section ConnectionMoreFacts.
Context {Api Store : Type} `{Countable Api}.
Variable vars : Vars.
Variable am : @ApiManager Api Store.
Variable JSON_parse : string -> option json.
Implicit Types (c : @Conn Api Store _ _) (s : CallState).

(** A property that every step keeps holds along a run. *)
Lemma run_invariant (P : @Conn Api Store _ _ -> Prop) :
  (forall c l c', P c -> step vars am JSON_parse c l = Some c' -> P c') ->
  forall ls c c', P c -> run vars am JSON_parse c ls = Some c' -> P c'.
Proof.
  intros Hstep. induction ls as [|l ls IH]; intros c c' HP; cbn [run].
  - intros [= <-]. exact HP.
  - destruct (step vars am JSON_parse c l) as [c1|] eqn:Hs; [|discriminate].
    apply IH. exact (Hstep _ _ _ HP Hs).
Qed.

Lemma ids_ok_insert (l : list CallState) (top : Z) k s s' :
  ids_ok l top -> l !! k = Some s ->
  (call_id s' = None \/ call_id s' = call_id s) ->
  ids_ok (<[k := s']> l) top.
Proof.
  intros [Hord Htop] Hk Hid.
  pose proof (lookup_lt_Some _ _ _ Hk) as Hlt.
  assert (Hlook : forall i si r, <[k := s']> l !! i = Some si -> call_id si = Some r ->
            exists si', l !! i = Some si' /\ call_id si' = Some r).
  { intros i si r Hi Hr. destruct (decide (k = i)) as [->|Hki].
    - rewrite list_lookup_insert_eq in Hi by exact Hlt. injection Hi as <-.
      exists s. split; [exact Hk|]. destruct Hid as [Hn|He]; congruence.
    - rewrite list_lookup_insert_ne in Hi by exact Hki. eauto. }
  split.
  - intros i j si sj ri rj Hij Hi Hj Hri Hrj.
    destruct (Hlook _ _ _ Hi Hri) as (si' & Hi' & Hri').
    destruct (Hlook _ _ _ Hj Hrj) as (sj' & Hj' & Hrj').
    exact (Hord _ _ _ _ _ _ Hij Hi' Hj' Hri' Hrj').
  - intros i si r Hi Hr. destruct (Hlook _ _ _ Hi Hr) as (si' & Hi' & Hr').
    exact (Htop _ _ _ Hi' Hr').
Qed.

Lemma lookup_snoc (l : list CallState) (x : CallState) i s :
  (l ++ [x])%list !! i = Some s ->
  (i < length l /\ l !! i = Some s) \/ (i = length l /\ s = x).
Proof.
  intros Hi. destruct (decide (i < length l)) as [Hlt|Hge].
  - left. rewrite lookup_app_l in Hi by exact Hlt. auto.
  - right. rewrite lookup_app_r in Hi by lia.
    destruct (i - length l) as [|n] eqn:Hn; [|destruct n; discriminate].
    cbn in Hi. injection Hi as <-. split; [lia|reflexivity].
Qed.

Lemma ids_ok_snoc (l : list CallState) (top top' : Z) (x : CallState) :
  ids_ok l top -> (top <= top')%Z ->
  (forall r, call_id x = Some r -> (top < r <= top')%Z) ->
  (0 <= top)%Z ->
  ids_ok (l ++ [x]) top'.
Proof.
  intros [Hord Htop] Hle Hx Hpos. split.
  - intros i j si sj ri rj Hij Hi Hj Hri Hrj.
    apply lookup_snoc in Hi as [[Hil Hi]|[-> ->]]; apply lookup_snoc in Hj as [[Hjl Hj]|[-> ->]].
    + exact (Hord _ _ _ _ _ _ Hij Hi Hj Hri Hrj).
    + specialize (Htop _ _ _ Hi Hri). specialize (Hx _ Hrj). lia.
    + lia.
    + lia.
  - intros i s r Hi Hr. apply lookup_snoc in Hi as [[_ Hi]|[-> ->]].
    + specialize (Htop _ _ _ Hi Hr). lia.
    + specialize (Hx _ Hr). lia.
Qed.

Lemma step_ids_ok c (l : Label) c' :
  ids_ok (calls c) (requestId c) /\ (0 <= requestId c)%Z ->
  step vars am JSON_parse c l = Some c' ->
  ids_ok (calls c') (requestId c') /\ (0 <= requestId c')%Z.
Proof.
  intros [Hok Hpos] Hstep. pose proof (step_shape _ _ _ _ _ _ Hstep) as Hshape. clear Hstep.
  destruct l as [onLine apis| |i has_body|i error|i value|i|i error].
  - destruct Hshape as (Hcalls & Hid & _). rewrite Hcalls, Hid.
    destruct (negb onLine || _).
    + split; [|exact Hpos]. apply (ids_ok_snoc _ (requestId c)); [exact Hok|lia| |exact Hpos].
      intros r [=].
    + split; [|lia]. apply (ids_ok_snoc _ (requestId c)); [exact Hok|lia| |exact Hpos].
      intros r [= <-]. lia.
  - destruct Hshape as (Hcalls & Hid & _). rewrite Hcalls, Hid. split; assumption.
  - destruct Hshape as (rid & Hi & Hid & _ & _ & _ & Hcase). rewrite Hid.
    split; [|exact Hpos].
    destruct (negb _); [|destruct has_body]; destruct Hcase as (-> & _);
      (eapply ids_ok_insert; [exact Hok|exact Hi|]); cbn [call_id]; auto.
  - destruct Hshape as (rid & Hi & -> & -> & _). split; [|exact Hpos].
    eapply ids_ok_insert; [exact Hok|exact Hi|]. left. reflexivity.
  - destruct Hshape as (rid & buf & Hi & Hrest). cbn zeta in Hrest.
    destruct Hrest as (-> & -> & _). split; [|exact Hpos].
    eapply ids_ok_insert; [exact Hok|exact Hi|]. right. reflexivity.
  - destruct Hshape as (rid & buf & Hi & -> & -> & _). split; [|exact Hpos].
    eapply ids_ok_insert; [exact Hok|exact Hi|]. left. reflexivity.
  - destruct Hshape as (rid & buf & Hi & -> & -> & _). split; [|exact Hpos].
    eapply ids_ok_insert; [exact Hok|exact Hi|]. left. reflexivity.
Qed.

Lemma step_connected_ok c (l : Label) c' :
  connected_ok c -> step vars am JSON_parse c l = Some c' -> connected_ok c'.
Proof.
  intros (Hconn & Hcanc & Hread) Hstep.
  pose proof (step_shape _ _ _ _ _ _ Hstep) as Hshape.
  assert (Hnf : forall k s, calls c !! k = Some s -> not_fetching s ->
            exists s', calls c' !! k = Some s' /\ not_fetching s').
  { intros k s Hk Hs. eapply step_not_fetching; eassumption. }
  assert (Hcancel : forall k, In k (cancelled c ++ option_list (reader c))%list ->
            exists s, calls c !! k = Some s /\ not_fetching s).
  { intros k Hin. apply in_app_or in Hin as [Hin|Hin]; [exact (Hcanc k Hin)|].
    destruct (reader c) as [j|] eqn:Hr; cbn [option_list] in Hin; [|contradiction].
    destruct Hin as [<-|[]]. apply Hread. reflexivity. }
  clear Hstep.
  destruct l as [onLine apis| |i has_body|i error|i value|i|i error].
  - destruct Hshape as (Hcalls & _ & Hr & Hc & Hcan & _). unfold connected_ok.
    rewrite Hr, Hc, Hcan. split; [discriminate|]. split; [|discriminate].
    intros k Hin. destruct (Hcancel k Hin) as (s & Hs & Hsn). eauto.
  - destruct Hshape as (Hcalls & _ & Hr & Hc & Hcan & _). unfold connected_ok.
    rewrite Hr, Hc, Hcan. split; [discriminate|]. split; [|discriminate].
    intros k Hin. destruct (Hcancel k Hin) as (s & Hs & Hsn). eauto.
  - destruct Hshape as (rid & Hi & _ & Hcan & _ & _ & Hcase). unfold connected_ok.
    rewrite Hcan.
    destruct (negb _); [|destruct has_body]; destruct Hcase as (Hcalls & _ & Hr & Hc & _);
      rewrite Hr, Hc.
    + split; [discriminate|]. split.
      * intros k Hin. destruct (Hcanc k Hin) as (s & Hs & Hsn). eauto.
      * intros j Hj. destruct (Hread j Hj) as (s & Hs & Hsn). eauto.
    + split; [|split].
      * intros _. exists i, rid, EmptyString. split; [reflexivity|]. split.
        -- rewrite Hcalls. apply list_lookup_insert_eq. eapply lookup_lt_Some. exact Hi.
        -- intros Hin. destruct (Hcanc i Hin) as (s & Hs & Hsn). rewrite Hi in Hs.
           injection Hs as <-. exact (Hsn rid eq_refl).
      * intros k Hin. destruct (Hcanc k Hin) as (s & Hs & Hsn). eauto.
      * intros j [= <-]. rewrite Hcalls. eexists. split.
        -- apply list_lookup_insert_eq. eapply lookup_lt_Some. exact Hi.
        -- intros ?; discriminate.
    + split; [discriminate|]. split.
      * intros k Hin. destruct (Hcanc k Hin) as (s & Hs & Hsn). eauto.
      * intros j Hj. destruct (Hread j Hj) as (s & Hs & Hsn). eauto.
  - destruct Hshape as (rid & Hi & Hcalls & _ & Hcan & _ & Hr & Hc & _). unfold connected_ok.
    rewrite Hcan, Hr, Hc. split; [discriminate|]. split.
    + intros k Hin. destruct (Hcanc k Hin) as (s & Hs & Hsn). eauto.
    + intros j Hj. destruct (Hread j Hj) as (s & Hs & Hsn). eauto.
  - destruct Hshape as (rid & buf & Hi & Hrest). cbn zeta in Hrest.
    destruct Hrest as (Hcalls & _ & Hcan & _ & Hr & Hc & _). unfold connected_ok.
    rewrite Hcan, Hr, Hc. split; [|split].
    + intros Hon. destruct (Hconn Hon) as (j & rj & bj & Hrj & Hj & Hnc).
      destruct (decide (i = j)) as [->|Hij].
      * exists j, rid, (fst (read_turn JSON_parse am buf value (dispatcher c))).
        split; [exact Hrj|]. split; [|exact Hnc].
        rewrite Hcalls. apply list_lookup_insert_eq. eapply lookup_lt_Some. exact Hi.
      * exists j, rj, bj. split; [exact Hrj|]. split; [|exact Hnc].
        rewrite Hcalls. rewrite list_lookup_insert_ne by exact Hij. exact Hj.
    + intros k Hin. destruct (Hcanc k Hin) as (s & Hs & Hsn). eauto.
    + intros j Hj. destruct (Hread j Hj) as (s & Hs & Hsn). eauto.
  - destruct Hshape as (rid & buf & Hi & Hcalls & _ & Hcan & _ & Hr & Hc & _).
    unfold connected_ok. rewrite Hcan, Hr, Hc. split; [discriminate|]. split.
    + intros k Hin. destruct (Hcanc k Hin) as (s & Hs & Hsn). eauto.
    + intros j Hj. destruct (Hread j Hj) as (s & Hs & Hsn). eauto.
  - destruct Hshape as (rid & buf & Hi & Hcalls & _ & Hcan & _ & Hr & Hc & _).
    unfold connected_ok. rewrite Hcan, Hr, Hc. split; [discriminate|]. split.
    + intros k Hin. destruct (Hcanc k Hin) as (s & Hs & Hsn). eauto.
    + intros j Hj. destruct (Hread j Hj) as (s & Hs & Hsn). eauto.
Qed.

(** X16. In every state that the client reaches, two calls of [connect]
    that have not settled have different request ids, and these ids are
    positive and not above the current one: at most one call holds the
    current id. *)
Theorem request_ids_are_distinct (ls : list Label) c :
  run vars am JSON_parse conn_init ls = Some c ->
  (forall i j si sj r, calls c !! i = Some si -> calls c !! j = Some sj ->
     call_id si = Some r -> call_id sj = Some r -> i = j) /\
  (forall i s r, calls c !! i = Some s -> call_id s = Some r -> (0 < r <= requestId c)%Z).
Proof.
  intros Hrun.
  assert (Hinv : ids_ok (calls c) (requestId c) /\ (0 <= requestId c)%Z).
  { apply (run_invariant (fun c => ids_ok (calls c) (requestId c) /\ (0 <= requestId c)%Z)
             step_ids_ok ls conn_init c); [|exact Hrun].
    split; [|cbn; lia]. split.
    - intros i j si sj ri rj _ Hi. cbn [calls conn_init] in Hi. rewrite lookup_nil in Hi.
      discriminate Hi.
    - intros i s r Hi. cbn [calls conn_init] in Hi. rewrite lookup_nil in Hi.
      discriminate Hi. }
  destruct Hinv as [[Hord Htop] _]. split; [|exact Htop].
  intros i j si sj r Hi Hj Hri Hrj.
  destruct (Nat.lt_trichotomy i j) as [Hlt|[Heq|Hgt]]; [|exact Heq|].
  - pose proof (Hord _ _ _ _ _ _ Hlt Hi Hj Hri Hrj). lia.
  - pose proof (Hord _ _ _ _ _ _ Hgt Hj Hi Hrj Hri). lia.
Qed.

(** X17. In every state that the client reaches, if [isConnected] is set
    then [this.reader] is the reader of a call that waits in its read loop
    and has not been cancelled. *)
Theorem isConnected_has_live_reader (ls : list Label) c :
  run vars am JSON_parse conn_init ls = Some c ->
  isConnected c = true ->
  exists j rid jsonBuffer,
    reader c = Some j /\ calls c !! j = Some (AwaitRead rid jsonBuffer) /\
    ~ In j (cancelled c).
Proof.
  intros Hrun.
  assert (Hinv : connected_ok c).
  { apply (run_invariant connected_ok step_connected_ok ls conn_init c); [|exact Hrun].
    split; [discriminate|]. split; [intros k []|discriminate]. }
  exact (proj1 Hinv).
Qed.

(** X18. A second [disconnect()] changes nothing after the first, and
    [disconnect()] changes nothing on a client that has no reader and is
    not connected. *)
Theorem disconnect_idempotent c :
  snd (disconnect (snd (disconnect c))) = snd (disconnect c) /\
  (reader c = None -> isConnected c = false -> snd (disconnect c) = c).
Proof.
  split.
  - rewrite !disconnect_eq. cbn [snd requestId reader isConnected dispatcher logger calls
                                  cancelled aborted dispatched option_list].
    rewrite app_nil_r. reflexivity.
  - intros Hr Hc. rewrite disconnect_eq. cbn [snd]. rewrite Hr. cbn [option_list].
    rewrite app_nil_r. destruct c. cbn in *. subst. reflexivity.
Qed.

(** X19. A call of [connect] that issues no request, because the browser
    is offline or no URL is to be watched, takes no request id: a call that
    was waiting for its response with the current id stays current, and
    when its response arrives it connects and becomes the reader. *)
Theorem idle_connect_supersedes_nothing c (i : nat) (onLine : bool) (apis : list string) :
  calls c !! i = Some (AwaitFetch (requestId c)) ->
  negb onLine || (length apis =? 0)%nat = true ->
  exists c',
    run vars am JSON_parse c [CallConnect onLine apis; FetchResolved i true] = Some c' /\
    isConnected c' = true /\ reader c' = Some i /\
    calls c' !! i = Some (AwaitRead (requestId c) EmptyString) /\
    calls c' !! length (calls c) = Some (Settled (inr tt)) /\
    aborted c' = aborted c.
Proof.
  intros Hi Hidle. cbn [run].
  destruct (step vars am JSON_parse c (CallConnect onLine apis)) as [c1|] eqn:Hs1;
    [|discriminate].
  pose proof (step_shape _ _ _ _ _ _ Hs1) as (Hcalls1 & Hid1 & _ & _ & _ & Hab1 & _).
  cbn zeta in Hcalls1, Hid1. rewrite Hidle in Hcalls1, Hid1.
  assert (Hi1 : calls c1 !! i = Some (AwaitFetch (requestId c))).
  { rewrite Hcalls1. apply lookup_app_l_Some. exact Hi. }
  destruct (step vars am JSON_parse c1 (FetchResolved i true)) as [c2|] eqn:Hs2.
  2:{ cbn [step] in Hs2. rewrite Hi1 in Hs2. discriminate. }
  exists c2. split; [reflexivity|].
  pose proof (step_shape _ _ _ _ _ _ Hs2) as (rid & Hi1' & _ & _ & _ & _ & Hcase).
  rewrite Hi1 in Hi1'. injection Hi1' as <-.
  rewrite Hid1, Z.eqb_refl in Hcase. cbn [negb] in Hcase.
  destruct Hcase as (Hcalls2 & Hab2 & Hr2 & Hc2 & _).
  pose proof (lookup_lt_Some _ _ _ Hi) as Hlt.
  repeat split; [exact Hc2|exact Hr2| | |congruence].
  - rewrite Hcalls2. apply list_lookup_insert_eq. rewrite Hcalls1, length_app. cbn. lia.
  - rewrite Hcalls2. rewrite list_lookup_insert_ne by lia.
    rewrite Hcalls1. rewrite lookup_app_r by lia. rewrite Nat.sub_diag. reflexivity.
Qed.

(** X20. [connectionCheck()] hands one line to the log. While
    [isConnected] is set it does nothing else. While it is not set, it does
    what [connect()] does: it cancels the reader the client still holds,
    and starts a new call. *)
Theorem connectionCheck_cases c (onLine : bool) (apis : list string) :
  let c' := connectionCheck vars onLine apis c in
  log_calls (logger c')
  = (log_calls (logger c) ++ LogText "connection check"
       :: if isConnected c || negb onLine || (length apis =? 0)%nat then []
          else [LogText "Connecting"])%list /\
  (isConnected c = true ->
   requestId c' = requestId c /\ reader c' = reader c /\ isConnected c' = true /\
   calls c' = calls c /\ cancelled c' = cancelled c) /\
  (isConnected c = false ->
   reader c' = None /\ isConnected c' = false /\
   cancelled c' = (cancelled c ++ option_list (reader c))%list /\
   calls c' = (calls c ++ [if negb onLine || (length apis =? 0)%nat then Settled (inr tt)
                           else AwaitFetch (requestId c + 1)])%list).
Proof.
  cbn zeta. unfold connectionCheck.
  destruct (this_log vars (LogText "connection check") c) as [r c1] eqn:Hlog.
  assert (Hc1 : c1 = {| requestId := requestId c; reader := reader c;
                        isConnected := isConnected c; dispatcher := dispatcher c;
                        logger := log vars (LogText "connection check") (logger c);
                        calls := calls c; cancelled := cancelled c; aborted := aborted c;
                        dispatched := dispatched c |}).
  { unfold this_log, modify in Hlog. injection Hlog as _ <-. reflexivity. }
  assert (Hf : isConnected c1 = isConnected c) by (rewrite Hc1; reflexivity).
  rewrite Hf. destruct (isConnected c) eqn:Hconn.
  - split; [|split; [intros _|discriminate]].
    + rewrite Hc1. cbn [logger log log_calls orb]. reflexivity.
    + rewrite Hc1. cbn. repeat split; try reflexivity; try exact Hconn.
  - pose proof (step_shape vars am JSON_parse c1 (CallConnect onLine apis)
                  (connect vars onLine apis c1) eq_refl)
      as (Hcalls & _ & Hr & Hc & Hcan & _ & _ & _ & Hl).
    cbn zeta in Hcalls, Hl.
    split; [|split; [discriminate|intros _]].
    + rewrite Hl. rewrite Hc1. cbn [logger log log_calls orb].
      rewrite <- app_assoc. reflexivity.
    + rewrite Hr, Hc, Hcan, Hcalls. rewrite Hc1. cbn [cancelled reader calls requestId].
      repeat split.
Qed.

End ConnectionMoreFacts.

Lemma request_ids_are_distinct_witness :
  exists c,
    run sample_vars sample_manager json_of_text conn_init sample_trace = Some c /\
    (forall i j si sj r, calls c !! i = Some si -> calls c !! j = Some sj ->
       call_id si = Some r -> call_id sj = Some r -> i = j) /\
    (forall i s r, calls c !! i = Some s -> call_id s = Some r -> (0 < r <= requestId c)%Z).
Proof.
  eexists. split; [vm_compute; reflexivity|].
  apply (request_ids_are_distinct sample_vars sample_manager json_of_text sample_trace).
  vm_compute. reflexivity.
Defined.

Lemma isConnected_has_live_reader_witness :
  exists c,
    run sample_vars sample_manager json_of_text conn_init sample_trace = Some c /\
    exists j rid jsonBuffer,
      reader c = Some j /\ calls c !! j = Some (AwaitRead rid jsonBuffer) /\
      ~ In j (cancelled c).
Proof.
  eexists. split; [vm_compute; reflexivity|].
  apply (isConnected_has_live_reader sample_vars sample_manager json_of_text sample_trace).
  - vm_compute. reflexivity.
  - reflexivity.
Defined.

Lemma disconnect_idempotent_witness :
  snd (disconnect (@conn_init string string _ _)) = conn_init.
Proof.
  apply (proj2 (disconnect_idempotent (@conn_init string string _ _))); reflexivity.
Defined.

Lemma idle_connect_supersedes_nothing_witness :
  exists c,
    run sample_vars sample_manager json_of_text conn_init
      [CallConnect true ["/api/v1/pods?watch=1"]] = Some c /\
    exists c',
      run sample_vars sample_manager json_of_text c
        [CallConnect false ["/api/v1/pods?watch=1"]; FetchResolved 0 true] = Some c' /\
      isConnected c' = true /\ reader c' = Some 0 /\
      calls c' !! 0 = Some (AwaitRead (requestId c) EmptyString) /\
      calls c' !! length (calls c) = Some (Settled (inr tt)) /\
      aborted c' = aborted c.
Proof.
  eexists. split; [vm_compute; reflexivity|].
  apply (idle_connect_supersedes_nothing sample_vars sample_manager json_of_text _ 0 false
           ["/api/v1/pods?watch=1"]).
  - vm_compute. reflexivity.
  - reflexivity.
Defined.

Lemma connectionCheck_cases_witness :
  exists c,
    run sample_vars sample_manager json_of_text conn_init
      (sample_trace ++ [FetchResolved 0 true])%list = Some c /\
    isConnected c = false /\ reader c = Some 1 /\
    cancelled (connectionCheck sample_vars true ["/api/v1/pods?watch=1"] c)
    = (cancelled c ++ [1])%list.
Proof.
  eexists. split; [vm_compute; reflexivity|].
  split; [reflexivity|]. split; [reflexivity|].
  match goal with
  | |- cancelled (connectionCheck _ _ _ ?c) = _ =>
      pose proof (connectionCheck_cases sample_vars sample_manager json_of_text c true
                    ["/api/v1/pods?watch=1"]) as (_ & _ & Hoff)
  end.
  destruct (Hoff eq_refl) as (_ & _ & Hcan & _). exact Hcan.
Defined.

(** ** Logging *)

Lemma log_console_ok (vars : Vars) (message : LogMessage) (lg : Logger) :
  console_ok vars lg -> console_ok vars (log vars message lg).
Proof.
  unfold console_ok, log. cbn [console log_calls]. intros Hc.
  destruct (isProduction vars && negb (isDebugging vars)); [exact Hc|].
  rewrite map_app, Hc. destruct message; reflexivity.
Qed.

Section ConnectionLog.
Context {Api Store : Type} `{Countable Api}.
Variable vars : Vars.
Variable am : @ApiManager Api Store.
Variable JSON_parse : string -> option json.
Implicit Types (c : @Conn Api Store _ _) (s : CallState).

Lemma connect_logger (onLine : bool) (apis : list string) c :
  logger (connect vars onLine apis c)
  = if negb onLine || (length apis =? 0)%nat then logger c
    else log vars (LogText "Connecting") (logger c).
Proof.
  unfold connect. rewrite disconnect_eq.
  destruct (negb onLine || (length apis =? 0)%nat); reflexivity.
Qed.

Lemma step_logger c (l : Label) c' :
  step vars am JSON_parse c l = Some c' ->
  logger c' = logger c \/ exists message, logger c' = log vars message (logger c).
Proof.
  intros Hstep. destruct l as [onLine apis| |i has_body|i error|i value|i|i error].
  - cbn [step] in Hstep. injection Hstep as <-. rewrite connect_logger.
    destruct (negb onLine || _); eauto.
  - pose proof (step_shape _ _ _ _ _ _ Hstep) as (_ & _ & _ & _ & _ & _ & _ & _ & Hl). auto.
  - pose proof (step_shape _ _ _ _ _ _ Hstep) as (rid & _ & _ & _ & _ & _ & Hcase).
    destruct (negb _); [|destruct has_body]; destruct Hcase as (_ & _ & _ & _ & Hl); eauto.
  - pose proof (step_shape _ _ _ _ _ _ Hstep)
      as (rid & _ & _ & _ & _ & _ & _ & _ & _ & _ & Hl). eauto.
  - pose proof (step_shape _ _ _ _ _ _ Hstep) as (rid & buf & _ & Hrest).
    cbn zeta in Hrest. destruct Hrest as (_ & _ & _ & _ & _ & _ & _ & _ & Hl). auto.
  - pose proof (step_shape _ _ _ _ _ _ Hstep)
      as (rid & buf & _ & _ & _ & _ & _ & _ & _ & _ & _ & Hl). auto.
  - pose proof (step_shape _ _ _ _ _ _ Hstep)
      as (rid & buf & _ & _ & _ & _ & _ & _ & _ & _ & _ & Hl). eauto.
Qed.

(** X21. In every state that the client reaches, the console holds nothing
    in production without debugging; otherwise it holds one line for every
    call of [this.log], in call order, at the error level for an [Error]
    and at the info level for a text. *)
Theorem console_follows_the_log (ls : list Label) c :
  run vars am JSON_parse conn_init ls = Some c ->
  console (logger c)
  = if isProduction vars && negb (isDebugging vars) then []
    else map console_line (log_calls (logger c)).
Proof.
  intros Hrun.
  apply (run_invariant vars am JSON_parse (fun c => console_ok vars (logger c)))
    with (ls := ls) (c := conn_init); [| |exact Hrun].
  - intros c0 l c1 Hok Hstep.
    destruct (step_logger _ _ _ Hstep) as [->|(message & ->)];
      [exact Hok|apply log_console_ok; exact Hok].
  - unfold console_ok. cbn. destruct (isProduction vars && negb (isDebugging vars)); reflexivity.
Qed.

End ConnectionLog.

Lemma console_follows_the_log_witness :
  exists c,
    run sample_vars sample_manager json_of_text conn_init sample_trace = Some c /\
    console (logger c) = map console_line (log_calls (logger c)).
Proof.
  eexists. split; [vm_compute; reflexivity|].
  apply (console_follows_the_log sample_vars sample_manager json_of_text sample_trace).
  vm_compute. reflexivity.
Defined.
